(** * Sweep graph of lib2geom: a shallow embedding of
      [src/2geom/toys/sweep-graph.cpp]

    The file follows the C++ source top-down: coordinates and points,
    [CurveIx], [lexo_point], [Section], [Edge], [Vertex], [Graph],
    [process_splits], [mono_splits], [mono_sections], [split_section],
    [HeapSorter], [section_root], [SectionSorter], [push_them],
    [find_vertex] and [sweep_graph].

    Conventions of the embedding.
    - A C++ [double] is the type [double] below: an exact rational or one
      of the three IEEE special values.  Rounding, overflow and the sign
      of zero are not modelled.
    - [std::vector<T>] is [list T]; [v[i]] outside the vector is undefined
      behaviour in C++ and is the error [OutOfRange] here.
    - A failed [assert] is the error [AssertionFailed].
    - The sweep loop is [while(true)]; the model runs it on fuel.
    - What the sweep calls but does not define is a parameter: the curves
      ([pointAt], [roots], ...), 2geom's [mono_intersect] and the heap
      algorithms of the C++ standard library.  2geom's [Interval], [Rect]
      and [are_near] are modelled from their description.
    - The vector [monos] is used through iterators only: [monos_end] and
      [s] are indices into it, and [push_them] writes through them.  The
      vector is never resized ([reserve] changes the capacity, not the
      size): a write at or past its end is [OutOfRange].

    The second part states and proves the properties: the winding loop
    (C1), the finishing test (C2), the context order (C3), degenerate
    sections (C4), [process_splits] (C5, C6), the Edges of the returned
    Graph (C7), the sweep as a function of its input (C8, C9), and the
    pieces pushed back into [monos] with the iterations the loop can
    complete (C10).

    The third part goes through the source once more and proves what
    each function does on its own and what holds of every Graph the
    sweep returns (X1 to X30): the order [lexo_point], the constructor of
    a section, [process_splits], [mono_splits], [mono_sections],
    [split_section], [find_vertex], the binary search, the winding and
    finishing loops, [push_them], [section_root], [SectionSorter], the
    trace buffers and [SweepWindow::key_hit]. *)

From Stdlib Require Import List ZArith QArith Qround Qabs Lia Lqa Bool Arith Permutation.
Import ListNotations.

Local Open Scope nat_scope.

(** ** Coordinates *)

Inductive double : Type :=
| Fin (q : Q)
| PInf
| NInf
| NaN.

Module D.

Definition ltb (a b : double) : bool :=
  match a, b with
  | NaN, _ | _, NaN => false
  | Fin x, Fin y => negb (Qle_bool y x)
  | NInf, NInf => false
  | NInf, _ => true
  | _, NInf => false
  | PInf, _ => false
  | Fin _, PInf => true
  end.

Definition leb (a b : double) : bool :=
  match a, b with
  | NaN, _ | _, NaN => false
  | Fin x, Fin y => Qle_bool x y
  | NInf, _ => true
  | _, NInf => false
  | _, PInf => true
  | PInf, Fin _ => false
  end.

Definition eqb (a b : double) : bool :=
  match a, b with
  | Fin x, Fin y => Qeq_bool x y
  | PInf, PInf => true
  | NInf, NInf => true
  | _, _ => false
  end.

(** C++ [a > b], [a >= b], [a != b]. *)
Definition gtb (a b : double) : bool := ltb b a.
Definition geb (a b : double) : bool := leb b a.
Definition neqb (a b : double) : bool := negb (eqb a b).

Definition neg (a : double) : double :=
  match a with
  | Fin x => Fin (- x)
  | PInf => NInf
  | NInf => PInf
  | NaN => NaN
  end.

Definition add (a b : double) : double :=
  match a, b with
  | NaN, _ | _, NaN => NaN
  | Fin x, Fin y => Fin (x + y)
  | PInf, NInf | NInf, PInf => NaN
  | PInf, _ | _, PInf => PInf
  | NInf, _ | _, NInf => NInf
  end.

Definition sub (a b : double) : double := add a (neg b).

(** [a / 2] *)
Definition half (a : double) : double :=
  match a with
  | Fin x => Fin (x / 2)
  | other => other
  end.

Definition is_finite (a : double) : bool :=
  match a with Fin _ => true | _ => false end.

End D.

Declare Scope double_scope.
Delimit Scope double_scope with D.
Bind Scope double_scope with double.
Infix "<?" := D.ltb : double_scope.
Infix "<=?" := D.leb : double_scope.
Infix ">?" := D.gtb : double_scope.
Infix ">=?" := D.geb : double_scope.
Infix "==?" := D.eqb (at level 70) : double_scope.
Infix "!=?" := D.neqb (at level 70) : double_scope.
Infix "-" := D.sub : double_scope.
Infix "+" := D.add : double_scope.

(** Modelled from the spec: the tolerance of 2geom's [are_near], declared
    in the library header [2geom/coord.h], which is not among the sources.
    The spec speaks of "a fixed tolerance"; the header's value is 1e-5. *)
Definition eps : Q := 1 # 100000.
Definition EPSILON : double := Fin eps.

(** Modelled from the spec: [are_near(Coord, Coord)] of [2geom/coord.h]
    ("within tolerance"): the difference lies in [-EPSILON, EPSILON]. *)
Definition are_near (a b : double) : bool :=
  ((a - b) <=? EPSILON)%D && ((a - b) >=? D.neg EPSILON)%D.

Inductive Dim2 : Type := X | Y.

(** The C++ expression [1 - d] on a [Dim2]. *)
Definition other_dim (d : Dim2) : Dim2 :=
  match d with X => Y | Y => X end.

Definition Point : Type := (double * double)%type.

(** [p[d]] *)
Definition coord (p : Point) (d : Dim2) : double :=
  match d with X => fst p | Y => snd p end.

(** Unary minus on a [Point]. *)
Definition point_neg (p : Point) : Point := (D.neg (fst p), D.neg (snd p)).

(** Modelled from the spec: [are_near(Point, Point)] of [2geom/point.h]
    ("representative points are within a fixed tolerance"), taken
    coordinate by coordinate. *)
Definition are_near_point (a b : Point) : bool :=
  are_near (coord a X) (coord b X) && are_near (coord a Y) (coord b Y).

(** Modelled from the spec: [Geom::Interval] of [2geom/interval.h]; the
    constructor orders its two arguments, [contains] and [intersects] are
    the closed-interval tests. *)
Record Interval : Type := mkInterval { imin : double; imax : double }.

Definition Interval_of (u v : double) : Interval :=
  if (u <=? v)%D then mkInterval u v else mkInterval v u.

Definition Interval_contains (i : Interval) (v : double) : bool :=
  (imin i <=? v)%D && (v <=? imax i)%D.

Definition Interval_contains_interval (i j : Interval) : bool :=
  (imin i <=? imin j)%D && (imax j <=? imax i)%D.

Definition Interval_intersects (i j : Interval) : bool :=
  Interval_contains i (imin j) || Interval_contains i (imax j)
  || Interval_contains_interval j i.

(** Modelled from the spec: [Geom::Rect] of [2geom/rect.h], the bounding
    box of two corner points, indexed by dimension. *)
Record Rect : Type := mkRect { rect_x : Interval; rect_y : Interval }.

Definition Rect_of (a b : Point) : Rect :=
  mkRect (Interval_of (coord a X) (coord b X))
         (Interval_of (coord a Y) (coord b Y)).

Definition rect_dim (r : Rect) (d : Dim2) : Interval :=
  match d with X => rect_x r | Y => rect_y r end.

(** ** Errors *)

Inductive error : Type :=
| OutOfRange        (* v[i] with i >= v.size() *)
| AssertionFailed.  (* assert(...) *)

Inductive result (A : Type) : Type :=
| Ok (a : A)
| Err (e : error).
Arguments Ok {A} a.
Arguments Err {A} e.

Definition bind {A B} (m : result A) (k : A -> result B) : result B :=
  match m with
  | Ok a => k a
  | Err e => Err e
  end.

Notation "x <- m ;; k" := (bind m (fun x => k))
  (at level 61, m at next level, right associativity).
Notation "' pat <- m ;; k" := (bind m (fun x => match x with pat => k end))
  (at level 61, pat pattern, m at next level, right associativity).

(** [v[i]] as an rvalue. *)
Definition at_ {A} (v : list A) (i : nat) : result A :=
  match nth_error v i with
  | Some a => Ok a
  | None => Err OutOfRange
  end.

(** [v[i] = x], and more generally an in-place update of [v[i]]. *)
Fixpoint update {A} (v : list A) (i : nat) (g : A -> A) : result (list A) :=
  match v, i with
  | [], _ => Err OutOfRange
  | a :: r, O => Ok (g a :: r)
  | a :: r, S i' => r' <- update r i' g ;; Ok (a :: r')
  end.

(** [v.insert(v.begin() + i, x)] for [i <= v.size()]. *)
Definition insert_at {A} (v : list A) (i : nat) (x : A) : list A :=
  firstn i v ++ x :: skipn i v.

(** [v.erase(v.begin() + i)] for [i < v.size()]. *)
Definition erase_at {A} (v : list A) (i : nat) : list A :=
  firstn i v ++ skipn (S i) v.

(** ** The curve store

    The curves themselves are external to the sweep (2geom's [Curve]
    hierarchy).  A curve is the record of the operations the sweep calls
    on it. *)

Record Curve : Type := mkCurve {
  pointAt : double -> Point;                      (* c.pointAt(t), c(t) *)
  unitTangentAt : double -> Point;                (* c.unitTangentAt(t) *)
  roots : double -> Dim2 -> list double;          (* c.roots(v, d) *)
  derivative_roots : double -> Dim2 -> list double (* c.derivative()->roots(v, d) *)
}.

Definition Path : Type := list Curve.

Record CurveIx : Type := mkCurveIx { path : nat; ix : nat }.

(** [CurveIx::get]: [ps[path][ix]]. *)
Definition get (cix : CurveIx) (ps : list Path) : result Curve :=
  p <- at_ ps (path cix) ;; at_ p (ix cix).

Definition lexo_point (a b : Point) (d : Dim2) : bool :=
  match d with
  | Y => (coord a Y <? coord b Y)%D
         || ((coord a Y ==? coord b Y)%D && (coord a X <? coord b X)%D)
  | X => (coord a X <? coord b X)%D
         || ((coord a X ==? coord b X)%D && (coord a Y <? coord b Y)%D)
  end.

(** [struct Section]; the name is lower-case because [Section] is a
    reserved word of the vernacular. *)
Record section : Type := mkSection {
  curve : CurveIx;
  f : double;
  t : double;
  fp : Point;
  tp : Point;
  windings : list Z
}.

(** The constructor [Section(c, d, cix, fd, td)]. *)
Definition Section_new (c : Curve) (d : Dim2) (cix : CurveIx) (fd td : double)
  : section :=
  let p := pointAt c fd in
  let q := pointAt c td in
  if lexo_point q p d
  then mkSection cix td fd q p []
  else mkSection cix fd td p q [].

(** [Section::set_to]. *)
Definition set_to (s : section) (c : Curve) (d : Dim2) (ti : double)
  : result section :=
  let q := pointAt c ti in
  if (coord q d >=? coord (fp s) d)%D
  then Ok (mkSection (curve s) (f s) ti (fp s) q (windings s))
  else Err AssertionFailed.

(** [Section::bbox]. *)
Definition bbox (s : section) : Rect := Rect_of (fp s) (tp s).

Record Edge : Type := mkEdge { edge_section : nat; other : nat }.

Record Vertex : Type := mkVertex {
  enters : list Edge;
  exits : list Edge;
  avg : Point
}.

(** The constructor [Vertex(p)]. *)
Definition Vertex_new (p : Point) : Vertex := mkVertex [] [] p.

Record Graph : Type := mkGraph {
  g_vertices : list Vertex;
  g_sections : list section
}.

(** ** [process_splits] *)

(** [std::sort] on doubles with [operator<]. *)
Fixpoint sort_insert (x : double) (l : list double) : list double :=
  match l with
  | [] => [x]
  | y :: r => if (y <? x)%D then y :: sort_insert x r else x :: y :: r
  end.

Definition std_sort (l : list double) : list double :=
  fold_right sort_insert [] l.

(** [std::unique] with a binary predicate: an element is dropped when the
    predicate holds between the last element kept and it. *)
Fixpoint unique_from {A} (p : A -> A -> bool) (kept : A) (l : list A) : list A :=
  match l with
  | [] => []
  | y :: r => if p kept y then unique_from p kept r else y :: unique_from p y r
  end.

Definition std_unique {A} (p : A -> A -> bool) (l : list A) : list A :=
  match l with
  | [] => []
  | x :: r => x :: unique_from p x r
  end.

(** [while(!v.empty() && v.front() != x) v.erase(v.begin());] *)
Fixpoint erase_front_until (x : double) (v : list double) : list double :=
  match v with
  | [] => []
  | y :: r => if (y !=? x)%D then erase_front_until x r else v
  end.

(** [while(!v.empty() && v.back() != x) v.erase(v.end() - 1);] *)
Definition erase_back_until (x : double) (v : list double) : list double :=
  rev (erase_front_until x (rev v)).

Definition process_splits (splits : list double) (f t : double) : list double :=
  let splits := splits ++ [f] in
  let splits := splits ++ [t] in
  let splits := std_sort splits in
  let splits := std_unique are_near splits in
  let splits := if (f >? t)%D then rev splits else splits in
  let splits := erase_front_until f splits in
  erase_back_until t splits.

Definition mono_splits (d : Curve) : list double :=
  let splits := derivative_roots d (Fin 0) X in
  let splits := splits ++ derivative_roots d (Fin 0) Y in
  process_splits splits (Fin 0) (Fin 1).

(** The loop [for(k = 1; k < cuts.size(); k++) Section(c, d, cix, cuts[k-1], cuts[k])]. *)
Fixpoint sections_between (c : Curve) (d : Dim2) (cix : CurveIx)
  (cuts : list double) : list section :=
  match cuts with
  | a :: (b :: _) as r => Section_new c d cix a b :: sections_between c d cix r
  | _ => []
  end.

(** A vector paired with its indices, for the loops [for(i = 0; i < v.size(); i++)]. *)
Definition indexed {A} (v : list A) : list (nat * A) :=
  combine (seq 0 (length v)) v.

Definition mono_sections (ps : list Path) : list section :=
  flat_map (fun ip : nat * Path =>
    flat_map (fun jc : nat * Curve =>
      sections_between (snd jc) X (mkCurveIx (fst ip) (fst jc))
                       (mono_splits (snd jc)))
      (indexed (snd ip)))
    (indexed ps).

(** [split_section]: the section mutated to its first bit, and the rest. *)
Definition split_section (s : section) (ps : list Path) (cuts : list double)
  (d : Dim2) : result (section * list section) :=
  let cuts := process_splits cuts (f s) (t s) in
  c <- get (curve s) ps ;;
  c1 <- at_ cuts 1 ;;
  s' <- set_to s c d c1 ;;
  Ok (s', sections_between c d (curve s) (tl cuts)).

(** [HeapSorter(dim)(a, b)]. *)
Definition HeapSorter (dim : Dim2) (a b : section) : bool :=
  lexo_point (fp b) (fp a) dim.

(** [section_root]; the C++ returns -1 when no root lies in the interval. *)
Definition section_root (s : section) (ps : list Path) (v : double) (d : Dim2)
  : result double :=
  c <- get (curve s) ps ;;
  Ok (match find (Interval_contains (Interval_of (f s) (t s))) (roots c v d) with
      | Some r => r
      | None => Fin (-1)
      end).

(** ** [SectionSorter] *)

Definition section_order (ps : list Path) (dim : Dim2)
  (a : section) (at_a : double) (b : section) (bt : double) : result bool :=
  ca <- get (curve a) ps ;;
  cb <- get (curve b) ps ;;
  let ap := pointAt ca at_a in
  let bp := pointAt cb bt in
  if are_near (coord ap dim) (coord bp dim) then
    if (coord (tp a) dim <? coord ap dim)%D && (coord (tp b) dim >? coord ap dim)%D
    then Ok true
    else if (coord (tp a) dim >? coord ap dim)%D && (coord (tp b) dim <? coord ap dim)%D
    then Ok false
    else
      let ad := unitTangentAt ca (f a) in
      let bd := unitTangentAt cb (f b) in
      let ad := if (coord ad (other_dim dim) <? Fin 0)%D then point_neg ad else ad in
      let bd := if (coord bd (other_dim dim) <? Fin 0)%D then point_neg bd else bd in
      Ok (coord ad dim <? coord bd dim)%D
  else Ok (coord ap dim <? coord bp dim)%D.

(** The probe parameter [s.f > s.t ? s.f - 0.01 : s.f + 0.01]. *)
Definition probe (s : section) : double :=
  if (f s >? t s)%D then (f s - Fin (1 # 100))%D else (f s + Fin (1 # 100))%D.

(** [(s.t + s.f) / 2] *)
Definition midpoint (s : section) : double := D.half (t s + f s)%D.

(** [SectionSorter(ps, dim)(a, b)].  [same_object] is the C++ test
    [&a == &b] on the addresses of the two arguments. *)
Definition SectionSorter (ps : list Path) (dim : Dim2) (same_object : bool)
  (a b : section) : result bool :=
  if same_object then Ok false else
  let ra := bbox a in
  let rb := bbox b in
  if (imax (rect_dim ra dim) <=? imin (rect_dim rb dim))%D then Ok true
  else if (imax (rect_dim rb dim) <=? imin (rect_dim ra dim))%D then Ok false
  else if Interval_intersects (rect_dim ra (other_dim dim)) (rect_dim rb (other_dim dim))
  then
    if are_near (coord (fp a) (other_dim dim)) (coord (fp b) (other_dim dim))
    then section_order ps dim a (probe a) b (probe b)
    else if (coord (fp a) (other_dim dim) <? coord (fp b) (other_dim dim))%D
    then
      ta <- section_root a ps (coord (fp b) (other_dim dim)) (other_dim dim) ;;
      let ta := if (ta ==? Fin (-1))%D then midpoint a else ta in
      section_order ps dim a ta b (f b)
    else
      tb <- section_root b ps (coord (fp a) (other_dim dim)) (other_dim dim) ;;
      let tb := if (tb ==? Fin (-1))%D then midpoint b else tb in
      section_order ps dim a (f a) b tb
  else Ok (lexo_point (fp a) (fp b) dim).

(** ** [find_vertex] *)

Fixpoint find_vertex_from (vertices : list Vertex) (p : Point) (i : nat) : nat :=
  match vertices with
  | [] => i
  | v :: r => if are_near_point (avg v) p then i else find_vertex_from r p (S i)
  end.

(** Returns the index and the (possibly grown) vector. *)
Definition find_vertex (vertices : list Vertex) (p : Point) : nat * list Vertex :=
  let i := find_vertex_from vertices p 0 in
  (i, if i =? length vertices then vertices ++ [Vertex_new p] else vertices).

(** ** The C++ standard library's heap algorithms

    [std::make_heap], [std::push_heap], [std::pop_heap] and
    [std::sort_heap] are specified by the standard only up to the heap
    property, so the sweep is parameterised by them.  Each one maps the
    range [first, last) it is applied to, as a list, to the rearranged
    range. *)

Definition comparator : Type := section -> section -> bool.

Record heap_algorithms : Type := mkHeapAlgorithms {
  std_make_heap : comparator -> list section -> list section;
  std_push_heap : comparator -> list section -> list section;
  std_pop_heap : comparator -> list section -> list section;
  std_sort_heap : comparator -> list section -> list section
}.

(** An algorithm applied to the range [v.begin(), v.begin() + n). *)
Definition on_range {A} (n : nat) (g : list A -> list A) (v : list A) : list A :=
  g (firstn n v) ++ skipn n v.

(** [*it = x] for an iterator into [v].  The element must exist: storage
    that [reserve] has provided beyond [v.end()] holds no element, and
    assigning through [v.end()] or beyond is undefined behaviour. *)
Definition store {A} (v : list A) (it : nat) (x : A) : result (list A) :=
  update v it (fun _ => x).

(** [std::lower_bound(v.begin(), v.end(), value, comp)], the binary search;
    [comp] is already applied to [value]. *)
Fixpoint lower_bound_loop {A} (comp : A -> result bool) (v : list A)
  (fuel first len : nat) : result nat :=
  match fuel with
  | O => Ok first
  | S fuel' =>
    if len =? 0 then Ok first else
    let half := Nat.div2 len in
    let mid := first + half in
    m <- at_ v mid ;;
    b <- comp m ;;
    if b then lower_bound_loop comp v fuel' (mid + 1) (len - half - 1)
    else lower_bound_loop comp v fuel' first half
  end.

Definition lower_bound {A} (v : list A) (value : A) (comp : A -> A -> result bool)
  : result nat :=
  lower_bound_loop (fun e => comp e value) v (length v) 0 (length v).

(** Modelled from the spec: [Geom::Crossing] of [2geom/crossing.h], of
    which the sweep reads the two parameters of a crossing pair. *)
Record Crossing : Type := mkCrossing { ta : double; tb : double }.

(** ** The sweep *)

(** The locals of [sweep_graph] that live across loop iterations.
    [st_monos] is the vector [monos], whose size never changes after
    [mono_sections] has filled it, and [st_monos_end] the iterator
    [monos_end], as an index into it: the pending heap is the range below
    [st_monos_end]. *)
Record sweep_state : Type := mkState {
  st_monos : list section;
  st_monos_end : nat;
  st_context : list section;
  st_vix : list nat;
  st_vertices : list Vertex;
  st_sections : list section;
  st_windings : list Z
}.

(** The global trace buffers [monoss], [chopss] and [contexts]. *)
Record globals : Type := mkGlobals {
  monoss : list (list section);
  chopss : list (list section);
  contexts : list (list section)
}.

Inductive outcome : Type :=
| Returned (g : Graph)
| Aborted (e : error)
| OutOfFuel.

Inductive step_result : Type :=
| Break (st : sweep_state)
| Continue (G : globals) (st : sweep_state).

(** [std::fill(w.begin(), w.end(), 0)] *)
Definition fill_zero (w : list Z) : list Z := map (fun _ => 0%Z) w.

(** [w.resize(n)] *)
Definition resize (w : list Z) (n : nat) : list Z :=
  firstn n w ++ repeat 0%Z (n - length w).

(** The loop [for(int j = 0; j < i; j++)] over the sections [below], which
    are [context[0..i)], from index [j] on.  The counters are C++ [int];
    they are not wrapped here. *)
Fixpoint winding_loop (below : list section) (j : nat) (w : list Z)
  : result (list Z) :=
  match below with
  | [] => Ok w
  | cj :: rest =>
    let k := path (curve cj) in
    let w := if length w <=? k then resize w (k + 1) else w in
    if (coord (fp cj) X ==? coord (tp cj) X)%D then winding_loop rest (S j) w
    else
      w <- (if (f cj <? t cj)%D then update w k Z.succ else Ok w) ;;
      w <- (if (f cj >? t cj)%D then update w j Z.pred else Ok w) ;;
      winding_loop rest (S j) w
  end.

Definition with_windings (s : section) (w : list Z) : section :=
  mkSection (curve s) (f s) (t s) (fp s) (tp s) w.

Definition push_exit (e : Edge) (v : Vertex) : Vertex :=
  mkVertex (enters v) (exits v ++ [e]) (avg v).

Definition push_enter (e : Edge) (v : Vertex) : Vertex :=
  mkVertex (enters v ++ [e]) (exits v) (avg v).

(** The test that decides whether [context[i]] is finished. *)
Definition finished (lim : double) (ci : section) : bool :=
  (coord (tp ci) X <? lim)%D || are_near (coord (tp ci) X) lim.

(** The loop [for(int i = context.size() - 1; i >= 0; i--)], with [n]
    iterations left, that is [i = n - 1]. *)
Fixpoint finish_loop (n : nat) (lim : double) (st : sweep_state)
  : result sweep_state :=
  match n with
  | O => Ok st
  | S i =>
    ci <- at_ (st_context st) i ;;
    if finished lim ci then
      w <- winding_loop (firstn i (st_context st)) 0 (fill_zero (st_windings st)) ;;
      let r := with_windings ci w in
      let (vert, vs) := find_vertex (st_vertices st) (tp r) in
      vi <- at_ (st_vix st) i ;;
      if vert =? vi
      then finish_loop i lim
             (mkState (st_monos st) (st_monos_end st) (st_context st) (st_vix st)
                      vs (st_sections st) w)
      else
        let secs := st_sections st ++ [r] in
        vs <- update vs vi (push_exit (mkEdge (length secs - 1) vert)) ;;
        vs <- update vs vert (push_enter (mkEdge (length secs - 1) vi)) ;;
        finish_loop i lim
          (mkState (st_monos st) (st_monos_end st)
                   (erase_at (st_context st) i) (erase_at (st_vix st) i)
                   vs secs w)
    else finish_loop i lim st
  end.

Section Sweep.

(** The heap algorithms of the C++ standard library in use. *)
Variable H : heap_algorithms.

(** 2geom's [mono_intersect(a, ia, b, ib)], external to the sweep. *)
Variable mono_intersect : Curve -> Interval -> Curve -> Interval -> list Crossing.

(** The loop of [push_them]: each element is written through [it], over
    whatever the vector holds there (the candidate [*s], for the first
    one), and sifted into the heap. *)
Fixpoint push_them_loop (x : list section) (it : nat) (xs : list section)
  (z : comparator) : result (list section * nat) :=
  match xs with
  | [] => Ok (x, it)
  | e :: r =>
    x <- store x it e ;;
    let it := S it in
    push_them_loop (on_range it (std_push_heap H z) x) it r z
  end.

(** [push_them(x, it, xs, z)]; returns the vector and the advanced
    iterator.  [x.reserve(n)], with [n = it - x.begin() + xs.size()],
    changes the capacity of [x] and never its size.  With [n <= x.size()]
    it does nothing, the capacity being at least the size.  With
    [n > x.size()] the call is undefined behaviour whatever the capacity
    is: either [reserve] reallocates, and [it] (the caller's [monos_end])
    and [s] dangle, or it does not, and the loop assigns through
    [x.end()]. *)
Definition push_them (x : list section) (it : nat) (xs : list section)
  (z : comparator) : result (list section * nat) :=
  if it + length xs <=? length x then push_them_loop x it xs z
  else Err OutOfRange.

Variable ps : list Path.
Variable d : Dim2.

(** The loop [for(unsigned i = 0; i < context.size(); i++)] that
    intersects the candidate with its neighbours, with [k] iterations
    left.  [s] is the iterator [s], an index into [st_monos]: the
    candidate is read through it at every use, as the C++ does. *)
Fixpoint neighbour_loop (s context_ix : nat) (si : Interval) (k i : nat)
  (st : sweep_state) (this_splits : list double)
  : result (sweep_state * list double) :=
  match k with
  | O => Ok (st, this_splits)
  | S k' =>
    if i =? context_ix
    then neighbour_loop s context_ix si k' (S i) st this_splits
    else
      ci <- at_ (st_context st) i ;;
      if Interval_intersects si
           (Interval_of (coord (fp ci) (other_dim d)) (coord (tp ci) (other_dim d)))
      then
        sv <- at_ (st_monos st) s ;;
        cs <- get (curve sv) ps ;;
        cc <- get (curve ci) ps ;;
        let xs := mono_intersect cs (Interval_of (f sv) (t sv))
                                 cc (Interval_of (f ci) (t ci)) in
        let this_splits := this_splits ++ map ta xs in
        let other_splits := map tb xs in
        '(ci', rest) <- split_section ci ps other_splits d ;;
        ctx <- update (st_context st) i (fun _ => ci') ;;
        '(m, e) <- push_them (st_monos st) (st_monos_end st) rest (HeapSorter d) ;;
        neighbour_loop s context_ix si k' (S i)
          (mkState m e ctx (st_vix st) (st_vertices st) (st_sections st)
                   (st_windings st))
          this_splits
      else neighbour_loop s context_ix si k' (S i) st this_splits
  end.

(** One iteration of [while(true)]. *)
Definition sweep_step (G : globals) (st : sweep_state) : result step_result :=
  (* double lim = 0.0 / 1.0; if(monos_end != monos.begin()) { ... } *)
  '(st, s, lim) <-
    (if st_monos_end st =? 0 then Ok (st, st_monos_end st, Fin (0 / 1))
     else
       let m := on_range (st_monos_end st) (std_pop_heap H (HeapSorter d))
                         (st_monos st) in
       let e := st_monos_end st - 1 in
       sv <- at_ m e ;;
       Ok (mkState m e (st_context st) (st_vix st) (st_vertices st)
                   (st_sections st) (st_windings st),
           e, coord (fp sv) d)) ;;
  st <- finish_loop (length (st_context st)) lim st ;;
  (* if(monos_end == monos.begin()) break; *)
  if st_monos_end st =? 0 then Ok (Break st) else
  sv <- at_ (st_monos st) s ;;
  context_ix <- lower_bound (st_context st) sv
                  (SectionSorter ps (other_dim d) false) ;;
  let ctx := insert_at (st_context st) context_ix sv in
  let (v, vs) := find_vertex (st_vertices st) (fp sv) in
  let vx := insert_at (st_vix st) context_ix v in
  let si := Interval_of (coord (fp sv) (other_dim d)) (coord (tp sv) (other_dim d)) in
  let st := mkState (st_monos st) (st_monos_end st) ctx vx vs (st_sections st)
                    (st_windings st) in
  '(st, this_splits) <-
    neighbour_loop s context_ix si (length ctx) 0 st [] ;;
  cx <- at_ (st_context st) context_ix ;;
  '(cx', rest) <- split_section cx ps this_splits d ;;
  ctx <- update (st_context st) context_ix (fun _ => cx') ;;
  '(m, e) <- push_them (st_monos st) (st_monos_end st) rest (HeapSorter d) ;;
  let rem := std_sort_heap H (HeapSorter d) (firstn e m) in
  Ok (Continue (mkGlobals (monoss G ++ [rem]) (chopss G) (contexts G ++ [ctx]))
               (mkState m e ctx (st_vix st) (st_vertices st) (st_sections st)
                        (st_windings st))).

Fixpoint sweep_loop (fuel : nat) (G : globals) (st : sweep_state)
  : outcome * globals :=
  match fuel with
  | O => (OutOfFuel, G)
  | S fuel' =>
    match sweep_step G st with
    | Err e => (Aborted e, G)
    | Ok (Break st') => (Returned (mkGraph (st_vertices st') (st_sections st')), G)
    | Ok (Continue G' st') => sweep_loop fuel' G' st'
    end
  end.

(** The state at the entry of the loop. *)
Definition initial_state : sweep_state :=
  let monos := std_make_heap H (HeapSorter d) (mono_sections ps) in
  mkState monos (length monos) [] [] [] [] (repeat 0%Z (length ps)).

(** [sweep_graph(ps, d, tol)]; [tol] is not used by the C++ either. *)
Definition sweep_graph (fuel : nat) (G : globals) (tol : double)
  : outcome * globals :=
  sweep_loop fuel G initial_state.

End Sweep.

(** ** One conforming heap implementation

    The range is kept sorted, greatest element first: every prefix of such
    a range is a heap.  [push_heap] inserts the last element at its place
    and [pop_heap] moves the first element to the end. *)

Fixpoint heap_insert (z : comparator) (x : section) (l : list section)
  : list section :=
  match l with
  | [] => [x]
  | y :: r => if z x y then y :: heap_insert z x r else x :: y :: r
  end.

Definition sorted_make_heap (z : comparator) (l : list section) : list section :=
  fold_right (heap_insert z) [] l.

Definition sorted_push_heap (z : comparator) (l : list section) : list section :=
  match rev l with
  | [] => []
  | x :: r => heap_insert z x (rev r)
  end.

Definition sorted_pop_heap (z : comparator) (l : list section) : list section :=
  match l with
  | [] => []
  | x :: r => r ++ [x]
  end.

(** [sort_heap] leaves the range in ascending order. *)
Definition sorted_sort_heap (z : comparator) (l : list section) : list section :=
  rev l.

Definition sorted_heap : heap_algorithms :=
  mkHeapAlgorithms sorted_make_heap sorted_push_heap sorted_pop_heap sorted_sort_heap.

(** ** The rules as the specification words them

    These definitions follow the specification's text, for comparison with
    the definitions above, which follow the code. *)

(** Winding rule of the specification: every lower section that is not a
    sliver on the sweep axis credits or debits the count of its own path. *)
Fixpoint winding_by_path (below : list section) (w : list Z) : list Z :=
  match below with
  | [] => w
  | cj :: rest =>
    let k := path (curve cj) in
    let w := if length w <=? k then resize w (k + 1) else w in
    let bump (g : Z -> Z) (w : list Z) :=
      match update w k g with Ok w' => w' | Err _ => w end in
    if (coord (fp cj) X ==? coord (tp cj) X)%D then winding_by_path rest w
    else if (f cj <? t cj)%D then winding_by_path rest (bump Z.succ w)
    else if (f cj >? t cj)%D then winding_by_path rest (bump Z.pred w)
    else winding_by_path rest w
  end.

(** Finishing rule of the specification, on the sweep axis [d]. *)
Definition finished_on (d : Dim2) (lim : double) (ci : section) : bool :=
  (coord (tp ci) d <? lim)%D || are_near (coord (tp ci) d) lim.

(** ** Notions the properties are stated with *)

(** Strict overlap of the bounding boxes of [a] and [b] on axis [dim]:
    neither of the first two tests of [SectionSorter] fires. *)
Definition boxes_overlap (dim : Dim2) (a b : section) : bool :=
  negb (imax (rect_dim (bbox a) dim) <=? imin (rect_dim (bbox b) dim))%D
  && negb (imax (rect_dim (bbox b) dim) <=? imin (rect_dim (bbox a) dim))%D.

(** The parameter at which [SectionSorter] evaluates the containing
    section [s]: the root found by [section_root], or the midpoint. *)
Definition root_or_midpoint (s : section) (ps : list Path) (v : double) (d : Dim2)
  : result double :=
  r <- section_root s ps v d ;;
  Ok (if (r ==? Fin (-1))%D then midpoint s else r).

Definition point_is_finite (p : Point) : bool :=
  D.is_finite (coord p X) && D.is_finite (coord p Y).

(** A curve has a non-finite coordinate when one of its end points has. *)
Definition curve_is_finite (c : Curve) : bool :=
  point_is_finite (pointAt c (Fin 0)) && point_is_finite (pointAt c (Fin 1)).

Definition input_is_finite (ps : list Path) : bool :=
  forallb (forallb curve_is_finite) ps.

(** Completed iterations of the sweep loop, from a state. *)
Fixpoint steps (H : heap_algorithms)
  (mono_intersect : Curve -> Interval -> Curve -> Interval -> list Crossing)
  (ps : list Path) (d : Dim2) (n : nat) (G : globals) (st : sweep_state)
  : option (globals * sweep_state) :=
  match n with
  | O => Some (G, st)
  | S n' =>
    match sweep_step H mono_intersect ps d G st with
    | Ok (Continue G' st') => steps H mono_intersect ps d n' G' st'
    | _ => None
    end
  end.

(** Number of Edges with a given section index in an edge list, and over
    all the Vertices of a vector. *)
Definition edges_of (k : nat) (es : list Edge) : list Edge :=
  filter (fun e => edge_section e =? k) es.

Definition total_edges (vs : list Vertex) : nat :=
  list_sum (map (fun v => length (enters v) + length (exits v)) vs).

(** The Vertex with index [i] stands for the point [p]: it was found near
    [p] or created for [p] by [find_vertex]. *)
Definition resolves (vs : list Vertex) (i : nat) (p : Point) : Prop :=
  exists v, nth_error vs i = Some v /\
            (are_near_point (avg v) p = true \/ avg v = p).

(** ** Concrete inputs *)

(** A straight line segment from [p0] to [p1]: evaluation, and the roots
    of a coordinate in [0,1].  The unit tangent is passed in, as it is
    rarely rational; the inputs whose sweep never asks for a tangent pass
    (0,0).  The derivative is a non-zero constant and has no roots. *)
Definition qcoord (p : Q * Q) (d : Dim2) : Q :=
  match d with X => fst p | Y => snd p end.

Definition line_at (p0 p1 : Q * Q) (u : double) : Point :=
  match u with
  | Fin u => (Fin (fst p0 + u * (fst p1 - fst p0)),
              Fin (snd p0 + u * (snd p1 - snd p0)))
  | _ => (NaN, NaN)
  end.

Definition line_roots (p0 p1 : Q * Q) (v : double) (d : Dim2) : list double :=
  match v with
  | Fin v =>
    if Qeq_bool (qcoord p0 d) (qcoord p1 d) then []
    else
      let r := ((v - qcoord p0 d) / (qcoord p1 d - qcoord p0 d))%Q in
      if Qle_bool 0 r && Qle_bool r 1 then [Fin r] else []
  | _ => []
  end.

Definition LineSegment (p0 p1 tangent : Q * Q) : Curve :=
  mkCurve (line_at p0 p1)
          (fun _ => (Fin (fst tangent), Fin (snd tangent)))
          (line_roots p0 p1)
          (fun _ _ => []).

(** [mono_intersect] for inputs whose curves do not cross. *)
Definition no_crossings (a : Curve) (ia : Interval) (b : Curve) (ib : Interval)
  : list Crossing := [].

Definition no_globals : globals := mkGlobals [] [] [].

Definition pt (x y : Q) : Point := (Fin x, Fin y).

(** Three sections of a context, lowest first; the second one runs
    against its curve's parameter ([f > t]) and belongs to path 0, as the
    first one does. *)
Definition lower0 : section :=
  mkSection (mkCurveIx 0 0) (Fin 0) (Fin 1) (pt 0 0) (pt 4 (1 # 2)) [].
Definition lower1 : section :=
  mkSection (mkCurveIx 0 1) (Fin 1) (Fin 0) (pt 0 1) (pt 4 (3 # 2)) [].
Definition upper2 : section :=
  mkSection (mkCurveIx 1 0) (Fin 0) (Fin 1) (pt 0 2) (pt 1 (5 # 2)) [].

Definition three_in_context : sweep_state :=
  mkState [] 0 [lower0; lower1; upper2] [0; 1; 2]
          [Vertex_new (pt 0 0); Vertex_new (pt 0 1); Vertex_new (pt 0 2)]
          [] [0%Z; 0%Z].

(** An input on which the sweep reaches such a context: path 0 runs
    from (0,0) to (4,1/2) and back from (4,3/2) to (0,1); path 1 lies
    above it and ends at x = 1; a segment starting at x = 2 and another
    one follow. *)
Definition opposite_edges : list Path :=
  [[LineSegment (0, 0)%Q (4, 1 # 2)%Q (0, 0)%Q;
    LineSegment (4, 3 # 2)%Q (0, 1)%Q (0, 0)%Q];
   [LineSegment (0, 2)%Q (1, 5 # 2)%Q (0, 0)%Q];
   [LineSegment (2, 5)%Q (3, 6)%Q (0, 0)%Q];
   [LineSegment (6, 0)%Q (7, 1)%Q (0, 0)%Q]].

(** Three segments that do not cross, swept along Y: the first one ends
    at (5, 1/2), below the leading points (0,1) and (0,3) of the others. *)
Definition flat_segment : Curve := LineSegment (0, 0)%Q (5, 1 # 2)%Q (0, 0)%Q.
Definition swept_along_Y : list Path :=
  [[flat_segment];
   [LineSegment (0, 1)%Q (1, 2)%Q (0, 0)%Q];
   [LineSegment (0, 3)%Q (1, 4)%Q (0, 0)%Q]].

(** A segment shorter than the tolerance, followed by two ordinary ones. *)
Definition tiny_segment : Curve :=
  LineSegment (0, 0)%Q (1 # 1000000, 1 # 1000000)%Q (0, 0)%Q.
Definition with_tiny_segment : list Path :=
  [[tiny_segment];
   [LineSegment (2, 0)%Q (3, 1)%Q (0, 0)%Q];
   [LineSegment (4, 0)%Q (5, 1)%Q (0, 0)%Q]].

(** Two segments starting on the line y = 0, at x = 0 and x = 1. *)
Definition steep_a : Curve := LineSegment (0, 0)%Q (3, 4)%Q (3 # 5, 4 # 5)%Q.
Definition steep_b : Curve := LineSegment (1, 0)%Q (6, 12)%Q (5 # 13, 12 # 13)%Q.
Definition two_steep : list Path := [[steep_a]; [steep_b]].
Definition section_a : section := Section_new steep_a X (mkCurveIx 0 0) (Fin 0) (Fin 1).
Definition section_b : section := Section_new steep_b X (mkCurveIx 1 0) (Fin 0) (Fin 1).

(** A curve whose derivative in x vanishes at t = 0.999999, as that of
    x(t) = t (1.999998 - t) does. *)
Definition late_turn : Curve :=
  mkCurve (fun u => match u with
                    | Fin u => (Fin (u * ((1999998 # 1000000) - u)), Fin u)
                    | _ => (NaN, NaN)
                    end)
          (fun _ => (Fin 0, Fin 1))
          (fun _ _ => [])
          (fun _ d => match d with X => [Fin (999999 # 1000000)] | Y => [] end).

(** The section of a segment, and a crossing found one millionth before
    its end. *)
Definition diagonal : Curve := LineSegment (0, 0)%Q (1, 1)%Q (0, 0)%Q.
Definition diagonal_section : section :=
  Section_new diagonal X (mkCurveIx 0 0) (Fin 0) (Fin 1).

(** A curve given by its two end points. *)
Definition end_points (p0 p1 : Point) : Curve :=
  mkCurve (fun u => if (u ==? Fin 0)%D then p0 else p1)
          (fun _ => (Fin 1, Fin 0)) (fun _ _ => []) (fun _ _ => []).

Definition with_infinite_end : list Path :=
  [[end_points (Fin 0, Fin 0) (Fin 1, PInf)];
   [LineSegment (2, 0)%Q (3, 1)%Q (0, 0)%Q]].

Definition with_nan_end : list Path :=
  [[end_points (Fin 0, Fin 0) (NaN, Fin 1)];
   [LineSegment (2, 0)%Q (3, 1)%Q (0, 0)%Q]].

(** Two diagonals that cross at their midpoints, and two segments further
    along the sweep axis. *)
Definition crossing_segments : list Path :=
  [[LineSegment (0, 0)%Q (2, 2)%Q (0, 0)%Q];
   [LineSegment (0, 2)%Q (2, 0)%Q (0, 0)%Q];
   [LineSegment (3, 0)%Q (4, 1)%Q (0, 0)%Q];
   [LineSegment (5, 0)%Q (6, 1)%Q (0, 0)%Q]].

(** [mono_intersect] for [crossing_segments]: the diagonals meet at
    parameter 1/2 of each, as long as both intervals hold it. *)
Definition midpoint_crossing (a : Curve) (ia : Interval) (b : Curve) (ib : Interval)
  : list Crossing :=
  if Interval_contains ia (Fin (1 # 2)) && Interval_contains ib (Fin (1 # 2))
  then [mkCrossing (Fin (1 # 2)) (Fin (1 # 2))]
  else [].

(** The Graph the sweep returns on [crossing_segments]. *)
Definition crossing_graph : Graph :=
  Eval vm_compute in
    match fst (sweep_graph sorted_heap midpoint_crossing crossing_segments X 20
                           no_globals (Fin 1)) with
    | Returned g => g
    | _ => mkGraph [] []
    end.


(** ** Measures for termination *)

(** The value of a finite parameter. *)
Definition val (x : double) : Q := match x with Fin q => q | _ => 0%Q end.

(** The whole tolerances in a length. *)
Definition fl (x : Q) : nat := Z.to_nat (Qfloor (x / eps)).

(** The whole tolerances that fit between two parameters. *)
Definition extent (a b : double) : nat := fl (Qabs (val b - val a)).

(** The weight of a section: an upper bound on the number of pieces,
    pairwise more than the tolerance apart, it can ever be split into. *)
Definition weight (s : section) : nat := Nat.max 1 (extent (f s) (t s)).

Definition finite_section (s : section) : bool :=
  D.is_finite (f s) && D.is_finite (t s).

Definition all_finite (l : list double) : Prop :=
  Forall (fun x => D.is_finite x = true) l.

(** Consecutive elements of a list of parameters are related by [R]. *)
Fixpoint chain (R : Q -> Q -> Prop) (l : list double) : Prop :=
  match l with
  | a :: (b :: _) as r => R (val a) (val b) /\ chain R r
  | _ => True
  end.

(** [b] lies more than the tolerance after [a] (going up) or before [a]
    (going down). *)
Definition gap (up : bool) (a b : Q) : Prop :=
  if up then (eps < b - a)%Q else (eps < a - b)%Q.

(** The direction of a section: up unless [f > t]. *)
Definition direction (f t : double) : bool := negb (f >? t)%D.

(** Sum of the extents between consecutive parameters *)
Fixpoint pairs_extent (l : list double) : nat :=
  match l with
  | a :: (b :: _) as r => extent a b + pairs_extent r
  | _ => 0
  end.

Definition sections_finite (l : list section) : Prop :=
  Forall (fun s => finite_section s = true) l.

Definition total_weight (l : list section) : nat := list_sum (map weight l).

(** The heap algorithms rearrange their range and nothing else. *)
Record heap_preserves (H : heap_algorithms) : Prop := mkHeapPreserves {
  make_heap_perm : forall z l, Permutation (std_make_heap H z l) l;
  push_heap_perm : forall z l, Permutation (std_push_heap H z l) l;
  pop_heap_perm : forall z l, Permutation (std_pop_heap H z l) l
}.

(** The external operations return finite parameters. *)
Definition finite_crossings
  (mono_intersect : Curve -> Interval -> Curve -> Interval -> list Crossing) : Prop :=
  forall a ia b ib,
    forallb (fun x => D.is_finite (ta x) && D.is_finite (tb x))
            (mono_intersect a ia b ib) = true.

Definition finite_roots (ps : list Path) : bool :=
  forallb (forallb (fun c =>
    forallb D.is_finite (derivative_roots c (Fin 0) X ++ derivative_roots c (Fin 0) Y)))
    ps.

(** The pending heap: the range of [monos] below [monos_end]. *)
Definition pending (st : sweep_state) : list section :=
  firstn (st_monos_end st) (st_monos st).

Definition context_weight (ctx : list section) : nat :=
  list_sum (map (fun s => weight s - 1) ctx).

(** The potential of the sweep state: it drops at every completed
    iteration. *)
Definition potential (st : sweep_state) : nat :=
  total_weight (pending st) + context_weight (st_context st).

Definition state_ok (st : sweep_state) : Prop :=
  st_monos_end st <= length (st_monos st)
  /\ sections_finite (pending st)
  /\ sections_finite (st_context st).


(** ** Invariants of the sweep state *)

(** Every Edge recorded so far names a finished section below [n]. *)
Definition edges_fresh (n : nat) (vs : list Vertex) : Prop :=
  Forall (fun v => Forall (fun e => edge_section e < n) (enters v)
                   /\ Forall (fun e => edge_section e < n) (exits v)) vs.

(** The Edges of finished section [k]: one outgoing Edge, at the Vertex
    that stands for its leading point, and one incoming Edge, at the
    Vertex that stands for its trailing point, each naming the other. *)
Definition section_edges (vs : list Vertex) (k : nat) (r : section) : Prop :=
  exists a b,
    resolves vs a (fp r) /\ resolves vs b (tp r)
    /\ forall j v, nth_error vs j = Some v ->
         edges_of k (exits v) = (if j =? a then [mkEdge k b] else [])
         /\ edges_of k (enters v) = (if j =? b then [mkEdge k a] else []).

(** The invariant on the output under construction. *)
Definition vertices_inv (vs : list Vertex) (secs : list section) : Prop :=
  edges_fresh (length secs) vs
  /\ total_edges vs = 2 * length secs
  /\ forall k r, nth_error secs k = Some r -> section_edges vs k r.

(** [vix] holds, for each member of the context, the Vertex of its leading
    point. *)
Definition graph_inv (st : sweep_state) : Prop :=
  Forall2 (resolves (st_vertices st)) (st_vix st) (map (@fp) (st_context st))
  /\ vertices_inv (st_vertices st) (st_sections st).

(** The part of the state the invariant reads. *)
Definition same_graph_part (st st' : sweep_state) : Prop :=
  st_vix st' = st_vix st
  /\ st_vertices st' = st_vertices st
  /\ st_sections st' = st_sections st
  /\ map (@fp) (st_context st') = map (@fp) (st_context st).

(** ** [SweepWindow::key_hit] *)

(** What a key does to the X coordinate [p.pos[X]] of the handle;
    ['a'] is 97, ['['] is 91 and [']'] is 93. *)
Definition key_hit (keyval : Z) (x : double) : double :=
  let x := if (keyval =? 97)%Z then Fin 0
           else if (keyval =? 91)%Z then (x - Fin 10)%D
           else if (keyval =? 93)%Z then (x + Fin 10)%D
           else x in
  if (x <? Fin 0)%D then Fin 0 else x.

(** ** Notions of the further properties *)

(** The lexicographic test of [lexo_point], on a key coordinate [k] and a
    second coordinate [s]. *)
Definition lex2 (ak as_ bk bs : double) : bool :=
  (ak <? bk)%D || ((ak ==? bk)%D && (as_ <? bs)%D).

(** [v] lies in the closed interval spanned by [f] and [t]. *)
Definition between (f t v : double) : bool :=
  Interval_contains (Interval_of f t) v.

(** No value of [l] is within tolerance of [x] without being equal to it:
    as a proposition, and as a test. *)
Definition clear_of (x : double) (l : list double) : Prop :=
  forall y, In y l -> are_near y x = true -> (y ==? x)%D = true.

Definition near_only_if_equal (x : double) (l : list double) : bool :=
  forallb (fun y => implb (are_near y x) (y ==? x)%D) l.

(** [l] holds a value equal to [x]. *)
Definition holds (x : double) (l : list double) : Prop :=
  exists e, In e l /\ (e ==? x)%D = true.

(** A piece of section [s]: same curve, parameters between those of [s]
    and more than the tolerance apart. *)
Definition piece_of (s r : section) : Prop :=
  curve r = curve s
  /\ between (f s) (t s) (f r) = true /\ between (f s) (t s) (t r) = true
  /\ are_near (f r) (t r) = false.

(** One more than the highest path index among sections. *)
Definition paths_bound (l : list section) : nat :=
  fold_right (fun s n => Nat.max (S (path (curve s))) n) 0 l.

(** What one section below the finished one adds to the counters,
    whichever counter it is: nothing for a sliver on X, one up when
    [f < t], one down when [f > t]. *)
Definition net (cj : section) : Z :=
  if (coord (fp cj) X ==? coord (tp cj) X)%D then 0%Z
  else ((if (f cj <? t cj)%D then 1 else 0) - (if (f cj >? t cj)%D then 1 else 0))%Z.

(** The sum of the counters. *)
Definition Zsum (w : list Z) : Z := fold_right Z.add 0%Z w.

(** No section that counts runs against its curve's parameter. *)
Definition none_reversed (below : list section) : bool :=
  forallb (fun cj => (coord (fp cj) X ==? coord (tp cj) X)%D || negb (f cj >? t cj)%D)
          below.

(** A section without its winding numbers. *)
Definition without_windings (s : section) : section := with_windings s [].

(** The state a step ends in. *)
Definition state_of (r : step_result) : sweep_state :=
  match r with Break st => st | Continue _ st => st end.

(** No Vertex lies within the tolerance of an earlier one. *)
Definition apart (vs : list Vertex) : Prop :=
  forall i j vi vj, i < j -> nth_error vs i = Some vi -> nth_error vs j = Some vj ->
    are_near_point (avg vi) (avg vj) = false.

(** Every Edge held by the Vertices names a section below [n] and another
    Vertex of the vector. *)
Definition edges_ok (vs : list Vertex) (n : nat) : Prop :=
  forall j v, nth_error vs j = Some v ->
    Forall (fun e => edge_section e < n /\ other e < length vs /\ other e <> j)
           (enters v ++ exits v).

(** The trailing point is not before the leading point on axis [d]. *)
Definition oriented (d : Dim2) (s : section) : Prop :=
  (coord (tp s) d >=? coord (fp s) d)%D = true.

(** A property of sections holds of every section the sweep state holds:
    the pending heap, the context and the output. *)
Definition all_sections (P : section -> Prop) (st : sweep_state) : Prop :=
  st_monos_end st <= length (st_monos st)
  /\ Forall P (pending st) /\ Forall P (st_context st) /\ Forall P (st_sections st).

(** The section names a curve of the input, and its points are that
    curve's points at its parameters. *)
Definition on_curve (ps : list Path) (s : section) : Prop :=
  exists c, get (curve s) ps = Ok c /\ fp s = pointAt c (f s) /\ tp s = pointAt c (t s).

(** The parameters of the section lie in the domain [0,1] of its curve,
    and are not within the tolerance of each other. *)
Definition within_unit (s : section) : Prop :=
  between (Fin 0) (Fin 1) (f s) = true
  /\ between (Fin 0) (Fin 1) (t s) = true
  /\ are_near (f s) (t s) = false.

(** The counters in use and those of the output are one per path. *)
Definition counters_per_path (ps : list Path) (st : sweep_state) : Prop :=
  length (st_windings st) = length ps
  /\ Forall (fun r => length (windings r) = length ps) (st_sections st).

(** ** Further concrete inputs *)

(** A curve whose derivative in x vanishes at t = 1/2, as that of
    x(t) = t (1 - t) does. *)
Definition mid_turn : Curve :=
  mkCurve (fun u => match u with
                    | Fin u => (Fin (u * (1 - u)), Fin u)
                    | _ => (NaN, NaN)
                    end)
          (fun _ => (Fin 0, Fin 1))
          (fun _ _ => [])
          (fun _ d => match d with X => [Fin (1 # 2)] | Y => [] end).

(** [mono_intersect] for straight segments: the parameters at which the
    lines through the two segments meet, when each lies in the interval
    asked for; nothing for parallel segments. *)
Definition cross (u v : Q * Q) : Q := (fst u * snd v - snd u * fst v)%Q.

Definition segment_intersect (a : Curve) (ia : Interval) (b : Curve) (ib : Interval)
  : list Crossing :=
  let a0 := pointAt a (Fin 0) in
  let a1 := pointAt a (Fin 1) in
  let b0 := pointAt b (Fin 0) in
  let b1 := pointAt b (Fin 1) in
  let da := (val (fst a1) - val (fst a0), val (snd a1) - val (snd a0))%Q in
  let db := (val (fst b1) - val (fst b0), val (snd b1) - val (snd b0))%Q in
  let ab := (val (fst b0) - val (fst a0), val (snd b0) - val (snd a0))%Q in
  if Qeq_bool (cross da db) 0 then []
  else
    let u := Qred (cross ab db / cross da db) in
    let v := Qred (cross ab da / cross da db) in
    if Interval_contains ia (Fin u) && Interval_contains ib (Fin v)
    then [mkCrossing (Fin u) (Fin v)]
    else [].

(** Three segments.  The first two cross at (2, 3/2), the midpoint of
    each.  The third one starts at (1, 0), crosses the first one at
    x = 16/11 (parameter 10/11 of its own, 4/11 of the first) and ends at
    (3/2, 6/5), below the second one. *)
Definition three_segments : list Path :=
  [[LineSegment (0, 0)%Q (4, 3)%Q (4 # 5, 3 # 5)%Q];
   [LineSegment (0, 3)%Q (4, 0)%Q (4 # 5, - (3 # 5))%Q];
   [LineSegment (1, 0)%Q (3 # 2, 6 # 5)%Q (5 # 13, 12 # 13)%Q]].

(** The state with [n] more elements in the vector [monos], beyond
    [monos_end]: the vector as it would be, had it room for [n] more
    pieces. *)
Definition with_room (n : nat) (st : sweep_state) : sweep_state :=
  mkState (st_monos st
           ++ repeat (mkSection (mkCurveIx 0 0) (Fin 0) (Fin 0) (pt 0 0) (pt 0 0) []) n)
          (st_monos_end st) (st_context st) (st_vix st) (st_vertices st)
          (st_sections st) (st_windings st).

(** Two sections that lie flat on the line y = 1. *)
Definition flat_a : section :=
  mkSection (mkCurveIx 0 0) (Fin 0) (Fin 1) (pt 0 1) (pt 2 1) [].
Definition flat_b : section :=
  mkSection (mkCurveIx 1 0) (Fin 0) (Fin 1) (pt 1 1) (pt 3 1) [].


(** * Properties *)


(** ** The winding loop *)

(** C1: the winding loop debits the entry indexed by the lower section's
    position in the context, not the entry of its path.  Below the third
    section of [three_in_context] lie two sections of path 0, one with
    f<t and one with f>t: the code yields [1; -1], where the rule by path
    index yields [0; 0] and leaves the entry of path 1 alone.  With a
    winding vector of one entry the debit is written out of range.  The
    sweep of [opposite_edges] meets this context when it finishes the
    section of path 1, and returns it with the winding vector
    [1; -1; 0; 0]. *)
Theorem C1_winding_decrement_index :
  winding_loop [lower0; lower1] 0 [0%Z; 0%Z] = Ok [1%Z; (-1)%Z]
  /\ winding_by_path [lower0; lower1] [0%Z; 0%Z] = [0%Z; 0%Z]
  /\ (exists st, finish_loop 3 (Fin 2) three_in_context = Ok st
                 /\ map (@windings) (st_sections st) = [[1%Z; (-1)%Z]])
  /\ winding_loop [lower0; lower1] 0 [0%Z] = Err OutOfRange
  /\ exists g,
       fst (sweep_graph sorted_heap no_crossings opposite_edges X 10 no_globals (Fin 1))
       = Returned g
       /\ option_map (fun s => (curve s, windings s)) (nth_error (g_sections g) 0)
          = Some (mkCurveIx 1 0, [1%Z; (-1)%Z; 0%Z; 0%Z]).
Proof.
  repeat split; try reflexivity.
  - eexists; split; [vm_compute; reflexivity | reflexivity].
  - eexists; split; [vm_compute; reflexivity | reflexivity].
Qed.

(** ** The finishing test *)

(** C2: swept along Y, the finishing test still reads the X coordinate.
    In the second iteration on [swept_along_Y] the sweep position is 1;
    the first segment's trailing point (5, 1/2) is at or before it on Y,
    yet the section is not finished: it never reaches the output. *)
Theorem C2_finish_test_ignores_axis :
  let s := Section_new flat_segment X (mkCurveIx 0 0) (Fin 0) (Fin 1) in
  finished_on Y (Fin 1) s = true
  /\ finished (Fin 1) s = false
  /\ (forall lim c, finished lim c = finished_on X lim c)
  /\ exists g G,
       sweep_graph sorted_heap no_crossings swept_along_Y Y 5 no_globals (Fin 1)
       = (Returned g, G)
       /\ map (@curve) (g_sections g) = [mkCurveIx 1 0]
       /\ map (map (@curve)) (contexts G)
          = [[mkCurveIx 0 0]; [mkCurveIx 0 0; mkCurveIx 1 0]].
Proof.
  repeat split; try reflexivity.
  eexists; eexists; split; [vm_compute; reflexivity | split; reflexivity].
Qed.

(** ** Degenerate sections *)

(** C4: a finished section whose trailing point resolves to its leading
    Vertex is skipped by [continue] before the erase: it is kept out of
    the output, and it stays in the active context.  On
    [with_tiny_segment] the tiny section is finished in the second
    iteration (sweep position 2) and is still in the context after it. *)
Theorem C4_degenerate_section_stays_in_context :
  let tiny := Section_new tiny_segment X (mkCurveIx 0 0) (Fin 0) (Fin 1) in
  let st := mkState [] 0 [tiny] [0] [Vertex_new (fp tiny)] [] [0%Z] in
  finished (Fin 2) tiny = true
  /\ fst (find_vertex (st_vertices st) (tp tiny)) = 0
  /\ finish_loop 1 (Fin 2) st = Ok st
  /\ exists g G,
       sweep_graph sorted_heap no_crossings with_tiny_segment X 5 no_globals (Fin 1)
       = (Returned g, G)
       /\ map (@curve) (g_sections g) = [mkCurveIx 1 0]
       /\ map (map (@curve)) (contexts G)
          = [[mkCurveIx 0 0]; [mkCurveIx 0 0; mkCurveIx 1 0]].
Proof.
  repeat split; try reflexivity.
  eexists; eexists; split; [vm_compute; reflexivity | split; reflexivity].
Qed.

(** ** [process_splits] *)

(** C5: a root of the derivative within tolerance of 1 makes
    [std::unique] keep the root and drop 1; the trimming loop then finds
    no value equal to 1 and erases everything.  [mono_splits] returns the
    empty sequence, which contains neither 0 nor 1, and the curve yields
    no section at all. *)
Theorem C5_mono_splits_loses_endpoints :
  mono_splits late_turn = []
  /\ std_unique are_near (std_sort [Fin (999999 # 1000000); Fin 0; Fin 1])
     = [Fin 0; Fin (999999 # 1000000)]
  /\ mono_sections [[late_turn]] = [].
Proof. repeat split; reflexivity. Qed.

(** C6: for the section of [diagonal], with f = 0 and t = 1, and the
    single raw split value 0.999999, the cleaned sequence is empty and the
    access to its second element is out of range. *)
Theorem C6_split_section_out_of_range :
  f diagonal_section = Fin 0 /\ t diagonal_section = Fin 1
  /\ are_near (f diagonal_section) (t diagonal_section) = false
  /\ process_splits [Fin (999999 # 1000000)] (Fin 0) (Fin 1) = []
  /\ split_section diagonal_section [[diagonal]] [Fin (999999 # 1000000)] X
     = Err OutOfRange.
Proof. repeat split; reflexivity. Qed.

(** ** The context order *)

Lemma boxes_overlap_tests dim a b :
  boxes_overlap dim a b = true ->
  (imax (rect_dim (bbox a) dim) <=? imin (rect_dim (bbox b) dim))%D = false
  /\ (imax (rect_dim (bbox b) dim) <=? imin (rect_dim (bbox a) dim))%D = false.
Proof.
  unfold boxes_overlap. intros E.
  apply andb_true_iff in E. destruct E as [E1 E2].
  apply negb_true_iff in E1. apply negb_true_iff in E2. now split.
Qed.

(** C3 (as stated, refuted): [section_a] and [section_b] have boxes that
    overlap on the perpendicular axis Y, and their leading points (0,0)
    and (1,0) coincide on Y; the comparator nevertheless does not compare
    the probe points: it answers [false], the probe comparison [true]. *)
Lemma C3_probe_counterexample :
  mono_sections two_steep = [section_a; section_b]
  /\ boxes_overlap Y section_a section_b = true
  /\ are_near (coord (fp section_a) Y) (coord (fp section_b) Y) = true
  /\ SectionSorter two_steep Y false section_a section_b = Ok false
  /\ section_order two_steep Y section_a (probe section_a) section_b (probe section_b)
     = Ok true
  /\ SectionSorter two_steep Y false section_a section_b
     <> section_order two_steep Y section_a (probe section_a) section_b (probe section_b).
Proof. repeat split; try reflexivity. vm_compute. discriminate. Qed.

(** C3 (amended): for two distinct sections whose boxes overlap on the
    perpendicular axis [dim], the comparator looks at the sweep axis
    [other_dim dim].  If the boxes do not intersect on the sweep axis it
    orders the leading points lexicographically.  If they do, and the
    leading points coincide within tolerance on the sweep axis, it
    compares the probe points; otherwise it evaluates the section with
    the smaller leading sweep coordinate where [section_root] finds the
    other's leading sweep coordinate in that section's own interval (at
    its midpoint if no root is found), against the other's leading
    parameter. *)
Theorem C3_comparator_cases ps dim a b :
  boxes_overlap dim a b = true ->
  let sw := other_dim dim in
  (Interval_intersects (rect_dim (bbox a) sw) (rect_dim (bbox b) sw) = false ->
     SectionSorter ps dim false a b = Ok (lexo_point (fp a) (fp b) dim))
  /\ (Interval_intersects (rect_dim (bbox a) sw) (rect_dim (bbox b) sw) = true ->
      (are_near (coord (fp a) sw) (coord (fp b) sw) = true ->
         SectionSorter ps dim false a b
         = section_order ps dim a (probe a) b (probe b))
      /\ (are_near (coord (fp a) sw) (coord (fp b) sw) = false ->
          (coord (fp a) sw <? coord (fp b) sw)%D = true ->
          SectionSorter ps dim false a b
          = (ta <- root_or_midpoint a ps (coord (fp b) sw) sw ;;
             section_order ps dim a ta b (f b)))
      /\ (are_near (coord (fp a) sw) (coord (fp b) sw) = false ->
          (coord (fp a) sw <? coord (fp b) sw)%D = false ->
          SectionSorter ps dim false a b
          = (tb <- root_or_midpoint b ps (coord (fp a) sw) sw ;;
             section_order ps dim a (f a) b tb))).
Proof.
  intros E sw. destruct (boxes_overlap_tests _ _ _ E) as [E1 E2].
  unfold SectionSorter. rewrite E1, E2. fold sw.
  split; [intros -> ; reflexivity |].
  intros ->. repeat split.
  - intros ->. reflexivity.
  - intros -> ->. unfold root_or_midpoint.
    destruct (section_root a ps (coord (fp b) sw) sw); reflexivity.
  - intros -> ->. unfold root_or_midpoint.
    destruct (section_root b ps (coord (fp a) sw) sw); reflexivity.
Qed.

(** On [section_a] and [section_b] the leading points differ on the sweep
    axis, and the comparator evaluates [section_a] at the root 1/3. *)
Lemma C3_comparator_cases_witness :
  boxes_overlap Y section_a section_b = true
  /\ SectionSorter two_steep Y false section_a section_b
     = (ta <- root_or_midpoint section_a two_steep (coord (fp section_b) X) X ;;
        section_order two_steep Y section_a ta section_b (f section_b)).
Proof.
  split; [reflexivity |].
  apply (C3_comparator_cases two_steep Y section_a section_b);
    reflexivity.
Defined.

(** ** The sweep as a function of its input *)

Section SweepFacts.

Variable H : heap_algorithms.
Variable mono_intersect : Curve -> Interval -> Curve -> Interval -> list Crossing.
Variable ps : list Path.
Variable d : Dim2.

Local Abbreviation step := (sweep_step H mono_intersect ps d).
Local Abbreviation loop := (sweep_loop H mono_intersect ps d).




Lemma sweep_loop_aborted fuel : forall G st e,
  fst (loop fuel G st) = Aborted e ->
  exists n G' st',
    n < fuel
    /\ steps H mono_intersect ps d n G st = Some (G', st')
    /\ step G' st' = Err e.
Proof.
  induction fuel as [|fuel IH]; intros G st e; simpl; [discriminate|].
  destruct (step G st) as [[s1|G1 s1]|e1] eqn:E; simpl.
  - discriminate.
  - intros A. destruct (IH _ _ _ A) as (n & G' & st' & L & R & F).
    exists (S n), G', st'. simpl. rewrite E. repeat split; auto. lia.
  - intros A. injection A as ->. exists 0, G, st. repeat split; auto. lia.
Qed.

(** C9 (amended): the sweep has no check of its input and no error for
    invalid geometry.  It enters the loop on every input, and when it
    fails, with an out-of-range access or a failed assertion, the error
    is raised by a sweep step, reached after some number of completed
    steps. *)
Theorem C9_errors_come_from_steps fuel G tol e :
  fst (sweep_graph H mono_intersect ps d fuel G tol) = Aborted e ->
  exists n G' st,
    n < fuel
    /\ steps H mono_intersect ps d n G (initial_state H ps d) = Some (G', st)
    /\ step G' st = Err e.
Proof. unfold sweep_graph. apply sweep_loop_aborted. Qed.

End SweepFacts.

(** C9 (as stated, refuted): the first curve of [with_infinite_end] ends
    at (1, +inf).  The sweep reports nothing: it runs a full iteration,
    finishes the section in the next one and returns a Graph that holds
    the infinite point. *)
Lemma C9_nonfinite_input_is_swept :
  input_is_finite with_infinite_end = false
  /\ exists g G,
       sweep_graph sorted_heap no_crossings with_infinite_end X 5 no_globals (Fin 1)
       = (Returned g, G)
       /\ length (contexts G) = 1
       /\ map (@tp) (g_sections g) = [(Fin 1, PInf)]
       /\ map (@avg) (g_vertices g) = [(Fin 0, Fin 0); (Fin 1, PInf)].
Proof.
  split; [reflexivity|].
  eexists; eexists; split; [vm_compute; reflexivity | repeat split].
Qed.

(** On an input with a NaN coordinate the assertion of [set_to] fails in
    the first step. *)
Lemma C9_errors_come_from_steps_witness :
  fst (sweep_graph sorted_heap no_crossings with_nan_end X 5 no_globals (Fin 1))
  = Aborted AssertionFailed
  /\ exists n G' st,
       n < 5
       /\ steps sorted_heap no_crossings with_nan_end X n no_globals
                (initial_state sorted_heap with_nan_end X) = Some (G', st)
       /\ sweep_step sorted_heap no_crossings with_nan_end X G' st
          = Err AssertionFailed.
Proof.
  split; [reflexivity|].
  apply (C9_errors_come_from_steps sorted_heap no_crossings with_nan_end X 5
           no_globals (Fin 1)).
  reflexivity.
Defined.

(** ** Vectors *)

Lemma at_Ok {A} (v : list A) i a : at_ v i = Ok a <-> nth_error v i = Some a.
Proof.
  unfold at_. destruct (nth_error v i); split; intros E; inversion E; auto.
Qed.

Lemma update_Ok {A} (g : A -> A) : forall (v : list A) i v',
  update v i g = Ok v' ->
  exists a, nth_error v i = Some a
            /\ length v' = length v
            /\ forall j, nth_error v' j = if j =? i then Some (g a) else nth_error v j.
Proof.
  induction v as [|x v IH]; intros i v'; simpl; [discriminate|].
  destruct i as [|i].
  - intros E. injection E as <-. exists x. repeat split; auto.
    intros [|j]; reflexivity.
  - destruct (update v i g) as [r|] eqn:E; simpl; [|discriminate].
    intros E'. injection E' as <-.
    destruct (IH _ _ E) as (a & N & L & K).
    exists a. repeat split; simpl; auto.
    intros [|j]; simpl; auto.
Qed.

(** ** The Edges of the returned Graph *)

(** [find_vertex] *)

Lemma find_vertex_from_spec p : forall vs i0,
  exists n, find_vertex_from vs p i0 = i0 + n
    /\ ((exists v, nth_error vs n = Some v /\ are_near_point (avg v) p = true)
        \/ n = length vs).
Proof.
  induction vs as [|v vs IH]; intros i0; simpl.
  - exists 0. split; [lia | now right].
  - destruct (are_near_point (avg v) p) eqn:E.
    + exists 0. split; [lia|]. left. exists v. now split.
    + destruct (IH (S i0)) as (n & -> & K). exists (S n). split; [lia|].
      destruct K as [K| ->]; [now left | now right].
Qed.

Lemma resolves_app vs extra i p : resolves vs i p -> resolves (vs ++ extra) i p.
Proof.
  intros (v & N & K). exists v. split; auto.
  rewrite nth_error_app1; auto. apply nth_error_Some. congruence.
Qed.

Lemma resolves_lt vs i p : resolves vs i p -> i < length vs.
Proof. intros (v & N & _). apply nth_error_Some. congruence. Qed.

Lemma find_vertex_spec vs p i vs' :
  find_vertex vs p = (i, vs') ->
  (vs' = vs \/ vs' = vs ++ [Vertex_new p]) /\ resolves vs' i p.
Proof.
  unfold find_vertex. intros E. injection E as <- <-.
  destruct (find_vertex_from_spec p vs 0) as (n & -> & K). simpl.
  destruct K as [(v & N & K)| ->].
  - assert (n < length vs) by (apply nth_error_Some; congruence).
    destruct (Nat.eqb_spec n (length vs)); [lia|].
    split; [now left|]. exists v. auto.
  - rewrite Nat.eqb_refl. split; [now right|].
    exists (Vertex_new p). split; [|now right].
    rewrite nth_error_app2, Nat.sub_diag; auto.
Qed.

Lemma total_edges_app vs ws : total_edges (vs ++ ws) = total_edges vs + total_edges ws.
Proof. unfold total_edges. now rewrite map_app, list_sum_app. Qed.

Lemma section_edges_grow vs p k r :
  section_edges vs k r -> section_edges (vs ++ [Vertex_new p]) k r.
Proof.
  intros (a & b & Ra & Rb & K). exists a, b.
  split; [now apply resolves_app|]. split; [now apply resolves_app|].
  intros j v N.
  destruct (Nat.lt_ge_cases j (length vs)) as [L|L].
  - rewrite nth_error_app1 in N by auto. now apply K.
  - rewrite nth_error_app2 in N by auto.
    destruct (j - length vs) as [|[|m]]; simpl in N; try discriminate.
    injection N as <-. simpl.
    apply resolves_lt in Ra. apply resolves_lt in Rb.
    destruct (Nat.eqb_spec j a); [lia|]. destruct (Nat.eqb_spec j b); [lia|].
    now split.
Qed.

Lemma vertices_inv_find vs secs p i vs' :
  find_vertex vs p = (i, vs') -> vertices_inv vs secs -> vertices_inv vs' secs.
Proof.
  intros E (F & T & K). destruct (find_vertex_spec _ _ _ _ E) as [[-> | ->] _].
  - now repeat split.
  - repeat split.
    + apply Forall_app. split; auto.
    + rewrite total_edges_app. simpl. unfold total_edges at 2. simpl. lia.
    + intros k r N. apply section_edges_grow. now apply K.
Qed.

Lemma resolves_find vs p i vs' q j :
  find_vertex vs p = (i, vs') -> resolves vs j q -> resolves vs' j q.
Proof.
  intros E R. destruct (find_vertex_spec _ _ _ _ E) as [[-> | ->] _]; auto.
  now apply resolves_app.
Qed.

Lemma Forall2_resolves_find vs p i vs' vix pts :
  find_vertex vs p = (i, vs') ->
  Forall2 (resolves vs) vix pts -> Forall2 (resolves vs') vix pts.
Proof.
  intros E F. induction F; constructor; auto. eapply resolves_find; eauto.
Qed.

(** Updates of a Vertex that keep its point *)

Lemma resolves_update vs i g vs' j q :
  (forall v, avg (g v) = avg v) ->
  update vs i g = Ok vs' -> resolves vs j q -> resolves vs' j q.
Proof.
  intros A E (v & N & K). destruct (update_Ok _ _ _ _ E) as (a & Na & L & U).
  rewrite <- (A v) in K.
  destruct (Nat.eqb_spec j i) as [->|D].
  - exists (g a). split; [rewrite U, Nat.eqb_refl; auto|]. congruence.
  - exists v. split.
    + rewrite U. destruct (Nat.eqb_spec j i); [contradiction|auto].
    + now rewrite A in K.
Qed.

Lemma total_edges_update g n : forall vs i vs',
  (forall v, length (enters (g v)) + length (exits (g v))
             = length (enters v) + length (exits v) + n) ->
  update vs i g = Ok vs' -> total_edges vs' = total_edges vs + n.
Proof.
  induction vs as [|x vs IH]; intros i vs' A; simpl; [discriminate|].
  destruct i as [|i].
  - intros E. injection E as <-. unfold total_edges. simpl. rewrite A. lia.
  - destruct (update vs i g) as [r|] eqn:E; simpl; [|discriminate].
    intros E'. injection E' as <-. unfold total_edges in *. simpl.
    rewrite (IH _ _ A E). lia.
Qed.

Lemma Forall_update {A} (P : A -> Prop) g : forall (vs : list A) i vs',
  (forall v, P v -> P (g v)) ->
  update vs i g = Ok vs' -> Forall P vs -> Forall P vs'.
Proof.
  induction vs as [|x vs IH]; intros i vs' A0; simpl; [discriminate|].
  destruct i as [|i].
  - intros E F. injection E as <-. inversion F; subst. constructor; auto.
  - destruct (update vs i g) as [r|] eqn:E; simpl; [|discriminate].
    intros E' F. injection E' as <-. inversion F; subst. constructor; eauto.
Qed.

Lemma edges_of_app k es fs : edges_of k (es ++ fs) = edges_of k es ++ edges_of k fs.
Proof. apply filter_app. Qed.

Lemma edges_of_fresh k es : Forall (fun e => edge_section e < k) es -> edges_of k es = [].
Proof.
  induction 1 as [|e es L _ IH]; simpl; auto.
  destruct (Nat.eqb_spec (edge_section e) k); [lia|auto].
Qed.

Lemma two_updates vs a b e1 e2 vs1 vs2 :
  update vs a (push_exit e1) = Ok vs1 ->
  update vs1 b (push_enter e2) = Ok vs2 ->
  forall j v2, nth_error vs2 j = Some v2 ->
    exists v, nth_error vs j = Some v
      /\ exits v2 = exits v ++ (if j =? a then [e1] else [])
      /\ enters v2 = enters v ++ (if j =? b then [e2] else []).
Proof.
  intros E1 E2 j v2 N.
  destruct (update_Ok _ _ _ _ E1) as (va & Na & _ & U1).
  destruct (update_Ok _ _ _ _ E2) as (vb & Nb & _ & U2).
  rewrite U2 in N. rewrite U1 in Nb.
  destruct (Nat.eqb_spec j b) as [->|Db].
  - injection N as <-. simpl.
    destruct (Nat.eqb_spec b a) as [->|Da].
    + injection Nb as <-. exists va. simpl. auto.
    + exists vb. rewrite app_nil_r. auto.
  - rewrite U1 in N. destruct (Nat.eqb_spec j a) as [->|Da].
    + injection N as <-. exists va. simpl. rewrite app_nil_r. auto.
    + exists v2. rewrite !app_nil_r. auto.
Qed.

Lemma push_exit_count e v :
  length (enters (push_exit e v)) + length (exits (push_exit e v))
  = length (enters v) + length (exits v) + 1.
Proof. simpl. rewrite length_app. simpl. lia. Qed.

Lemma push_enter_count e v :
  length (enters (push_enter e v)) + length (exits (push_enter e v))
  = length (enters v) + length (exits v) + 1.
Proof. simpl. rewrite length_app. simpl. lia. Qed.

Lemma edges_fresh_weaken n vs : edges_fresh n vs -> edges_fresh (S n) vs.
Proof.
  unfold edges_fresh. apply Forall_impl. intros v [A B].
  split; eapply Forall_impl; try eassumption; simpl; intros; lia.
Qed.

Lemma vertices_inv_output vs secs r a b vs1 vs2 :
  vertices_inv vs secs ->
  resolves vs a (fp r) -> resolves vs b (tp r) ->
  update vs a (push_exit (mkEdge (length (secs ++ [r]) - 1) b)) = Ok vs1 ->
  update vs1 b (push_enter (mkEdge (length (secs ++ [r]) - 1) a)) = Ok vs2 ->
  vertices_inv vs2 (secs ++ [r]).
Proof.
  intros (F & T & K) Ra Rb.
  unfold vertices_inv.
  assert (Hn : length (secs ++ [r]) = S (length secs))
    by (rewrite length_app; simpl; lia).
  rewrite !Hn. replace (S (length secs) - 1) with (length secs) by lia.
  set (n := length secs) in *. intros E1 E2.
  assert (R : forall j q, resolves vs j q -> resolves vs2 j q).
  { intros j q R.
    refine (resolves_update vs1 b (push_enter _) vs2 j q (fun _ => eq_refl) E2 _).
    exact (resolves_update vs a (push_exit _) vs1 j q (fun _ => eq_refl) E1 R). }
  repeat split.
  - eapply Forall_update; [| exact E2 |].
    { intros v [A B]. split; simpl; auto; apply Forall_app; split; auto. }
    eapply Forall_update; [| exact E1 |].
    { intros v [A B]. split; simpl; auto; apply Forall_app; split; auto. }
    now apply edges_fresh_weaken.
  - rewrite (total_edges_update _ 1 _ _ _ (push_enter_count _) E2).
    rewrite (total_edges_update _ 1 _ _ _ (push_exit_count _) E1).
    lia.
  - intros k r' N.
    destruct (Nat.lt_ge_cases k n) as [L|L].
    + rewrite nth_error_app1 in N by auto.
      destruct (K _ _ N) as (a' & b' & Ra' & Rb' & K').
      exists a', b'. repeat split; auto;
        destruct (two_updates _ _ _ _ _ _ _ E1 E2 _ _ H) as (v0 & N0 & X & Y);
        destruct (K' _ _ N0) as [K1 K2].
      * rewrite X, edges_of_app, K1.
        destruct (j =? a); simpl; [|now rewrite app_nil_r].
        destruct (Nat.eqb_spec n k); [lia|]. now rewrite app_nil_r.
      * rewrite Y, edges_of_app, K2.
        destruct (j =? b); simpl; [|now rewrite app_nil_r].
        destruct (Nat.eqb_spec n k); [lia|]. now rewrite app_nil_r.
    + rewrite nth_error_app2 in N by auto. fold n in N.
      destruct (k - n) as [|[|m]] eqn:Ek; simpl in N; try discriminate.
      injection N as <-. assert (k = n) by lia. subst k.
      exists a, b. repeat split; auto;
        destruct (two_updates _ _ _ _ _ _ _ E1 E2 _ _ H) as (v0 & N0 & X & Y);
        pose proof (proj1 (Forall_forall _ _) F v0 (nth_error_In _ _ N0)) as [Fa Fb].
      * rewrite X, edges_of_app, (edges_of_fresh _ _ Fb).
        destruct (j =? a); simpl; auto. now rewrite Nat.eqb_refl.
      * rewrite Y, edges_of_app, (edges_of_fresh _ _ Fa).
        destruct (j =? b); simpl; auto. now rewrite Nat.eqb_refl.
Qed.

(** Vectors kept in step: [context] and [vix] *)

Lemma Forall2_firstn {A B} (R : A -> B -> Prop) n : forall l m,
  Forall2 R l m -> Forall2 R (firstn n l) (firstn n m).
Proof.
  induction n as [|n IH]; intros l m F; simpl; [constructor|].
  destruct F; constructor; auto.
Qed.

Lemma Forall2_skipn {A B} (R : A -> B -> Prop) n : forall l m,
  Forall2 R l m -> Forall2 R (skipn n l) (skipn n m).
Proof.
  induction n as [|n IH]; intros l m F; simpl; auto.
  destruct F; auto.
Qed.

Lemma Forall2_nth {A B} (R : A -> B -> Prop) l m :
  Forall2 R l m -> forall i a b,
  nth_error l i = Some a -> nth_error m i = Some b -> R a b.
Proof.
  induction 1 as [|x y l m Rxy F IH]; intros [|i] a b; simpl; try discriminate.
  - intros [= <-] [= <-]. exact Rxy.
  - apply IH.
Qed.

Lemma map_erase_at {A B} (g : A -> B) v i :
  map g (erase_at v i) = erase_at (map g v) i.
Proof. unfold erase_at. now rewrite map_app, firstn_map, skipn_map. Qed.

Lemma map_insert_at {A B} (g : A -> B) v i x :
  map g (insert_at v i x) = insert_at (map g v) i (g x).
Proof. unfold insert_at. now rewrite map_app, firstn_map; simpl; rewrite skipn_map. Qed.

Lemma Forall2_erase_at {A B} (R : A -> B -> Prop) l m i :
  Forall2 R l m -> Forall2 R (erase_at l i) (erase_at m i).
Proof.
  intros F. unfold erase_at. apply Forall2_app.
  - now apply Forall2_firstn.
  - now apply Forall2_skipn.
Qed.

Lemma Forall2_insert_at {A B} (R : A -> B -> Prop) l m i a b :
  Forall2 R l m -> R a b -> Forall2 R (insert_at l i a) (insert_at m i b).
Proof.
  intros F Rab. unfold insert_at. apply Forall2_app.
  - now apply Forall2_firstn.
  - constructor; auto. now apply Forall2_skipn.
Qed.

(** The finishing loop keeps the invariant *)


Lemma finish_loop_S i lim st :
  finish_loop (S i) lim st =
  (ci <- at_ (st_context st) i ;;
   if finished lim ci then
     w <- winding_loop (firstn i (st_context st)) 0 (fill_zero (st_windings st)) ;;
     match find_vertex (st_vertices st) (tp ci) with
     | (vert, vs) =>
       vi <- at_ (st_vix st) i ;;
       if vert =? vi
       then finish_loop i lim
              (mkState (st_monos st) (st_monos_end st) (st_context st) (st_vix st)
                       vs (st_sections st) w)
       else
         let secs := st_sections st ++ [with_windings ci w] in
         vs <- update vs vi (push_exit (mkEdge (length secs - 1) vert)) ;;
         vs <- update vs vert (push_enter (mkEdge (length secs - 1) vi)) ;;
         finish_loop i lim
           (mkState (st_monos st) (st_monos_end st)
                    (erase_at (st_context st) i) (erase_at (st_vix st) i)
                    vs secs w)
     end
   else finish_loop i lim st).
Proof. reflexivity. Qed.

Lemma finish_loop_inv lim : forall n st st',
  finish_loop n lim st = Ok st' -> graph_inv st -> graph_inv st'.
Proof.
  induction n as [|i IH]; intros st st'.
  - intros [= <-]. auto.
  - rewrite finish_loop_S. unfold bind.
    destruct (at_ (st_context st) i) as [ci|] eqn:Eci; [|discriminate].
    destruct (finished lim ci); [|apply IH].
    destruct (winding_loop _ _ _) as [w|]; [|discriminate].
    destruct (find_vertex (st_vertices st) (tp ci)) as [vert vs] eqn:Ev.
    destruct (at_ (st_vix st) i) as [vi|] eqn:Evi; [|discriminate].
    destruct (vert =? vi).
    + intros E [F V]. apply (IH _ _ E). split; simpl.
      * eapply Forall2_resolves_find; eauto.
      * eapply vertices_inv_find; eauto.
    + cbv zeta.
      destruct (update vs vi _) as [vs1|] eqn:E1; [|discriminate].
      destruct (update vs1 vert _) as [vs2|] eqn:E2; [|discriminate].
      intros E [F V]. apply (IH _ _ E). clear IH E.
      apply at_Ok in Eci. apply at_Ok in Evi.
      destruct (find_vertex_spec _ _ _ _ Ev) as [_ Rt].
      assert (Rf : resolves vs vi (fp ci)).
      { eapply resolves_find; eauto.
        eapply Forall2_nth; eauto. now apply map_nth_error. }
      split; simpl.
      * rewrite map_erase_at. apply Forall2_erase_at.
        eapply Forall2_impl; [| eapply Forall2_resolves_find; eauto].
        intros a b R.
        refine (resolves_update vs1 vert (push_enter _) vs2 a b (fun _ => eq_refl) E2 _).
        exact (resolves_update vs vi (push_exit _) vs1 a b (fun _ => eq_refl) E1 R).
      * eapply (vertices_inv_output vs (st_sections st) (with_windings ci w));
          eauto.
        eapply vertices_inv_find; eauto.
Qed.

(** What the rest of a step leaves alone *)

Lemma graph_inv_ext st st' : same_graph_part st st' -> graph_inv st -> graph_inv st'.
Proof. intros (A & B & C & D). unfold graph_inv. now rewrite A, B, C, D. Qed.

Lemma set_to_fp s c d ti s' : set_to s c d ti = Ok s' -> fp s' = fp s.
Proof.
  unfold set_to. destruct (_ >=? _)%D; [|discriminate]. now intros [= <-].
Qed.

Lemma split_section_fp s ps cuts d s' rest :
  split_section s ps cuts d = Ok (s', rest) -> fp s' = fp s.
Proof.
  unfold split_section, bind.
  destruct (get (curve s) ps); [|discriminate].
  destruct (at_ _ 1); [|discriminate].
  destruct (set_to s _ d _) eqn:E; [|discriminate].
  intros [= <- _]. eapply set_to_fp; eauto.
Qed.

Lemma update_map_same {A B} (g : A -> B) x : forall (v : list A) i v',
  update v i (fun _ => x) = Ok v' ->
  (forall a, nth_error v i = Some a -> g x = g a) ->
  map g v' = map g v.
Proof.
  induction v as [|y v IH]; intros i v'; simpl; [discriminate|].
  destruct i as [|i].
  - intros [= <-] K. simpl. now rewrite (K y).
  - destruct (update v i _) as [r|] eqn:E; simpl; [|discriminate].
    intros [= <-] K. simpl. f_equal. eapply IH; eauto.
Qed.

Section StepFacts.

Variable H : heap_algorithms.
Variable mono_intersect : Curve -> Interval -> Curve -> Interval -> list Crossing.
Variable ps : list Path.
Variable d : Dim2.

Lemma neighbour_loop_frame s cx si : forall k i st ts st' ts',
  neighbour_loop H mono_intersect ps d s cx si k i st ts = Ok (st', ts') ->
  same_graph_part st st'.
Proof.
  induction k as [|k IH]; intros i st ts st' ts'; simpl.
  - intros [= <- _]. now repeat split.
  - destruct (i =? cx); [apply IH|]. unfold bind.
    destruct (at_ (st_context st) i) as [ci|] eqn:Eci; [|discriminate].
    destruct (Interval_intersects _ _); [|apply IH].
    destruct (at_ (st_monos st) s) as [sv|]; [|discriminate].
    destruct (get (curve sv) ps) as [cs|]; [|discriminate].
    destruct (get (curve ci) ps) as [cc|]; [|discriminate].
    destruct (split_section ci ps _ d) as [[ci' rest]|] eqn:Es; [|discriminate].
    destruct (update (st_context st) i _) as [ctx|] eqn:Eu; [|discriminate].
    destruct (push_them H _ _ rest _) as [[m e]|]; [|discriminate].
    intros E. destruct (IH _ _ _ _ _ E) as (A & B & C & D). simpl in *.
    repeat split; auto. rewrite D.
    eapply update_map_same; eauto.
    apply at_Ok in Eci. intros a N. rewrite Eci in N. injection N as <-.
    eapply split_section_fp; eauto.
Qed.

Lemma sweep_step_inv G st r :
  sweep_step H mono_intersect ps d G st = Ok r ->
  graph_inv st ->
  graph_inv (match r with Break st' => st' | Continue _ st' => st' end).
Proof.
  unfold sweep_step, bind. intros E I.
  destruct (if st_monos_end st =? 0 then _ else _) as [[[st0 s] lim]|] eqn:Ep;
    [|discriminate].
  assert (I0 : graph_inv st0).
  { apply (graph_inv_ext st); auto.
    destruct (st_monos_end st =? 0).
    - injection Ep as <- _ _. now repeat split.
    - destruct (at_ _ _); [|discriminate]. injection Ep as <- _ _.
      now repeat split. }
  clear Ep I.
  destruct (finish_loop _ lim st0) as [st1|] eqn:E1; [|discriminate].
  pose proof (finish_loop_inv _ _ _ _ E1 I0) as I1. clear E1 I0.
  destruct (st_monos_end st1 =? 0); [now injection E as <-|].
  destruct (at_ (st_monos st1) s) as [sv|]; [|discriminate].
  destruct (lower_bound _ _ _) as [cx|]; [|discriminate].
  destruct (find_vertex (st_vertices st1) (fp sv)) as [v vs] eqn:Ev.
  destruct (neighbour_loop _ _ _ _ _ _ _ _ _ _ _) as [[st2 ts]|] eqn:En;
    [|discriminate].
  apply neighbour_loop_frame in En. destruct En as (A & B & C & D).
  simpl in A, B, C, D.
  destruct (at_ (st_context st2) cx) as [c|] eqn:Ec; [|discriminate].
  destruct (split_section c ps ts d) as [[c' rest]|] eqn:Es; [|discriminate].
  destruct (update (st_context st2) cx _) as [ctx|] eqn:Eu; [|discriminate].
  destruct (push_them _ _ _ _ _) as [[m e]|]; [|discriminate].
  injection E as <-.
  destruct I1 as [F V]. destruct (find_vertex_spec _ _ _ _ Ev) as [_ R].
  split; simpl; rewrite ?A, ?B, ?C.
  - replace (map (@fp) ctx) with (map (@fp) (st_context st2)).
    + rewrite D, map_insert_at. apply Forall2_insert_at; auto.
      eapply Forall2_resolves_find; eauto.
    + symmetry. eapply update_map_same; eauto.
      apply at_Ok in Ec. intros a N. rewrite Ec in N. injection N as <-.
      eapply split_section_fp; eauto.
  - eapply vertices_inv_find; eauto.
Qed.

End StepFacts.

Section GraphFacts.

Variable H : heap_algorithms.
Variable mono_intersect : Curve -> Interval -> Curve -> Interval -> list Crossing.
Variable ps : list Path.
Variable d : Dim2.

Lemma initial_state_inv : graph_inv (initial_state H ps d).
Proof.
  unfold graph_inv, vertices_inv, edges_fresh. simpl. repeat split; auto.
  intros [|k] r; discriminate.
Qed.

Lemma sweep_loop_inv fuel : forall G st g,
  fst (sweep_loop H mono_intersect ps d fuel G st) = Returned g ->
  graph_inv st -> vertices_inv (g_vertices g) (g_sections g).
Proof.
  induction fuel as [|fuel IH]; intros G st g; simpl; [discriminate|].
  destruct (sweep_step H mono_intersect ps d G st) as [[st'|G' st']|e] eqn:E;
    simpl; try discriminate.
  - intros [= <-] I. simpl. exact (proj2 (sweep_step_inv _ _ _ _ _ _ _ E I)).
  - intros R I. apply (IH _ _ _ R). exact (sweep_step_inv _ _ _ _ _ _ _ E I).
Qed.

(** C7: in the Graph returned by the sweep, every finished Section [k]
    has exactly one outgoing Edge, recorded at the Vertex that stands for
    its leading point, and exactly one incoming Edge, recorded at the
    Vertex that stands for its trailing point, each Edge naming the other
    Vertex; no other Vertex holds an Edge of that Section.  The Edges of
    all incoming and outgoing lists number twice the finished Sections. *)
Theorem C7_edges_of_finished_sections fuel G tol g :
  fst (sweep_graph H mono_intersect ps d fuel G tol) = Returned g ->
  total_edges (g_vertices g) = 2 * length (g_sections g)
  /\ forall k r, nth_error (g_sections g) k = Some r ->
       exists a b,
         resolves (g_vertices g) a (fp r) /\ resolves (g_vertices g) b (tp r)
         /\ forall j v, nth_error (g_vertices g) j = Some v ->
              edges_of k (exits v) = (if j =? a then [mkEdge k b] else [])
              /\ edges_of k (enters v) = (if j =? b then [mkEdge k a] else []).
Proof.
  unfold sweep_graph. intros R.
  destruct (sweep_loop_inv _ _ _ _ R initial_state_inv) as (_ & T & K).
  split; [exact T | exact K].
Qed.

End GraphFacts.

(** The crossing diagonals: five finished Sections, ten Edges. *)
Lemma C7_edges_of_finished_sections_witness :
  fst (sweep_graph sorted_heap midpoint_crossing crossing_segments X 20
                   no_globals (Fin 1))
  = Returned crossing_graph
  /\ length (g_sections crossing_graph) = 5
  /\ total_edges (g_vertices crossing_graph) = 2 * length (g_sections crossing_graph)
  /\ forall k r, nth_error (g_sections crossing_graph) k = Some r ->
       exists a b,
         resolves (g_vertices crossing_graph) a (fp r)
         /\ resolves (g_vertices crossing_graph) b (tp r)
         /\ forall j v, nth_error (g_vertices crossing_graph) j = Some v ->
              edges_of k (exits v) = (if j =? a then [mkEdge k b] else [])
              /\ edges_of k (enters v) = (if j =? b then [mkEdge k a] else []).
Proof.
  split; [reflexivity|]. split; [reflexivity|].
  apply (C7_edges_of_finished_sections sorted_heap midpoint_crossing
           crossing_segments X 20 no_globals (Fin 1) crossing_graph).
  reflexivity.
Defined.

(** ** Termination of the sweep loop *)

Lemma finite_val x : D.is_finite x = true -> x = Fin (val x).
Proof. destruct x; simpl; intros; try discriminate; reflexivity. Qed.

Lemma ltb_fin x y : (Fin x <? Fin y)%D = true <-> (x < y)%Q.
Proof.
  simpl. rewrite negb_true_iff. split.
  - intros E. apply Qnot_le_lt. intros L. apply Qle_bool_iff in L. congruence.
  - intros L. destruct (Qle_bool y x) eqn:E; auto.
    apply Qle_bool_iff in E. apply Qlt_not_le in L. contradiction.
Qed.

Lemma ltb_fin_false x y : (Fin x <? Fin y)%D = false <-> (y <= x)%Q.
Proof.
  simpl. rewrite negb_false_iff. apply Qle_bool_iff.
Qed.

Lemma chain_tail R a l : chain R (a :: l) -> chain R l.
Proof. destruct l; simpl; tauto. Qed.

Lemma chain_cons R a b l : R (val a) (val b) -> chain R (b :: l) -> chain R (a :: b :: l).
Proof. simpl. tauto. Qed.

(** Sorting *)

Lemma sort_insert_finite x l :
  D.is_finite x = true -> all_finite l -> all_finite (sort_insert x l).
Proof.
  intros Fx. induction 1 as [|y l Fy Fl IH]; simpl.
  - repeat constructor; auto.
  - destruct (y <? x)%D; repeat constructor; auto.
Qed.

Lemma sort_insert_sorted x : forall l,
  D.is_finite x = true -> all_finite l ->
  chain Qle l -> chain Qle (sort_insert x l).
Proof.
  induction l as [|y l IH]; intros Fx Fl C; simpl; auto.
  inversion Fl as [|? ? Fy Fl']; subst.
  destruct (y <? x)%D eqn:E.
  - pose proof (IH Fx Fl' (chain_tail _ _ _ C)) as IH'.
    rewrite (finite_val _ Fx), (finite_val _ Fy) in E. apply ltb_fin in E.
    destruct l as [|z l]; simpl in *.
    + split; auto. now apply Qlt_le_weak.
    + destruct (z <? x)%D.
      * split; [tauto | exact IH'].
      * split; [now apply Qlt_le_weak | exact IH'].
  - rewrite (finite_val _ Fx), (finite_val _ Fy) in E. apply ltb_fin_false in E.
    apply chain_cons; auto.
Qed.

Lemma std_sort_finite l : all_finite l -> all_finite (std_sort l).
Proof.
  induction 1; simpl; [constructor|]. now apply sort_insert_finite.
Qed.

Lemma std_sort_sorted l : all_finite l -> chain Qle (std_sort l).
Proof.
  induction 1; simpl; auto.
  apply sort_insert_sorted; auto. now apply std_sort_finite.
Qed.

(** Uniqueness up to tolerance *)

Lemma EPSILON_eps : EPSILON = Fin eps.
Proof. reflexivity. Qed.

Lemma near_false_gap x y :
  (x <= y)%Q -> are_near (Fin x) (Fin y) = false -> gap true x y.
Proof.
  unfold are_near, gap. rewrite EPSILON_eps. simpl. intros L E.
  apply andb_false_iff in E. destruct E as [E|E].
  - exfalso. assert (K : (x + - y <= eps)%Q) by (unfold eps; lra).
    apply Qle_bool_iff in K. congruence.
  - destruct (Qlt_le_dec (x + - y) (- eps)) as [K|K]; [lra|].
    apply Qle_bool_iff in K. congruence.
Qed.

Lemma unique_from_chain : forall l kept,
  D.is_finite kept = true -> all_finite l -> chain Qle (kept :: l) ->
  chain (gap true) (kept :: unique_from are_near kept l)
  /\ all_finite (unique_from are_near kept l).
Proof.
  induction l as [|y l IH]; intros kept Fk Fl C; simpl; [split; auto; constructor|].
  inversion Fl as [|? ? Fy Fl']; subst.
  destruct C as [Lky C].
  destruct (are_near kept y) eqn:E.
  - apply IH; auto. destruct l as [|z l]; simpl in *; auto.
    split; [|tauto]. destruct C as [Lyz _]. lra.
  - destruct (IH y Fy Fl' C) as [C' F'].
    split; [|constructor; auto].
    change (gap true (val kept) (val y)
            /\ chain (gap true) (y :: unique_from are_near y l)).
    split; auto.
    rewrite (finite_val _ Fk), (finite_val _ Fy) in E.
    now apply near_false_gap.
Qed.

Lemma std_unique_chain l :
  all_finite l -> chain Qle l ->
  chain (gap true) (std_unique are_near l) /\ all_finite (std_unique are_near l).
Proof.
  destruct l as [|x l]; simpl; [split; auto; constructor|].
  intros F C. inversion F; subst.
  destruct (unique_from_chain l x) as [C' F']; auto.
  split; auto. constructor; auto.
Qed.

(** Reversal and trimming *)

Lemma chain_snoc R : forall l a b,
  chain R (l ++ [a]) -> R (val a) (val b) -> chain R ((l ++ [a]) ++ [b]).
Proof.
  induction l as [|y l IH]; intros a b C Rab.
  - simpl. auto.
  - destruct l as [|z l].
    + simpl in *. tauto.
    + simpl in C. destruct C as [Ryz C].
      change (chain R (y :: (z :: (l ++ [a]) ++ [b]))).
      apply chain_cons; auto. apply (IH a b); auto.
Qed.

Lemma chain_rev R l : chain R l -> chain (fun a b => R b a) (rev l).
Proof.
  induction l as [|a l IH]; intros C; simpl; auto.
  destruct l as [|b l]; simpl; auto.
  destruct C as [Rab C]. apply chain_snoc; auto.
Qed.

Lemma chain_app_r R : forall l1 l2, chain R (l1 ++ l2) -> chain R l2.
Proof.
  induction l1 as [|a l1 IH]; intros l2 C; auto.
  apply IH. eapply chain_tail. exact C.
Qed.

Lemma chain_app_l R : forall l1 l2, chain R (l1 ++ l2) -> chain R l1.
Proof.
  induction l1 as [|a l1 IH]; intros l2 C; simpl; auto.
  destruct l1 as [|b l1]; auto.
  simpl in C. destruct C as [Rab C]. split; auto. apply (IH l2). exact C.
Qed.

Lemma gap_flip a b : gap true b a <-> gap false a b.
Proof. unfold gap. tauto. Qed.

Lemma chain_impl (R S : Q -> Q -> Prop) :
  (forall a b, R a b -> S a b) -> forall l, chain R l -> chain S l.
Proof.
  intros RS. induction l as [|a l IH]; simpl; auto.
  destruct l; auto. intros [Rab C]. split; auto.
Qed.

Lemma erase_front_suffix x : forall v, exists pre, v = pre ++ erase_front_until x v.
Proof.
  induction v as [|y v [pre IH]]; simpl.
  - exists []. reflexivity.
  - destruct (y !=? x)%D.
    + exists (y :: pre). simpl. now f_equal.
    + exists []. reflexivity.
Qed.

Lemma erase_front_head x : forall v y r,
  erase_front_until x v = y :: r -> (y ==? x)%D = true.
Proof.
  induction v as [|z v IH]; intros y r; simpl; [discriminate|].
  destruct (z !=? x)%D eqn:E; [apply IH|].
  intros [= <- _]. unfold D.neqb in E. now apply negb_false_iff in E.
Qed.

Lemma erase_back_prefix x v : exists post, v = erase_back_until x v ++ post.
Proof.
  unfold erase_back_until.
  destruct (erase_front_suffix x (rev v)) as [pre E].
  exists (rev pre). rewrite <- rev_app_distr, <- E. now rewrite rev_involutive.
Qed.

Lemma erase_back_last x v l y :
  erase_back_until x v = l ++ [y] -> (y ==? x)%D = true.
Proof.
  unfold erase_back_until. intros E.
  apply (f_equal (@rev double)) in E.
  rewrite rev_involutive, rev_app_distr in E. simpl in E.
  eapply erase_front_head; eauto.
Qed.

Lemma all_finite_app l1 l2 : all_finite (l1 ++ l2) <-> all_finite l1 /\ all_finite l2.
Proof. apply Forall_app. Qed.

Lemma all_finite_rev l : all_finite l -> all_finite (rev l).
Proof. apply Forall_rev. Qed.

Lemma process_splits_chain splits f t :
  all_finite splits -> D.is_finite f = true -> D.is_finite t = true ->
  let c := process_splits splits f t in
  all_finite c
  /\ chain (gap (direction f t)) c
  /\ (forall y r, c = y :: r -> (y ==? f)%D = true)
  /\ (forall l y, c = l ++ [y] -> (y ==? t)%D = true).
Proof.
  intros Fs Ff Ft. unfold process_splits.
  set (all := (splits ++ [f]) ++ [t]).
  assert (Fa : all_finite all).
  { unfold all. apply all_finite_app. split; [apply all_finite_app; split; auto|];
      repeat constructor; auto. }
  destruct (std_unique_chain (std_sort all)) as [Cu Fu].
  { now apply std_sort_finite. }
  { now apply std_sort_sorted. }
  set (u := std_unique are_near (std_sort all)) in *.
  set (w := if (f >? t)%D then rev u else u).
  assert (Fw : all_finite w /\ chain (gap (direction f t)) w).
  { unfold w, direction. destruct (f >? t)%D; simpl; [|auto]. split.
    - now apply all_finite_rev.
    - apply chain_rev in Cu. revert Cu. apply chain_impl.
      intros a b. apply gap_flip. }
  destruct Fw as [Fw Cw].
  destruct (erase_front_suffix f w) as [pre Ep].
  set (v := erase_front_until f w) in *.
  destruct (erase_back_prefix t v) as [post Eb].
  set (c := erase_back_until t v) in *.
  assert (Fv : all_finite v /\ chain (gap (direction f t)) v).
  { rewrite Ep in Fw, Cw. split.
    - now apply all_finite_app in Fw.
    - eapply chain_app_r; eauto. }
  destruct Fv as [Fv Cv]. rewrite Eb in Fv, Cv.
  repeat split.
  - now apply all_finite_app in Fv.
  - eapply chain_app_l; eauto.
  - intros y r Ec. apply (erase_front_head f w y (r ++ post)).
    fold v. rewrite Eb, Ec. reflexivity.
  - intros l y Ec. eapply erase_back_last. exact Ec.
Qed.

(** Whole tolerances in a length *)

Lemma fl_compat x y : (x == y)%Q -> fl x = fl y.
Proof. intros E. unfold fl. now rewrite E. Qed.

Lemma div_eps_le x y : (x <= y)%Q -> (x / eps <= y / eps)%Q.
Proof.
  intros L. unfold Qdiv. apply Qmult_le_compat_r; auto. unfold eps. simpl.
  discriminate.
Qed.

Lemma div_eps_add x y : ((x + y) / eps == x / eps + y / eps)%Q.
Proof. unfold Qdiv. ring. Qed.

Lemma floor_div_eps_nonneg x : (0 <= x)%Q -> (0 <= Qfloor (x / eps))%Z.
Proof.
  intros P. apply (Qfloor_resp_le (0 / eps) (x / eps)). now apply div_eps_le.
Qed.

Lemma fl_mono x y : (x <= y)%Q -> fl x <= fl y.
Proof.
  intros L. unfold fl.
  pose proof (Qfloor_resp_le _ _ (div_eps_le _ _ L)). lia.
Qed.

Lemma fl_add x y : (0 <= x)%Q -> (0 <= y)%Q -> fl x + fl y <= fl (x + y).
Proof.
  intros Px Py. unfold fl.
  assert (A : (inject_Z (Qfloor (x / eps) + Qfloor (y / eps)) <= (x + y) / eps)%Q).
  { rewrite inject_Z_plus, div_eps_add.
    apply Qplus_le_compat; apply Qfloor_le. }
  apply Qfloor_resp_le in A. rewrite Qfloor_Z in A.
  pose proof (floor_div_eps_nonneg x Px). pose proof (floor_div_eps_nonneg y Py).
  lia.
Qed.

Lemma fl_ge_1 x : (eps < x)%Q -> 1 <= fl x.
Proof.
  intros L. unfold fl.
  assert (A : (inject_Z 1 <= x / eps)%Q).
  { apply (Qle_trans _ (eps / eps)); [discriminate|]. apply div_eps_le.
    now apply Qlt_le_weak. }
  apply Qfloor_resp_le in A. rewrite Qfloor_Z in A. lia.
Qed.

Lemma extent_fl a b : extent a b = fl (Qabs (val b - val a)).
Proof. reflexivity. Qed.

Lemma extent_sym a b : extent a b = extent b a.
Proof.
  rewrite !extent_fl. apply fl_compat.
  rewrite <- Qabs_opp. apply Qabs_wd. ring.
Qed.

Lemma extent_compat a a' b b' :
  (val a == val a')%Q -> (val b == val b')%Q -> extent a b = extent a' b'.
Proof.
  intros Ea Eb. rewrite !extent_fl. apply fl_compat. now rewrite Ea, Eb.
Qed.

Lemma abs_gap (up : bool) a b :
  (if up then 0 <= b - a else 0 <= a - b)%Q ->
  (Qabs (b - a) == if up then b - a else a - b)%Q.
Proof.
  destruct up; intros L.
  - now apply Qabs_pos.
  - rewrite Qabs_neg; [ring | lra].
Qed.

Lemma extent_ge_1 up a b : gap up (val a) (val b) -> 1 <= extent a b.
Proof.
  intros G. rewrite extent_fl. apply fl_ge_1.
  rewrite (abs_gap up); destruct up; simpl in *; unfold eps in *; lra.
Qed.

(** [z] is at or beyond [b] in the direction in which [b] is beyond [a]. *)
Lemma extent_add (up : bool) a b z :
  (if up then 0 <= val b - val a else 0 <= val a - val b)%Q ->
  (if up then 0 <= val z - val b else 0 <= val b - val z)%Q ->
  extent a b + extent b z <= extent a z.
Proof.
  intros L1 L2. rewrite !extent_fl.
  rewrite (fl_compat _ _ (abs_gap up _ _ L1)), (fl_compat _ _ (abs_gap up _ _ L2)).
  assert (L3 : (if up then 0 <= val z - val a else 0 <= val a - val z)%Q)
    by (destruct up; lra).
  rewrite (fl_compat _ _ (abs_gap up _ _ L3)).
  destruct up.
  - etransitivity; [apply fl_add; auto|]. apply fl_mono. lra.
  - etransitivity; [apply fl_add; auto|]. apply fl_mono. lra.
Qed.

Lemma last_cons {A} : forall (l : list A) b a, last (b :: l) a = last l b.
Proof.
  induction l as [|c l IHl]; intros b a; [reflexivity|].
  change (last (b :: c :: l) a) with (last (c :: l) a).
  now rewrite (IHl c a), (IHl c b).
Qed.

Lemma pairs_extent_le (up : bool) : forall l a,
  chain (gap up) (a :: l) ->
  pairs_extent (a :: l) <= extent a (last l a)
  /\ (if up then 0 <= val (last l a) - val a else 0 <= val a - val (last l a))%Q.
Proof.
  induction l as [|b l IH]; intros a C.
  - simpl. split; [lia | destruct up; lra].
  - destruct C as [G C]. destruct (IH b C) as [S L].
    rewrite (last_cons l b a).
    assert (Gab : (if up then 0 <= val b - val a else 0 <= val a - val b)%Q).
    { unfold gap in G. destruct up; unfold eps in *; lra. }
    split.
    + change (extent a b + pairs_extent (b :: l) <= extent a (last l b)).
      pose proof (extent_add up a b (last l b) Gab L). lia.
    + destruct up; lra.
Qed.

(** Weights of the pieces of a split *)

Lemma eqb_val a b :
  (a ==? b)%D = true -> D.is_finite a = true -> D.is_finite b = true ->
  (val a == val b)%Q.
Proof.
  intros E Fa Fb. rewrite (finite_val _ Fa), (finite_val _ Fb) in E.
  now apply Qeq_bool_iff in E.
Qed.

Lemma Section_new_weight c d cix a b :
  weight (Section_new c d cix a b) = Nat.max 1 (extent a b).
Proof.
  unfold Section_new, weight. destruct (lexo_point _ _ d); simpl; auto.
  now rewrite extent_sym.
Qed.

Lemma Section_new_finite c d cix a b :
  D.is_finite a = true -> D.is_finite b = true ->
  finite_section (Section_new c d cix a b) = true.
Proof.
  intros Fa Fb. unfold Section_new, finite_section.
  destruct (lexo_point _ _ d); simpl; now rewrite Fa, Fb.
Qed.

Lemma sections_between_weight up c d cix : forall cuts,
  chain (gap up) cuts ->
  total_weight (sections_between c d cix cuts) = pairs_extent cuts.
Proof.
  induction cuts as [|a cuts IH]; intros C; [reflexivity|].
  destruct cuts as [|b cuts]; [reflexivity|].
  destruct C as [G C].
  change (weight (Section_new c d cix a b)
          + total_weight (sections_between c d cix (b :: cuts))
          = extent a b + pairs_extent (b :: cuts)).
  rewrite (IH C), Section_new_weight.
  pose proof (extent_ge_1 up a b G). lia.
Qed.

Lemma sections_between_finite c d cix : forall cuts,
  all_finite cuts -> sections_finite (sections_between c d cix cuts).
Proof.
  induction cuts as [|a cuts IH]; intros F; [constructor|].
  destruct cuts as [|b cuts]; [constructor|].
  inversion F as [|? ? Fa F']; subst. inversion F' as [|? ? Fb _]; subst.
  change (sections_finite (Section_new c d cix a b
                           :: sections_between c d cix (b :: cuts))).
  constructor; [now apply Section_new_finite | now apply IH].
Qed.

Lemma finite_section_ft s :
  finite_section s = true -> D.is_finite (f s) = true /\ D.is_finite (t s) = true.
Proof. unfold finite_section. apply andb_true_iff. Qed.

Lemma split_section_weight s ps cuts d s' rest :
  finite_section s = true -> all_finite cuts ->
  split_section s ps cuts d = Ok (s', rest) ->
  weight s' + total_weight rest <= weight s
  /\ finite_section s' = true
  /\ sections_finite rest.
Proof.
  intros Fs Fc. destruct (finite_section_ft _ Fs) as [Ff Ft].
  unfold split_section, bind.
  destruct (process_splits_chain cuts (f s) (t s) Fc Ff Ft) as (Fa & C & Hd & Tl).
  set (c := process_splits cuts (f s) (t s)) in *.
  destruct (get (curve s) ps) as [cv|]; [|discriminate].
  destruct (at_ c 1) as [c1|] eqn:E1; [|discriminate].
  unfold set_to. destruct (_ >=? _)%D; [|discriminate].
  intros [= <- <-].
  destruct c as [|c0 [|c1' r]]; try discriminate.
  injection E1 as ->.
  inversion Fa as [|? ? F0 Fa']; subst. inversion Fa' as [|? ? F1 _]; subst.
  pose proof (eqb_val _ _ (Hd _ _ eq_refl) F0 Ff) as E0.
  repeat split.
  - destruct (pairs_extent_le (direction (f s) (t s)) (c1 :: r) c0 C) as [S _].
    assert (El : (val (last (c1 :: r) c0) == val (t s))%Q).
    { destruct (@exists_last _ (c0 :: c1 :: r)) as (l & y & E); [discriminate|].
      rewrite <- (last_cons (c1 :: r) c0 c0), E, last_last.
      pose proof (Tl _ _ E) as Ey.
      apply eqb_val; auto.
      assert (In y (c0 :: c1 :: r)) by (rewrite E; apply in_or_app; right; now left).
      exact (proj1 (Forall_forall _ _) Fa y H). }
    simpl tl. rewrite (sections_between_weight (direction (f s) (t s)))
      by (eapply chain_tail; eauto).
    unfold weight at 1. simpl f. simpl t.
    rewrite <- (extent_compat c0 (f s) c1 c1 E0 (Qeq_refl _)).
    pose proof (extent_ge_1 _ c0 c1 (proj1 C)).
    change (pairs_extent (c0 :: c1 :: r)) with (extent c0 c1 + pairs_extent (c1 :: r)) in S.
    rewrite (extent_compat _ _ _ _ E0 El) in S.
    unfold weight. lia.
  - unfold finite_section. simpl. now rewrite Ff, F1.
  - simpl tl. now apply sections_between_finite.
Qed.

Lemma total_weight_perm l l' : Permutation l l' -> total_weight l = total_weight l'.
Proof.
  unfold total_weight. induction 1; simpl; lia.
Qed.

Lemma total_weight_app l l' : total_weight (l ++ l') = total_weight l + total_weight l'.
Proof. unfold total_weight. now rewrite map_app, list_sum_app. Qed.

Lemma total_weight_one s : total_weight [s] = weight s.
Proof. unfold total_weight. simpl. lia. Qed.

Lemma sections_finite_perm l l' :
  Permutation l l' -> sections_finite l -> sections_finite l'.
Proof. intros P. apply Permutation_Forall. exact P. Qed.

Lemma weight_pos s : 1 <= weight s.
Proof. unfold weight. lia. Qed.

(** Ranges of the vector [monos] *)

Lemma firstn_on_range {A} (g : list A -> list A) e m :
  (forall l, length (g l) = length l) -> e <= length m ->
  firstn e (on_range e g m) = g (firstn e m)
  /\ length (on_range e g m) = length m.
Proof.
  intros L E. unfold on_range.
  assert (K : length (g (firstn e m)) = e) by (rewrite L, length_firstn; lia).
  split.
  - rewrite firstn_app, K, Nat.sub_diag, firstn_O, app_nil_r.
    rewrite <- K at 1. apply firstn_all.
  - rewrite length_app, K, length_skipn. lia.
Qed.

Lemma split_last_at {A} (h : list A) e x :
  length h = S e -> nth_error h e = Some x -> h = firstn e h ++ [x].
Proof.
  intros L N. rewrite <- (firstn_skipn e h) at 1. f_equal.
  pose proof (nth_error_split h e N) as (l1 & l2 & E & L1).
  subst h. rewrite skipn_app, L1, Nat.sub_diag. simpl.
  rewrite skipn_all2 by lia. simpl.
  rewrite length_app in L. simpl in L. destruct l2; [reflexivity|simpl in L; lia].
Qed.

Section HeapFacts.

Variable H : heap_algorithms.
Hypothesis HP : heap_preserves H.

Lemma pop_range z m e sv :
  S e <= length m ->
  at_ (on_range (S e) (std_pop_heap H z) m) e = Ok sv ->
  Permutation (firstn (S e) m) (firstn e (on_range (S e) (std_pop_heap H z) m) ++ [sv])
  /\ length (on_range (S e) (std_pop_heap H z) m) = length m.
Proof.
  intros L E. apply at_Ok in E.
  destruct (firstn_on_range (std_pop_heap H z) (S e) m) as [F Ln]; auto.
  { intros l. apply Permutation_length, (pop_heap_perm H HP). }
  split; auto.
  set (m' := on_range (S e) (std_pop_heap H z) m) in *.
  assert (Lh : length (firstn (S e) m') = S e) by (rewrite length_firstn; lia).
  assert (N : nth_error (firstn (S e) m') e = Some sv).
  { rewrite nth_error_firstn. destruct (Nat.ltb_spec e (S e)); [auto|lia]. }
  rewrite (split_last_at _ _ _ Lh N) in F.
  rewrite firstn_firstn in F. replace (Nat.min e (S e)) with e in F by lia.
  rewrite F. symmetry. apply (pop_heap_perm H HP).
Qed.

Lemma store_range m it (x : section) m1 :
  store m it x = Ok m1 ->
  it < length m /\ length m1 = length m
  /\ firstn (S it) m1 = firstn it m ++ [x].
Proof.
  unfold store. intros E.
  destruct (update_Ok _ _ _ _ E) as (a & N & Ln & U).
  assert (Lt : it < length m) by (apply nth_error_Some; congruence).
  split; [exact Lt|]. split; [exact Ln|].
  apply nth_error_split in N. destruct N as (l1 & l2 & -> & L1).
  assert (E1 : m1 = l1 ++ x :: l2).
  { apply nth_error_ext. intros j. rewrite U.
    destruct (Nat.eqb_spec j it) as [->|D].
    - rewrite nth_error_app2 by lia. now rewrite L1, Nat.sub_diag.
    - destruct (Nat.lt_ge_cases j (length l1)).
      + now rewrite !nth_error_app1 by lia.
      + rewrite !nth_error_app2 by lia.
        destruct (j - length l1) as [|n] eqn:Ej; [lia|reflexivity]. }
  subst m1. subst it.
  rewrite !firstn_app.
  replace (S (length l1) - length l1) with 1 by lia.
  replace (length l1 - length l1) with 0 by lia.
  rewrite firstn_all, (firstn_all2 l1) by lia. simpl.
  now rewrite app_nil_r.
Qed.

Lemma push_them_loop_range z : forall xs m e m' e',
  e <= length m ->
  push_them_loop H m e xs z = Ok (m', e') ->
  e' <= length m' /\ Permutation (firstn e' m') (firstn e m ++ xs).
Proof.
  induction xs as [|x xs IH]; intros m e m' e' L; simpl.
  - intros [= <- <-]. split; auto. now rewrite app_nil_r.
  - unfold bind. destruct (store m e x) as [m1|] eqn:Es; [|discriminate].
    destruct (store_range _ _ _ _ Es) as (Lt & L1 & F1).
    destruct (firstn_on_range (std_push_heap H z) (S e) m1) as [F2 L2]; auto.
    { intros l. apply Permutation_length, (push_heap_perm H HP). }
    { lia. }
    assert (L3 : S e <= length (on_range (S e) (std_push_heap H z) m1))
      by (rewrite L2; lia).
    intros E. destruct (IH _ _ _ _ L3 E) as [L' P].
    split; auto. rewrite P, F2, F1.
    rewrite (push_heap_perm H HP). rewrite <- app_assoc. reflexivity.
Qed.

Lemma push_them_range z xs m e m' e' :
  e <= length m ->
  push_them H m e xs z = Ok (m', e') ->
  e' <= length m' /\ Permutation (firstn e' m') (firstn e m ++ xs).
Proof.
  unfold push_them. intros L.
  destruct (e + length xs <=? length m); [|discriminate].
  now apply push_them_loop_range.
Qed.

End HeapFacts.

(** The context during a step *)

Lemma list_sum_erase_at (g : section -> nat) v i :
  list_sum (map g (erase_at v i)) <= list_sum (map g v).
Proof.
  unfold erase_at. rewrite <- (firstn_skipn i v) at 3.
  rewrite !map_app, !list_sum_app.
  destruct (skipn i v) as [|x r] eqn:E.
  - rewrite (skipn_all2 v (n := S i)); [simpl; lia|].
    assert (length (skipn i v) = 0) by now rewrite E.
    rewrite length_skipn in *. lia.
  - replace (skipn (S i) v) with r.
    + simpl. lia.
    + change (S i) with (1 + i). rewrite <- skipn_skipn, E. reflexivity.
Qed.

Lemma Forall_firstn {A} (P : A -> Prop) n v : Forall P v -> Forall P (firstn n v).
Proof.
  intros F. rewrite <- (firstn_skipn n v) in F. now apply Forall_app in F.
Qed.

Lemma Forall_skipn {A} (P : A -> Prop) n v : Forall P v -> Forall P (skipn n v).
Proof.
  intros F. rewrite <- (firstn_skipn n v) in F. now apply Forall_app in F.
Qed.

Lemma Forall_erase_at {A} (P : A -> Prop) v i : Forall P v -> Forall P (erase_at v i).
Proof.
  intros F. unfold erase_at. apply Forall_app. split.
  - now apply Forall_firstn.
  - now apply Forall_skipn.
Qed.

Lemma list_sum_insert_at (g : section -> nat) v i x :
  list_sum (map g (insert_at v i x)) = list_sum (map g v) + g x.
Proof.
  unfold insert_at. rewrite <- (firstn_skipn i v) at 3.
  rewrite !map_app, !list_sum_app. simpl. lia.
Qed.

Lemma Forall_insert_at {A} (P : A -> Prop) v i x :
  Forall P v -> P x -> Forall P (insert_at v i x).
Proof.
  intros F Px. unfold insert_at. apply Forall_app. split.
  - now apply Forall_firstn.
  - constructor; auto. now apply Forall_skipn.
Qed.

Lemma list_sum_replace (g : section -> nat) x : forall v i v' a,
  update v i (fun _ => x) = Ok v' -> nth_error v i = Some a ->
  list_sum (map g v') + g a = list_sum (map g v) + g x.
Proof.
  induction v as [|y v IH]; intros i v' a; simpl; [discriminate|].
  destruct i as [|i].
  - intros [= <-] [= <-]. simpl. lia.
  - unfold bind. destruct (update v i _) as [r|] eqn:E; [|discriminate].
    intros [= <-] N. simpl. pose proof (IH _ _ _ E N). lia.
Qed.

Lemma Forall_replace {A} (P : A -> Prop) x : forall (v : list A) i v',
  update v i (fun _ => x) = Ok v' -> Forall P v -> P x -> Forall P v'.
Proof.
  intros v i v' E F Px.
  exact (Forall_update P (fun _ => x) v i v' (fun _ _ => Px) E F).
Qed.

Lemma finish_loop_potential lim : forall n st st',
  finish_loop n lim st = Ok st' ->
  st_monos st' = st_monos st
  /\ st_monos_end st' = st_monos_end st
  /\ context_weight (st_context st') <= context_weight (st_context st)
  /\ (sections_finite (st_context st) -> sections_finite (st_context st')).
Proof.
  induction n as [|i IH]; intros st st'.
  - intros [= <-]. repeat split; auto.
  - rewrite finish_loop_S. unfold bind.
    destruct (at_ (st_context st) i) as [ci|]; [|discriminate].
    destruct (finished lim ci); [|apply IH].
    destruct (winding_loop _ _ _) as [w|]; [|discriminate].
    destruct (find_vertex (st_vertices st) (tp ci)) as [vert vs].
    destruct (at_ (st_vix st) i) as [vi|]; [|discriminate].
    destruct (vert =? vi).
    + intros E. destruct (IH _ _ E) as (A & B & C & D). simpl in *. auto.
    + cbv zeta.
      destruct (update vs vi _) as [vs1|]; [|discriminate].
      destruct (update vs1 vert _) as [vs2|]; [|discriminate].
      intros E. destruct (IH _ _ E) as (A & B & C & D). simpl in *.
      repeat split; auto.
      * etransitivity; [exact C|]. apply list_sum_erase_at.
      * intros F. apply D. now apply Forall_erase_at.
Qed.

Section Termination.

Variable H : heap_algorithms.
Variable mono_intersect : Curve -> Interval -> Curve -> Interval -> list Crossing.
Variable ps : list Path.
Variable d : Dim2.

Hypothesis HP : heap_preserves H.
Hypothesis HX : finite_crossings mono_intersect.

Lemma crossings_finite a ia b ib :
  all_finite (map (@ta) (mono_intersect a ia b ib))
  /\ all_finite (map (@tb) (mono_intersect a ia b ib)).
Proof.
  pose proof (HX a ia b ib) as F. rewrite forallb_forall in F.
  split; apply Forall_map, Forall_forall; intros x I;
    specialize (F x I); apply andb_true_iff in F; tauto.
Qed.

(** Splitting a member of the context and pushing the rest. *)
Lemma split_and_push st i ci cuts ci' rest ctx m e vx vs secs w :
  state_ok st ->
  at_ (st_context st) i = Ok ci ->
  all_finite cuts ->
  split_section ci ps cuts d = Ok (ci', rest) ->
  update (st_context st) i (fun _ => ci') = Ok ctx ->
  push_them H (st_monos st) (st_monos_end st) rest (HeapSorter d) = Ok (m, e) ->
  state_ok (mkState m e ctx vx vs secs w)
  /\ potential (mkState m e ctx vx vs secs w) <= potential st.
Proof.
  intros (L & Fp & Fc) Eci Fcuts Es Eu Ep.
  apply at_Ok in Eci.
  assert (Fci : finite_section ci = true)
    by exact (proj1 (Forall_forall _ _) Fc ci (nth_error_In _ _ Eci)).
  destruct (split_section_weight _ _ _ _ _ _ Fci Fcuts Es) as (W & Fci' & Frest).
  destruct (push_them_range H HP _ _ _ _ _ _ L Ep) as [L' P].
  pose proof (list_sum_replace (fun s => weight s - 1) ci' _ _ _ _ Eu Eci) as S.
  pose proof (weight_pos ci'). pose proof (weight_pos ci).
  unfold state_ok, potential, pending, context_weight in *. simpl.
  repeat split; auto.
  - apply (sections_finite_perm _ _ (Permutation_sym P)).
    apply Forall_app. split; auto.
  - eapply Forall_replace; eauto.
  - rewrite (total_weight_perm _ _ P), total_weight_app. lia.
Qed.

Lemma neighbour_loop_potential s cx si : forall k i st ts st' ts',
  state_ok st -> all_finite ts ->
  neighbour_loop H mono_intersect ps d s cx si k i st ts = Ok (st', ts') ->
  state_ok st' /\ all_finite ts' /\ potential st' <= potential st.
Proof.
  induction k as [|k IH]; intros i st ts st' ts' K F; simpl.
  - intros [= <- <-]. auto.
  - destruct (i =? cx); [now apply IH|]. unfold bind.
    destruct (at_ (st_context st) i) as [ci|] eqn:Eci; [|discriminate].
    destruct (Interval_intersects _ _); [|now apply IH].
    destruct (at_ (st_monos st) s) as [sv|]; [|discriminate].
    destruct (get (curve sv) ps) as [cs|]; [|discriminate].
    destruct (get (curve ci) ps) as [cc|]; [|discriminate].
    destruct (crossings_finite cs (Interval_of (f sv) (t sv))
                               cc (Interval_of (f ci) (t ci))) as [Fa Fb].
    destruct (split_section ci ps _ d) as [[ci' rest]|] eqn:Es; [|discriminate].
    destruct (update (st_context st) i _) as [ctx|] eqn:Eu; [|discriminate].
    destruct (push_them H _ _ rest _) as [[m e]|] eqn:Ep; [|discriminate].
    intros E.
    destruct (split_and_push st i ci _ ci' rest ctx m e (st_vix st)
                (st_vertices st) (st_sections st) (st_windings st)
                K Eci Fb Es Eu Ep) as [K1 P1].
    assert (F' : all_finite
                   (ts ++ map (@ta) (mono_intersect cs (Interval_of (f sv) (t sv))
                                                    cc (Interval_of (f ci) (t ci)))))
      by (apply Forall_app; split; auto).
    destruct (IH _ _ _ _ _ K1 F' E) as (K2 & F2 & P2).
    split; [exact K2|]. split; [exact F2|]. lia.
Qed.

Lemma sweep_step_potential G st G' st' :
  state_ok st ->
  sweep_step H mono_intersect ps d G st = Ok (Continue G' st') ->
  state_ok st' /\ potential st' < potential st.
Proof.
  unfold sweep_step, bind. intros K.
  destruct (st_monos_end st) as [|e] eqn:Ee; simpl (_ =? _); cbv beta iota.
  - (* nothing pending: the step breaks *)
    destruct (finish_loop _ _ st) as [st1|] eqn:E1; [|discriminate].
    destruct (finish_loop_potential _ _ _ _ E1) as (_ & B & _).
    rewrite B, Ee. discriminate.
  - replace (S e - 1) with e by lia.
    set (m0 := on_range (S e) (std_pop_heap H (HeapSorter d)) (st_monos st)).
    destruct (at_ m0 e) as [sv|] eqn:Esv; [|discriminate].
    destruct K as (L & Fp & Fc). rewrite Ee in L.
    destruct (pop_range H HP _ _ _ _ L Esv) as [P Lm]. fold m0 in P, Lm.
    unfold pending in Fp. rewrite Ee in Fp.
    pose proof (sections_finite_perm _ _ P Fp) as Fp'.
    apply Forall_app in Fp'. destruct Fp' as [Fp0 Fsv].
    inversion Fsv as [|? ? Fsv' _]; subst.
    pose proof (total_weight_perm _ _ P) as W. rewrite total_weight_app in W.
    rewrite total_weight_one in W.
    destruct (finish_loop _ _ _) as [st1|] eqn:E1; [|discriminate].
    destruct (finish_loop_potential _ _ _ _ E1) as (A & B & C & D).
    simpl in A, B, C, D. rewrite B.
    destruct (e =? 0); [discriminate|].
    rewrite A, Esv.
    destruct (lower_bound _ _ _) as [cx|]; [|discriminate].
    destruct (find_vertex (st_vertices st1) (fp sv)) as [v vs].
    set (st2 := mkState m0 e
                        (insert_at (st_context st1) cx sv)
                        (insert_at (st_vix st1) cx v) vs (st_sections st1)
                        (st_windings st1)).
    assert (K2 : state_ok st2).
    { unfold state_ok, pending, st2. simpl. repeat split.
      - lia.
      - exact Fp0.
      - apply Forall_insert_at; [apply D, Fc | exact Fsv']. }
    assert (P2 : potential st2 + 1 <= potential st).
    { unfold potential, pending, st2, context_weight. simpl. rewrite Ee.
      rewrite list_sum_insert_at. fold (context_weight (st_context st1)).
      fold (context_weight (st_context st)) in *.
      pose proof (weight_pos sv). lia. }
    destruct (neighbour_loop _ _ _ _ _ _ _ _ _ st2 _) as [[st3 ts]|] eqn:En;
      [|discriminate].
    destruct (neighbour_loop_potential _ _ _ _ _ _ _ _ _ K2 (Forall_nil _) En)
      as (K3 & F3 & P3).
    destruct (at_ (st_context st3) cx) as [c|] eqn:Ec; [|discriminate].
    destruct (split_section c ps ts d) as [[c' rest]|] eqn:Es; [|discriminate].
    destruct (update (st_context st3) cx _) as [ctx|] eqn:Eu; [|discriminate].
    destruct (push_them _ _ _ _ _) as [[m e']|] eqn:Ep; [|discriminate].
    intros [= _ <-].
    destruct (split_and_push st3 cx c ts c' rest ctx m e' (st_vix st3)
                (st_vertices st3) (st_sections st3) (st_windings st3)
                K3 Ec F3 Es Eu Ep) as [K4 P4].
    split; auto. lia.
Qed.

Lemma sweep_loop_terminates : forall fuel G st,
  state_ok st -> potential st < fuel ->
  fst (sweep_loop H mono_intersect ps d fuel G st) <> OutOfFuel.
Proof.
  induction fuel as [|fuel IH]; intros G st K L; [lia|]. simpl.
  destruct (sweep_step H mono_intersect ps d G st) as [[st'|G' st']|e] eqn:E;
    simpl; try discriminate.
  destruct (sweep_step_potential _ _ _ _ K E) as [K' P'].
  apply IH; auto. lia.
Qed.

End Termination.

(** The initial sections *)

Lemma process_splits_finite splits f t :
  all_finite splits -> D.is_finite f = true -> D.is_finite t = true ->
  all_finite (process_splits splits f t).
Proof. intros A B C. now destruct (process_splits_chain splits f t A B C). Qed.

Lemma in_indexed {A} (v : list A) i x : In (i, x) (indexed v) -> In x v.
Proof. unfold indexed. apply in_combine_r. Qed.

Lemma mono_sections_finite ps :
  finite_roots ps = true -> sections_finite (mono_sections ps).
Proof.
  intros F. unfold finite_roots in F. rewrite forallb_forall in F.
  unfold mono_sections, sections_finite.
  apply Forall_flat_map, Forall_forall. intros [i p] Ip.
  apply in_indexed in Ip. specialize (F p Ip). rewrite forallb_forall in F.
  apply Forall_flat_map, Forall_forall. intros [j c] Ic.
  apply in_indexed in Ic. specialize (F c Ic). rewrite forallb_forall in F.
  simpl. apply sections_between_finite. unfold mono_splits.
  apply process_splits_finite; auto. apply Forall_forall. exact F.
Qed.

Section TerminationOfSweep.

Variable H : heap_algorithms.
Variable mono_intersect : Curve -> Interval -> Curve -> Interval -> list Crossing.
Variable ps : list Path.
Variable d : Dim2.

Hypothesis HP : heap_preserves H.
Hypothesis HX : finite_crossings mono_intersect.
Hypothesis HR : finite_roots ps = true.

Lemma initial_state_ok :
  state_ok (initial_state H ps d)
  /\ potential (initial_state H ps d) = total_weight (mono_sections ps).
Proof.
  unfold state_ok, potential, pending, initial_state. simpl.
  rewrite firstn_all. repeat split.
  - lia.
  - apply (sections_finite_perm (mono_sections ps)).
    + symmetry. apply (make_heap_perm H HP).
    + now apply mono_sections_finite.
  - constructor.
  - unfold context_weight. simpl. rewrite Nat.add_0_r.
    apply total_weight_perm, (make_heap_perm H HP).
Qed.

Lemma steps_bound : forall n G st G' st',
  state_ok st ->
  steps H mono_intersect ps d n G st = Some (G', st') ->
  n + potential st' <= potential st.
Proof.
  induction n as [|n IH]; intros G st G' st' K; simpl.
  - intros [= _ <-]. lia.
  - destruct (sweep_step H mono_intersect ps d G st) as [[s1|G1 s1]|e] eqn:E;
      try discriminate.
    destruct (sweep_step_potential H mono_intersect ps d HP HX _ _ _ _ K E)
      as [K1 P1].
    intros S. pose proof (IH _ _ _ _ K1 S). lia.
Qed.

(** The iterations the loop can complete.  When the root finder and
    [mono_intersect] return finite parameters and the heap algorithms
    only rearrange their range, every completed iteration lowers the
    potential of the state: the popped section moves from the heap to the
    context, and a split replaces a section by pieces that are pairwise
    more than the tolerance apart and whose weights add up to no more than
    its own.  So the loop completes at most as many iterations as the
    initial sections weigh, and with more fuel than that the sweep has
    left the loop: by returning the Graph, or by failing in a step. *)
Lemma sweep_leaves_within_weight fuel G tol :
  total_weight (mono_sections ps) < fuel ->
  ((exists g, fst (sweep_graph H mono_intersect ps d fuel G tol) = Returned g)
   \/ (exists e, fst (sweep_graph H mono_intersect ps d fuel G tol) = Aborted e))
  /\ forall n G' st',
       steps H mono_intersect ps d n G (initial_state H ps d) = Some (G', st') ->
       n <= total_weight (mono_sections ps).
Proof.
  intros L. destruct initial_state_ok as [K P]. split.
  - pose proof (sweep_loop_terminates H mono_intersect ps d HP HX fuel G
                  (initial_state H ps d) K ltac:(rewrite P; exact L)) as T.
    unfold sweep_graph.
    destruct (fst (sweep_loop H mono_intersect ps d fuel G (initial_state H ps d)));
      [left; eauto | right; eauto | contradiction].
  - intros n G' st' S. pose proof (steps_bound _ _ _ _ _ K S). lia.
Qed.

End TerminationOfSweep.

(** The sorted heap preserves its content *)

Lemma heap_insert_perm z x : forall l, Permutation (heap_insert z x l) (x :: l).
Proof.
  induction l as [|y l IH]; simpl; auto.
  destruct (z x y); auto.
  rewrite IH. apply perm_swap.
Qed.

Lemma sorted_heap_preserves : heap_preserves sorted_heap.
Proof.
  constructor; intros z l; simpl.
  - unfold sorted_make_heap. induction l as [|x l IH]; simpl; auto.
    rewrite heap_insert_perm. now constructor.
  - unfold sorted_push_heap. destruct (rev l) as [|x r] eqn:E.
    + apply (f_equal (@rev section)) in E. rewrite rev_involutive in E.
      subst l. constructor.
    + apply (f_equal (@rev section)) in E. rewrite rev_involutive in E.
      subst l. simpl. rewrite heap_insert_perm.
      apply Permutation_cons_append.
  - unfold sorted_pop_heap. destruct l as [|x r]; auto.
    symmetry. apply Permutation_cons_append.
Qed.

Lemma midpoint_crossing_finite : finite_crossings midpoint_crossing.
Proof.
  intros a ia b ib. unfold midpoint_crossing.
  destruct (_ && _); reflexivity.
Qed.

(** The sorted heap and the crossing diagonals meet the hypotheses. *)
Lemma sweep_leaves_within_weight_example :
  let fuel := S (total_weight (mono_sections crossing_segments)) in
  total_weight (mono_sections crossing_segments) < fuel
  /\ ((exists g, fst (sweep_graph sorted_heap midpoint_crossing crossing_segments X fuel
                        no_globals (Fin 1)) = Returned g)
      \/ (exists e, fst (sweep_graph sorted_heap midpoint_crossing crossing_segments X fuel
                           no_globals (Fin 1)) = Aborted e))
  /\ forall n G' st',
       steps sorted_heap midpoint_crossing crossing_segments X n no_globals
             (initial_state sorted_heap crossing_segments X) = Some (G', st') ->
       n <= total_weight (mono_sections crossing_segments).
Proof.
  intros fuel. split; [apply Nat.lt_succ_diag_r|].
  apply (sweep_leaves_within_weight sorted_heap midpoint_crossing crossing_segments X
           sorted_heap_preserves midpoint_crossing_finite eq_refl
           fuel no_globals (Fin 1)).
  apply Nat.lt_succ_diag_r.
Defined.

(** ** The pieces pushed back into [monos] *)

(** C10: the pieces of a split are not pushed back onto a queue that
    grows.  [push_them] writes them through [monos_end] into the vector
    [monos], whose size is that of the initial sections for good
    ([reserve] makes no element), and is out of range as soon as the
    heap would outgrow the vector.  On [three_segments] the heap fills
    the vector again after two iterations (one crossing, two pieces
    pushed).  The third iteration pops the third segment, which leaves
    one place; the piece cut off the first segment takes it, and the
    piece cut off the third segment itself is written through the end of
    the vector: the step is out of range, the sweep does not return and
    the heap is not drained.  With room for one more element in the
    vector the same step completes, with four pieces pending, and the
    sweep returns a Graph. *)
Theorem C10_pushed_pieces_overflow_monos :
  input_is_finite three_segments = true
  /\ length (mono_sections three_segments) = 3
  /\ (exists G st,
        steps sorted_heap segment_intersect three_segments X 2 no_globals
              (initial_state sorted_heap three_segments X) = Some (G, st)
        /\ st_monos_end st = 3 /\ length (st_monos st) = 3
        /\ sweep_step sorted_heap segment_intersect three_segments X G st
           = Err OutOfRange
        /\ (exists G' st',
              sweep_step sorted_heap segment_intersect three_segments X G (with_room 1 st)
              = Ok (Continue G' st')
              /\ st_monos_end st' = 4
              /\ map (fun s => (curve s, f s, t s)) (st_context st')
                 = [(mkCurveIx 2 0, Fin 0, Fin (10 # 11));
                    (mkCurveIx 0 0, Fin 0, Fin (4 # 11));
                    (mkCurveIx 1 0, Fin 0, Fin (1 # 2))])
        /\ (exists g,
              fst (sweep_loop sorted_heap segment_intersect three_segments X 40 G
                              (with_room 1 st)) = Returned g
              /\ length (g_sections g) = 5))
  /\ fst (sweep_graph sorted_heap segment_intersect three_segments X 10
                      no_globals (Fin 1))
     = Aborted OutOfRange
  /\ (forall H z m e xs,
        length m < e + length xs -> push_them H m e xs z = Err OutOfRange).
Proof.
  split; [reflexivity|]. split; [reflexivity|]. split; [|split].
  - eexists. eexists. split; [vm_compute; reflexivity|].
    split; [reflexivity|]. split; [reflexivity|].
    split; [vm_compute; reflexivity|]. split.
    + eexists. eexists. split; [vm_compute; reflexivity|].
      split; reflexivity.
    + eexists. split; [vm_compute; reflexivity|]. reflexivity.
  - vm_compute. reflexivity.
  - intros H z m e xs L. unfold push_them.
    destruct (Nat.leb_spec (e + length xs) (length m)); [lia|reflexivity].
Qed.


(** * Further properties *)

(** ** Order of coordinates *)

Lemma Qle_bool_false x y : Qle_bool x y = false <-> (y < x)%Q.
Proof.
  split.
  - intros E. apply Qnot_le_lt. intros L. apply Qle_bool_iff in L. congruence.
  - intros L. destruct (Qle_bool x y) eqn:E; auto.
    apply Qle_bool_iff in E. lra.
Qed.

Ltac qbool :=
  repeat match goal with
         | H : negb _ = true |- _ => apply negb_true_iff in H
         | H : negb _ = false |- _ => apply negb_false_iff in H
         | H : Qle_bool _ _ = true |- _ => apply Qle_bool_iff in H
         | H : Qle_bool _ _ = false |- _ => apply Qle_bool_false in H
         | H : Qeq_bool _ _ = true |- _ => apply Qeq_bool_iff in H
         | H : Qeq_bool _ _ = false |- _ => apply Qeq_bool_neq in H
         | |- negb _ = true => apply negb_true_iff
         | |- negb _ = false => apply negb_false_iff
         | |- Qle_bool _ _ = true => apply Qle_bool_iff
         | |- Qle_bool _ _ = false => apply Qle_bool_false
         | |- Qeq_bool _ _ = true => apply Qeq_bool_iff
         end.

Lemma ltb_irrefl a : (a <? a)%D = false.
Proof. destruct a; simpl; auto. qbool. lra. Qed.

Lemma ltb_trans a b c :
  (a <? b)%D = true -> (b <? c)%D = true -> (a <? c)%D = true.
Proof.
  destruct a, b, c; simpl; intros; try discriminate; auto. qbool. lra.
Qed.

Lemma ltb_asym a b : (a <? b)%D = true -> (b <? a)%D = false.
Proof.
  destruct a, b; simpl; intros; try discriminate; auto. qbool. lra.
Qed.

Lemma ltb_not_eqb a b : (a <? b)%D = true -> (a ==? b)%D = false /\ (b ==? a)%D = false.
Proof.
  destruct a, b; simpl; intros; try discriminate; auto. qbool.
  split; apply not_true_is_false; intros E; qbool; lra.
Qed.

Lemma eqb_sym a b : (a ==? b)%D = (b ==? a)%D.
Proof.
  destruct a, b; simpl; auto.
  destruct (Qeq_bool q q0) eqn:E, (Qeq_bool q0 q) eqn:E'; auto; qbool.
  - exfalso. apply E'. now symmetry.
  - exfalso. apply E. now symmetry.
Qed.

Lemma eqb_trans a b c :
  (a ==? b)%D = true -> (b ==? c)%D = true -> (a ==? c)%D = true.
Proof.
  destruct a, b, c; simpl; intros; try discriminate; auto. qbool. lra.
Qed.

Lemma ltb_eqb_l a b c :
  (a ==? b)%D = true -> (b <? c)%D = true -> (a <? c)%D = true.
Proof.
  destruct a, b, c; simpl; intros; try discriminate; auto. qbool. lra.
Qed.

Lemma ltb_eqb_r a b c :
  (a <? b)%D = true -> (b ==? c)%D = true -> (a <? c)%D = true.
Proof.
  destruct a, b, c; simpl; intros; try discriminate; auto. qbool. lra.
Qed.

Lemma ltb_total a b :
  D.is_finite a = true -> D.is_finite b = true ->
  (a <? b)%D = true \/ (a ==? b)%D = true \/ (b <? a)%D = true.
Proof.
  destruct a, b; simpl; intros; try discriminate.
  destruct (Q_dec q q0) as [[L|L]|E].
  - left. qbool. lra.
  - right. right. qbool. lra.
  - right. left. now qbool.
Qed.

Lemma lexo_point_lex2 a b d :
  lexo_point a b d
  = lex2 (coord a d) (coord a (other_dim d)) (coord b d) (coord b (other_dim d)).
Proof. destruct d; reflexivity. Qed.

Lemma lex2_irrefl ak as_ : lex2 ak as_ ak as_ = false.
Proof. unfold lex2. now rewrite !ltb_irrefl, andb_false_r. Qed.

Lemma lex2_asym ak as_ bk bs :
  lex2 ak as_ bk bs = true -> lex2 bk bs ak as_ = false.
Proof.
  unfold lex2. intros E. apply orb_true_iff in E. destruct E as [E|E].
  - rewrite (ltb_asym _ _ E). destruct (ltb_not_eqb _ _ E) as [_ ->]. reflexivity.
  - apply andb_true_iff in E. destruct E as [E1 E2].
    rewrite (ltb_asym _ _ E2), andb_false_r, orb_false_r.
    destruct (bk <? ak)%D eqn:L; auto.
    destruct (ltb_not_eqb _ _ L) as [_ N]. congruence.
Qed.

Lemma lex2_trans ak as_ bk bs ck cs :
  lex2 ak as_ bk bs = true -> lex2 bk bs ck cs = true -> lex2 ak as_ ck cs = true.
Proof.
  unfold lex2. intros E F.
  apply orb_true_iff in E. apply orb_true_iff in F. apply orb_true_iff.
  destruct E as [E|E], F as [F|F];
    repeat match goal with H : _ && _ = true |- _ =>
                             apply andb_true_iff in H; destruct H end.
  - left. eapply ltb_trans; eauto.
  - left. eapply ltb_eqb_r; eauto.
  - left. eapply ltb_eqb_l; eauto.
  - right. apply andb_true_iff. split.
    + eapply eqb_trans; eauto.
    + eapply ltb_trans; eauto.
Qed.

(** X1: [lexo_point] is a strict order in either dimension, whatever the
    coordinates are (NaN and infinities included): no point is before
    itself, no two points are before each other, and before is
    transitive. *)
Theorem X1_lexo_point_strict_order a b c d :
  lexo_point a a d = false
  /\ lexo_point a b d && lexo_point b a d = false
  /\ implb (lexo_point a b d && lexo_point b c d) (lexo_point a c d) = true.
Proof.
  rewrite !lexo_point_lex2. split; [apply lex2_irrefl|]. split.
  - destruct (lex2 (coord a d) _ (coord b d) _) eqn:E; auto.
    simpl. eapply lex2_asym; eauto.
  - destruct (lex2 (coord a d) _ (coord b d) _) eqn:E; auto.
    destruct (lex2 (coord b d) _ (coord c d) _) eqn:F; auto.
    simpl. erewrite lex2_trans; eauto.
Qed.

Lemma lex2_total ak as_ bk bs :
  D.is_finite ak = true -> D.is_finite as_ = true ->
  D.is_finite bk = true -> D.is_finite bs = true ->
  lex2 ak as_ bk bs = false -> lex2 bk bs ak as_ = false ->
  (ak ==? bk)%D = true /\ (as_ ==? bs)%D = true.
Proof.
  unfold lex2. intros Fa Fa' Fb Fb' E F.
  apply orb_false_iff in E. apply orb_false_iff in F.
  destruct E as [E1 E2], F as [F1 F2].
  destruct (ltb_total ak bk Fa Fb) as [L|[Q|L]]; try congruence.
  rewrite Q in E2. rewrite eqb_sym, Q in F2. simpl in *.
  split; auto.
  destruct (ltb_total as_ bs Fa' Fb') as [L|[Q'|L]]; congruence.
Qed.

Lemma point_is_finite_coord p d :
  point_is_finite p = true -> D.is_finite (coord p d) = true.
Proof.
  unfold point_is_finite. intros E. apply andb_true_iff in E.
  destruct d; tauto.
Qed.

(** X2: two points with finite coordinates neither of which is before the
    other have equal coordinates: on finite points [lexo_point] is a
    total order. *)
Theorem X2_lexo_point_total a b d :
  point_is_finite a = true -> point_is_finite b = true ->
  lexo_point a b d = false -> lexo_point b a d = false ->
  (coord a X ==? coord b X)%D = true /\ (coord a Y ==? coord b Y)%D = true.
Proof.
  intros Fa Fb. rewrite !lexo_point_lex2. intros E F.
  destruct (lex2_total _ _ _ _
              (point_is_finite_coord a d Fa) (point_is_finite_coord a (other_dim d) Fa)
              (point_is_finite_coord b d Fb) (point_is_finite_coord b (other_dim d) Fb)
              E F) as [K S].
  destruct d; simpl in *; auto.
Qed.

Lemma X2_lexo_point_total_witness :
  point_is_finite (pt 1 2) = true
  /\ lexo_point (pt 1 2) (pt (2 # 2) (4 # 2)) Y = false
  /\ lexo_point (pt (2 # 2) (4 # 2)) (pt 1 2) Y = false
  /\ (coord (pt 1 2) X ==? coord (pt (2 # 2) (4 # 2)) X)%D = true
  /\ (coord (pt 1 2) Y ==? coord (pt (2 # 2) (4 # 2)) Y)%D = true.
Proof.
  split; [reflexivity|]. split; [reflexivity|]. split; [reflexivity|].
  apply (X2_lexo_point_total (pt 1 2) (pt (2 # 2) (4 # 2)) Y); reflexivity.
Defined.

(** ** The constructor of a section *)

(** X3: the constructor of a section orients it: the trailing point is
    never before the leading point in the order of [d]; the two points
    are the curve's points at the two parameters, which are the given
    ones, swapped together with the points or not at all; the section
    starts without winding numbers. *)
Theorem X3_Section_new_oriented c d cix fd td :
  let s := Section_new c d cix fd td in
  lexo_point (tp s) (fp s) d = false
  /\ fp s = pointAt c (f s) /\ tp s = pointAt c (t s)
  /\ ((f s = fd /\ t s = td) \/ (f s = td /\ t s = fd))
  /\ curve s = cix /\ windings s = [].
Proof.
  unfold Section_new.
  destruct (lexo_point (pointAt c td) (pointAt c fd) d) eqn:E; simpl.
  - split; [|now auto 6].
    rewrite lexo_point_lex2 in *. eapply lex2_asym; eauto.
  - split; [exact E | now auto 6].
Qed.

(** ** Nearness *)

Lemma are_near_sym a b : are_near a b = are_near b a.
Proof.
  unfold are_near. rewrite EPSILON_eps.
  destruct a, b; simpl; auto.
  destruct (Qle_bool (q + - q0) eps) eqn:A, (Qle_bool (- eps) (q + - q0)) eqn:B,
           (Qle_bool (q0 + - q) eps) eqn:C, (Qle_bool (- eps) (q0 + - q)) eqn:E;
    simpl; auto; qbool; unfold eps in *; lra.
Qed.

Lemma are_near_refl a : D.is_finite a = true -> are_near a a = true.
Proof.
  destruct a; simpl; try discriminate. intros _.
  unfold are_near. rewrite EPSILON_eps. simpl.
  apply andb_true_iff. split; qbool; unfold eps; lra.
Qed.

Lemma are_near_eqb k y x : (y ==? x)%D = true -> are_near k y = are_near k x.
Proof.
  unfold are_near. rewrite EPSILON_eps.
  destruct k, y, x; simpl; intros; try discriminate; auto. qbool.
  destruct (Qle_bool (q + - q0) eps) eqn:A, (Qle_bool (- eps) (q + - q0)) eqn:B,
           (Qle_bool (q + - q1) eps) eqn:C, (Qle_bool (- eps) (q + - q1)) eqn:E;
    simpl; auto; qbool; unfold eps in *; lra.
Qed.

Lemma eqb_near a b :
  (a ==? b)%D = true -> D.is_finite a = true -> are_near a b = true.
Proof.
  intros E F. rewrite <- (are_near_eqb a a b E). now apply are_near_refl.
Qed.

Lemma gap_not_near up a b :
  D.is_finite a = true -> D.is_finite b = true ->
  gap up (val a) (val b) -> are_near a b = false.
Proof.
  intros Fa Fb G. rewrite (finite_val _ Fa), (finite_val _ Fb).
  unfold are_near. rewrite EPSILON_eps. simpl.
  apply andb_false_iff. unfold gap in G.
  destruct up; [right | left]; qbool; unfold eps in *; lra.
Qed.

Lemma eqb_refl a : D.is_finite a = true -> (a ==? a)%D = true.
Proof. destruct a; simpl; try discriminate. intros _. qbool. reflexivity. Qed.

(** ** [process_splits] adds no value of its own *)

Lemma sort_insert_In x y : forall l, In x (sort_insert y l) <-> x = y \/ In x l.
Proof.
  induction l as [|z l IH]; simpl.
  - intuition.
  - destruct (z <? y)%D; simpl; rewrite ?IH; intuition.
Qed.

Lemma std_sort_In x : forall l, In x (std_sort l) <-> In x l.
Proof.
  induction l as [|y l IH]; simpl; [tauto|].
  rewrite sort_insert_In, IH. intuition.
Qed.

Lemma unique_from_incl {A} (p : A -> A -> bool) : forall l k x,
  In x (unique_from p k l) -> In x l.
Proof.
  induction l as [|y l IH]; intros k x; simpl; auto.
  destruct (p k y); simpl; intros I.
  - right. eapply IH; eauto.
  - destruct I as [->|I]; auto. right. eapply IH; eauto.
Qed.

Lemma std_unique_incl {A} (p : A -> A -> bool) l x :
  In x (std_unique p l) -> In x l.
Proof.
  destruct l as [|y l]; simpl; auto.
  intros [->|I]; auto. right. eapply unique_from_incl; eauto.
Qed.

Lemma erase_front_incl x v y : In y (erase_front_until x v) -> In y v.
Proof.
  destruct (erase_front_suffix x v) as [pre E]. intros I.
  rewrite E. apply in_or_app. now right.
Qed.

Lemma erase_back_incl x v y : In y (erase_back_until x v) -> In y v.
Proof.
  destruct (erase_back_prefix x v) as [post E]. intros I.
  rewrite E. apply in_or_app. now left.
Qed.

Lemma process_splits_incl splits f t x :
  In x (process_splits splits f t) -> In x (splits ++ [f; t]).
Proof.
  unfold process_splits. intros I.
  apply erase_back_incl, erase_front_incl in I.
  assert (J : In x (std_unique are_near (std_sort ((splits ++ [f]) ++ [t])))).
  { destruct (f >? t)%D; auto. now apply in_rev. }
  apply std_unique_incl in J. apply (proj1 (std_sort_In _ _)) in J.
  rewrite <- app_assoc in J. exact J.
Qed.

(** ** The values lie between the ends *)

Lemma gap_trans up a b c : gap up a b -> gap up b c -> gap up a c.
Proof. unfold gap. destruct up; unfold eps; intros; lra. Qed.

Lemma chain_before up : forall pre y r,
  chain (gap up) (pre ++ y :: r) ->
  Forall (fun z => gap up (val z) (val y)) pre.
Proof.
  induction pre as [|a pre IH]; intros y r C; [constructor|].
  pose proof (IH y r (chain_tail _ _ _ C)) as F.
  constructor; auto.
  destruct pre as [|b pre]; simpl in C.
  - tauto.
  - inversion F; subst. eapply gap_trans; [apply C | assumption].
Qed.

Lemma chain_after up : forall l a,
  chain (gap up) (a :: l) ->
  Forall (fun z => gap up (val a) (val z)) l.
Proof.
  induction l as [|b l IH]; intros a C; [constructor|].
  destruct C as [G C]. constructor; auto.
  eapply Forall_impl; [|apply (IH b C)].
  intros z. simpl. apply gap_trans. exact G.
Qed.

Lemma between_fin up f t v :
  up = direction (Fin f) (Fin t) ->
  (if up then f <= v <= t else t <= v <= f)%Q ->
  between (Fin f) (Fin t) (Fin v) = true.
Proof.
  unfold direction, between, Interval_of, Interval_contains. simpl.
  intros ->. rewrite negb_involutive.
  destruct (Qle_bool f t) eqn:L; simpl; intros B;
    apply andb_true_iff; split; qbool; lra.
Qed.

Lemma chain_bounds up c y r l z v :
  chain (gap up) c -> c = y :: r -> c = l ++ [z] -> In v c ->
  (if up then val y <= val v <= val z else val z <= val v <= val y)%Q.
Proof.
  intros C Ey El I.
  assert (Lo : v = y \/ gap up (val y) (val v)).
  { rewrite Ey in I, C. destruct I as [<-|I]; auto. right.
    exact (proj1 (Forall_forall _ _) (chain_after up r y C) v I). }
  assert (Hi : v = z \/ gap up (val v) (val z)).
  { rewrite El in I, C. apply in_app_or in I. destruct I as [I|[<-|[]]]; auto.
    right. exact (proj1 (Forall_forall _ _) (chain_before up l z [] C) v I). }
  unfold gap in *.
  destruct up, Lo as [->|Lo], Hi as [->|Hi]; unfold eps in *; lra.
Qed.

(** ** When both ends survive *)

Lemma unique_from_keeps x : forall l k,
  clear_of x (k :: l) -> holds x (k :: l) ->
  holds x (k :: unique_from are_near k l).
Proof.
  induction l as [|y l IH]; intros k P E; simpl; auto.
  destruct (are_near k y) eqn:N.
  - apply IH.
    + intros z [<-|I]; apply P; simpl; auto.
    + destruct E as (e & [<-|[<-|I]] & Q).
      * exists k. simpl. auto.
      * exists k. split; [now left|]. apply P; [now left|].
        now rewrite <- (are_near_eqb k y x Q).
      * exists e. simpl. auto.
  - destruct E as (e & [<-|I] & Q).
    + exists k. simpl. auto.
    + destruct (IH y) as (r & Ir & Qr).
      * intros z I'. apply P. now right.
      * exists e. auto.
      * exists r. split; auto. now right.
Qed.

Lemma std_unique_keeps x l :
  clear_of x l -> holds x l -> holds x (std_unique are_near l).
Proof.
  destruct l as [|k l]; simpl; auto. apply unique_from_keeps.
Qed.

Lemma erase_front_found x : forall v,
  holds x v -> exists y r, erase_front_until x v = y :: r /\ (y ==? x)%D = true.
Proof.
  induction v as [|z v IH]; intros (e & I & Q); [destruct I|]. simpl.
  unfold D.neqb. destruct (z ==? x)%D eqn:Z; simpl.
  - eauto.
  - apply IH. destruct I as [<-|I]; [congruence|]. exists e. auto.
Qed.

(** The values of [pre] come before [y] in a chain; a value beyond [y]
    is not among them. *)
Lemma chain_not_before up pre y r z :
  chain (gap up) (pre ++ y :: r) ->
  (if up then val y < val z else val z < val y)%Q ->
  In z (pre ++ y :: r) -> In z r.
Proof.
  intros C B I. apply in_app_or in I. destruct I as [I|[<-|I]]; auto.
  - pose proof (proj1 (Forall_forall _ _) (chain_before up pre y r C) z I) as G.
    unfold gap in G. destruct up; unfold eps in *; lra.
  - destruct up; lra.
Qed.

Lemma not_near_apart f t :
  D.is_finite f = true -> D.is_finite t = true -> are_near f t = false ->
  (if direction f t then val f < val t else val t < val f)%Q.
Proof.
  intros Ff Ft N. rewrite (finite_val _ Ff), (finite_val _ Ft) in *.
  unfold direction. simpl. rewrite negb_involutive.
  unfold are_near in N. rewrite EPSILON_eps in N. simpl in N.
  destruct (Qle_bool (val f) (val t)) eqn:L; qbool;
    apply andb_false_iff in N; destruct N as [N|N]; qbool;
    unfold eps in *; lra.
Qed.

Lemma process_splits_keeps_ends splits f t :
  all_finite splits -> D.is_finite f = true -> D.is_finite t = true ->
  are_near f t = false ->
  clear_of f splits -> clear_of t splits ->
  exists y mid z,
    process_splits splits f t = y :: mid ++ [z]
    /\ (y ==? f)%D = true /\ (z ==? t)%D = true.
Proof.
  intros Fs Ff Ft N Pf Pt.
  pose proof (not_near_apart f t Ff Ft N) as Apart.
  unfold process_splits.
  set (all := (splits ++ [f]) ++ [t]).
  assert (Fa : all_finite all).
  { unfold all. apply all_finite_app. split; [apply all_finite_app; split; auto|];
      repeat constructor; auto. }
  assert (Ia : forall x, In x all <-> In x splits \/ x = f \/ x = t).
  { intros x. unfold all. rewrite !in_app_iff. simpl. intuition. }
  assert (Cf : clear_of f all).
  { intros y I. apply Ia in I. destruct I as [I|[->| ->]]; auto.
    - intros _. now apply eqb_refl.
    - rewrite are_near_sym. congruence. }
  assert (Ct : clear_of t all).
  { intros y I. apply Ia in I. destruct I as [I|[->| ->]]; auto.
    - congruence.
    - intros _. now apply eqb_refl. }
  assert (Hf : holds f all) by (exists f; split; [apply Ia; auto | now apply eqb_refl]).
  assert (Ht : holds t all) by (exists t; split; [apply Ia; auto | now apply eqb_refl]).
  set (srt := std_sort all).
  assert (Is : forall x, In x srt <-> In x all) by (intros; apply std_sort_In).
  destruct (std_unique_chain srt) as [Cu Fu].
  { now apply std_sort_finite. }
  { now apply std_sort_sorted. }
  assert (Uf : holds f (std_unique are_near srt)).
  { apply std_unique_keeps.
    - intros y I. apply Cf. now apply Is.
    - destruct Hf as (e & I & Q). exists e. split; auto. now apply Is. }
  assert (Ut : holds t (std_unique are_near srt)).
  { apply std_unique_keeps.
    - intros y I. apply Ct. now apply Is.
    - destruct Ht as (e & I & Q). exists e. split; auto. now apply Is. }
  set (u := std_unique are_near srt) in *.
  set (w := if (f >? t)%D then rev u else u).
  assert (Fw : all_finite w /\ chain (gap (direction f t)) w
               /\ holds f w /\ holds t w).
  { unfold w, direction. destruct (f >? t)%D; simpl; [|auto]. repeat split.
    - now apply all_finite_rev.
    - apply chain_rev in Cu. revert Cu. apply chain_impl.
      intros a b. apply gap_flip.
    - destruct Uf as (e & I & Q). exists e. split; auto. now apply in_rev in I.
    - destruct Ut as (e & I & Q). exists e. split; auto. now apply in_rev in I. }
  destruct Fw as (Fw & Cw & Wf & Wt).
  destruct (erase_front_found f w Wf) as (y & r & Ev & Qy).
  destruct (erase_front_suffix f w) as [pre Ep]. rewrite Ev in Ep.
  (* the value equal to [t] comes after [y] *)
  destruct Wt as (z0 & Iz0 & Qz0).
  assert (Fy : D.is_finite y = true).
  { apply (proj1 (Forall_forall _ _) Fw). rewrite Ep. apply in_or_app. right. now left. }
  assert (Fz0 : D.is_finite z0 = true) by exact (proj1 (Forall_forall _ _) Fw z0 Iz0).
  pose proof (eqb_val _ _ Qy Fy Ff) as Vy.
  pose proof (eqb_val _ _ Qz0 Fz0 Ft) as Vz0.
  assert (Ir : In z0 r).
  { apply (chain_not_before (direction f t) pre y r z0).
    - now rewrite <- Ep.
    - destruct (direction f t); lra.
    - now rewrite <- Ep. }
  rewrite Ev. unfold erase_back_until.
  destruct (erase_front_found t (rev (y :: r))) as (z & r' & Eb & Qz).
  { exists z0. split; auto. apply -> in_rev. now right. }
  rewrite Eb.
  destruct (erase_front_suffix t (rev (y :: r))) as [pre' Ep'].
  rewrite Eb in Ep'.
  apply (f_equal (@rev double)) in Ep'.
  rewrite rev_involutive, rev_app_distr in Ep'. simpl in Ep'.
  (* y :: r = (rev r' ++ [z]) ++ rev pre' *)
  destruct (rev r') as [|y' mid] eqn:Er.
  - simpl in Ep'. injection Ep' as <- _. exfalso.
    pose proof (eqb_val _ _ Qz Fy Ft) as Vt.
    destruct (direction f t); lra.
  - simpl in Ep'. injection Ep' as <- _.
    exists y, mid, z. repeat split; auto. simpl. now rewrite Er.
Qed.

Lemma near_only_if_equal_clear x l : near_only_if_equal x l = true -> clear_of x l.
Proof.
  unfold near_only_if_equal. rewrite forallb_forall. intros F y I N.
  specialize (F y I). now rewrite N in F.
Qed.

Lemma forallb_finite l : forallb D.is_finite l = true -> all_finite l.
Proof. rewrite forallb_forall. intros F. apply Forall_forall. exact F. Qed.

Lemma process_splits_between splits f t :
  all_finite splits -> D.is_finite f = true -> D.is_finite t = true ->
  forallb (between f t) (process_splits splits f t) = true.
Proof.
  intros Fs Ff Ft.
  destruct (process_splits_chain splits f t Fs Ff Ft) as (Fc & C & Hd & Tl).
  set (c := process_splits splits f t) in *.
  apply forallb_forall. intros v I.
  destruct c as [|y r] eqn:Ec; [destruct I|].
  destruct (@exists_last _ (y :: r)) as (l & z & El); [discriminate|].
  pose proof (chain_bounds _ _ _ _ _ _ v C eq_refl El I) as B.
  pose proof (eqb_val _ _ (Hd _ _ eq_refl)
                (proj1 (Forall_forall _ _) Fc y (or_introl eq_refl)) Ff) as Ey.
  assert (Iz : In z (y :: r)) by (rewrite El; apply in_or_app; right; now left).
  pose proof (eqb_val _ _ (Tl _ _ El)
                (proj1 (Forall_forall _ _) Fc z Iz) Ft) as Ez.
  pose proof (proj1 (Forall_forall _ _) Fc v I) as Fv.
  rewrite (finite_val _ Ff), (finite_val _ Ft), (finite_val _ Fv).
  apply (between_fin (direction f t)).
  - now rewrite <- (finite_val _ Ff), <- (finite_val _ Ft).
  - destruct (direction f t); lra.
Qed.

(** X4: the cleaned sequence of [process_splits], for finite values.  It
    holds values of the input only; it runs from [f] to [t], each value
    more than the tolerance beyond the one before; all its values lie
    between [f] and [t]. *)
Theorem X4_process_splits_shape splits f t :
  all_finite splits -> D.is_finite f = true -> D.is_finite t = true ->
  let c := process_splits splits f t in
  incl c (splits ++ [f; t])
  /\ chain (gap (direction f t)) c
  /\ (forall y r, c = y :: r -> (y ==? f)%D = true)
  /\ (forall l z, c = l ++ [z] -> (z ==? t)%D = true)
  /\ forallb (between f t) c = true.
Proof.
  intros Fs Ff Ft c.
  destruct (process_splits_chain splits f t Fs Ff Ft) as (Fc & C & Hd & Tl).
  split; [intros x; apply process_splits_incl|].
  repeat split; auto.
  now apply process_splits_between.
Qed.

Lemma X4_process_splits_shape_witness :
  let c := process_splits [Fin (3 # 4); Fin 2; Fin (1 # 4); Fin (250001 # 1000000)]
                          (Fin 1) (Fin 0) in
  c = [Fin 1; Fin (3 # 4); Fin (1 # 4); Fin 0]
  /\ chain (gap (direction (Fin 1) (Fin 0))) c
  /\ forallb (between (Fin 1) (Fin 0)) c = true.
Proof.
  intros c. split; [reflexivity|].
  destruct (X4_process_splits_shape
              [Fin (3 # 4); Fin 2; Fin (1 # 4); Fin (250001 # 1000000)]
              (Fin 1) (Fin 0)) as (_ & C & _ & _ & B).
  - repeat constructor.
  - reflexivity.
  - reflexivity.
  - split; [exact C | exact B].
Defined.

(** X5: when the two ends are more than the tolerance apart and no raw
    split is within tolerance of an end without being equal to it, the
    cleaned sequence starts with a value equal to [f] and ends with
    another one, equal to [t]: it has a second element. *)
Theorem X5_process_splits_keeps_ends splits f t :
  forallb D.is_finite splits = true ->
  D.is_finite f = true -> D.is_finite t = true ->
  are_near f t = false ->
  near_only_if_equal f splits = true -> near_only_if_equal t splits = true ->
  exists y mid z,
    process_splits splits f t = y :: mid ++ [z]
    /\ (y ==? f)%D = true /\ (z ==? t)%D = true.
Proof.
  intros Fs Ff Ft N Pf Pt.
  apply process_splits_keeps_ends; auto using forallb_finite, near_only_if_equal_clear.
Qed.

Lemma X5_process_splits_keeps_ends_witness :
  exists y mid z,
    process_splits [Fin (1 # 2); Fin 1; Fin (500001 # 1000000); Fin 3] (Fin 0) (Fin 1)
    = y :: mid ++ [z]
    /\ (y ==? Fin 0)%D = true /\ (z ==? Fin 1)%D = true.
Proof.
  apply (X5_process_splits_keeps_ends
           [Fin (1 # 2); Fin 1; Fin (500001 # 1000000); Fin 3] (Fin 0) (Fin 1));
    reflexivity.
Defined.

(** X6: [mono_splits], when the roots of the derivative are finite and none
    is within tolerance of 0 or 1 without being equal to it: the cuts run
    from 0 to 1, ascending, more than the tolerance apart, inside [0,1]. *)
Theorem X6_mono_splits_cuts c :
  let roots := derivative_roots c (Fin 0) X ++ derivative_roots c (Fin 0) Y in
  forallb D.is_finite roots = true ->
  near_only_if_equal (Fin 0) roots = true ->
  near_only_if_equal (Fin 1) roots = true ->
  (exists y mid z, mono_splits c = y :: mid ++ [z]
                   /\ (y ==? Fin 0)%D = true /\ (z ==? Fin 1)%D = true)
  /\ chain (gap true) (mono_splits c)
  /\ forallb (between (Fin 0) (Fin 1)) (mono_splits c) = true.
Proof.
  intros roots Fr P0 P1. unfold mono_splits. fold roots.
  split; [|split].
  - apply process_splits_keeps_ends;
      auto using forallb_finite, near_only_if_equal_clear.
  - now destruct (process_splits_chain roots (Fin 0) (Fin 1)
                    (forallb_finite _ Fr) eq_refl eq_refl) as (_ & C & _).
  - apply process_splits_between; auto using forallb_finite.
Qed.

(** ** The pieces of a split *)

Lemma sections_between_pieces s up c d : forall cuts,
  all_finite cuts -> chain (gap up) cuts ->
  forallb (between (f s) (t s)) cuts = true ->
  Forall (fun r => piece_of s r /\ windings r = [])
         (sections_between c d (curve s) cuts).
Proof.
  induction cuts as [|a cuts IH]; intros F C B; [constructor|].
  destruct cuts as [|b cuts]; [constructor|].
  inversion F as [|? ? Fa F']; subst. inversion F' as [|? ? Fb _]; subst.
  destruct C as [G C].
  simpl in B. apply andb_true_iff in B. destruct B as [Ba B].
  pose proof B as B'. simpl in B'. apply andb_true_iff in B'. destruct B' as [Bb _].
  change (Forall (fun r => piece_of s r /\ windings r = [])
            (Section_new c d (curve s) a b :: sections_between c d (curve s) (b :: cuts))).
  constructor; [|apply IH; auto].
  pose proof (gap_not_near up a b Fa Fb G) as N.
  unfold Section_new, piece_of. destruct (lexo_point _ _ d); simpl; repeat split; auto.
  now rewrite are_near_sym.
Qed.

Lemma leb_refl a : D.is_finite a = true -> (a <=? a)%D = true.
Proof. destruct a; simpl; try discriminate. intros _. qbool. lra. Qed.

Lemma between_left f t : D.is_finite f = true -> D.is_finite t = true ->
  between f t f = true.
Proof.
  intros Ff Ft. rewrite (finite_val _ Ff), (finite_val _ Ft).
  apply (between_fin (direction (Fin (val f)) (Fin (val t)))); auto.
  unfold direction. simpl. rewrite negb_involutive.
  destruct (Qle_bool (val f) (val t)) eqn:L; qbool; lra.
Qed.

Lemma split_section_pieces s ps cuts d s' rest :
  finite_section s = true -> all_finite cuts ->
  split_section s ps cuts d = Ok (s', rest) ->
  (curve s' = curve s /\ f s' = f s /\ fp s' = fp s /\ windings s' = windings s)
  /\ (coord (tp s') d >=? coord (fp s') d)%D = true
  /\ (exists c, get (curve s) ps = Ok c /\ tp s' = pointAt c (t s'))
  /\ piece_of s s'
  /\ Forall (fun r => piece_of s r /\ windings r = []) rest
  /\ length rest + 2 = length (process_splits cuts (f s) (t s)).
Proof.
  intros Fs Fc. destruct (finite_section_ft _ Fs) as [Ff Ft].
  unfold split_section, bind.
  destruct (process_splits_chain cuts (f s) (t s) Fc Ff Ft) as (Fa & C & Hd & Tl).
  pose proof (process_splits_between cuts (f s) (t s) Fc Ff Ft) as B.
  set (c := process_splits cuts (f s) (t s)) in *.
  destruct (get (curve s) ps) as [cv|]; [|discriminate].
  destruct (at_ c 1) as [c1|] eqn:E1; [|discriminate].
  unfold set_to. destruct (_ >=? _)%D eqn:A; [|discriminate].
  intros [= <- <-].
  destruct c as [|c0 [|c1' r]]; try discriminate.
  injection E1 as ->.
  inversion Fa as [|? ? F0 Fa']; subst. inversion Fa' as [|? ? F1 _]; subst.
  pose proof (Hd _ _ eq_refl) as E0.
  simpl in B. apply andb_true_iff in B. destruct B as [B0 B].
  pose proof B as B'. simpl in B'. apply andb_true_iff in B'. destruct B' as [B1 _].
  simpl. refine (conj _ (conj _ (conj _ (conj _ (conj _ _))))).
  - auto.
  - exact A.
  - eauto.
  - unfold piece_of. simpl. repeat split; auto.
    + now apply between_left.
    + rewrite (are_near_sym (f s) c1), <- (are_near_eqb c1 c0 (f s) E0), are_near_sym.
      exact (gap_not_near _ c0 c1 F0 F1 (proj1 C)).
  - apply (sections_between_pieces s (direction (f s) (t s)) cv d (c1 :: r)); auto.
    eapply chain_tail; eauto.
  - clear. revert c1. induction r as [|b r IH]; intros c1; simpl; auto.
Qed.

(** X7: what [split_section] returns when it returns, for a section and
    cuts with finite parameters: the section keeps its curve, leading
    parameter, leading point and winding numbers; its new trailing point
    is the curve's point at its new trailing parameter and is not before
    the leading point on axis [d]; the section and the returned rest are
    pieces of the section as it was (same curve, parameters between its
    parameters, more than the tolerance apart); their weights add up to
    no more than its weight; and there is one piece per gap of the
    cleaned cut sequence. *)
Theorem X7_split_section_pieces s ps cuts d s' rest :
  finite_section s = true -> forallb D.is_finite cuts = true ->
  split_section s ps cuts d = Ok (s', rest) ->
  (curve s' = curve s /\ f s' = f s /\ fp s' = fp s /\ windings s' = windings s)
  /\ (coord (tp s') d >=? coord (fp s') d)%D = true
  /\ (exists c, get (curve s) ps = Ok c /\ tp s' = pointAt c (t s'))
  /\ Forall (piece_of s) (s' :: rest)
  /\ weight s' + total_weight rest <= weight s
  /\ length rest + 2 = length (process_splits cuts (f s) (t s)).
Proof.
  intros Fs Fc E. apply forallb_finite in Fc.
  destruct (split_section_pieces _ _ _ _ _ _ Fs Fc E) as (A & B & C & P & R & L).
  destruct (split_section_weight _ _ _ _ _ _ Fs Fc E) as (W & _).
  repeat split; try tauto.
  constructor; auto. eapply Forall_impl; [|exact R]. simpl. tauto.
Qed.

(** X8: when [split_section] stays in range: for a section with finite
    parameters more than the tolerance apart, naming a curve of the
    input, and finite cuts none of which is within the tolerance of one
    of its parameters without being equal to it, [cuts[1]] exists, and
    the call fails only by the assertion of [set_to]. *)
Theorem X8_split_section_in_bounds s ps cuts d c :
  finite_section s = true -> forallb D.is_finite cuts = true ->
  are_near (f s) (t s) = false ->
  near_only_if_equal (f s) cuts = true -> near_only_if_equal (t s) cuts = true ->
  get (curve s) ps = Ok c ->
  exists c1,
    at_ (process_splits cuts (f s) (t s)) 1 = Ok c1
    /\ if (coord (pointAt c c1) d >=? coord (fp s) d)%D
       then exists s' rest, split_section s ps cuts d = Ok (s', rest)
       else split_section s ps cuts d = Err AssertionFailed.
Proof.
  intros Fs Fc N Pf Pt G. destruct (finite_section_ft _ Fs) as [Ff Ft].
  destruct (process_splits_keeps_ends cuts (f s) (t s)) as (y & mid & z & E & _);
    auto using forallb_finite, near_only_if_equal_clear.
  unfold split_section, bind. rewrite E, G.
  destruct mid as [|m mid]; simpl.
  - exists z. split; auto. unfold set_to.
    destruct (_ >=? _)%D; eauto.
  - exists m. split; auto. unfold set_to.
    destruct (_ >=? _)%D; eauto.
Qed.

(** ** [find_vertex] *)

Lemma find_vertex_from_first p : forall vs i0 j v,
  i0 + j < find_vertex_from vs p i0 -> nth_error vs j = Some v ->
  are_near_point (avg v) p = false.
Proof.
  induction vs as [|x vs IH]; intros i0 j v L N; [destruct j; discriminate|].
  simpl in L. destruct (are_near_point (avg x) p) eqn:E; [lia|].
  destruct j as [|j]; simpl in N.
  - now injection N as <-.
  - apply (IH (S i0) j v); auto. lia.
Qed.

Lemma find_vertex_from_app p : forall vs ws i0,
  Forall (fun v => are_near_point (avg v) p = false) vs ->
  find_vertex_from (vs ++ ws) p i0 = find_vertex_from ws p (i0 + length vs).
Proof.
  induction vs as [|x vs IH]; intros ws i0 F; simpl.
  - now rewrite Nat.add_0_r.
  - inversion F as [|? ? E F']; subst. rewrite E, IH by auto. f_equal. lia.
Qed.

Lemma find_vertex_from_none p : forall vs i0,
  find_vertex_from vs p i0 = i0 + length vs ->
  Forall (fun v => are_near_point (avg v) p = false) vs.
Proof.
  induction vs as [|x vs IH]; intros i0 E; [constructor|].
  simpl in E. destruct (are_near_point (avg x) p) eqn:N; [lia|].
  constructor; auto. apply (IH (S i0)). lia.
Qed.

(** X9: [find_vertex] returns the first Vertex within tolerance of the
    point and leaves the vector as it is, or, when there is none,
    appends a Vertex for the point and returns its index. *)
Theorem X9_find_vertex_first_near vertices p :
  let i := fst (find_vertex vertices p) in
  let vs := snd (find_vertex vertices p) in
  (forall j v, j < i -> nth_error vertices j = Some v ->
               are_near_point (avg v) p = false)
  /\ ((exists v, nth_error vertices i = Some v
                 /\ are_near_point (avg v) p = true /\ vs = vertices)
      \/ (i = length vertices /\ vs = vertices ++ [Vertex_new p]
          /\ nth_error vs i = Some (Vertex_new p))).
Proof.
  unfold find_vertex. simpl. split.
  - intros j v L N. apply (find_vertex_from_first p vertices 0 j v); auto.
  - destruct (find_vertex_from_spec p vertices 0) as (n & -> & K). simpl.
    destruct K as [(v & N & K)| ->].
    + assert (n < length vertices) by (apply nth_error_Some; congruence).
      destruct (Nat.eqb_spec n (length vertices)); [lia|]. left. eauto.
    + rewrite Nat.eqb_refl. right. repeat split.
      rewrite nth_error_app2, Nat.sub_diag; auto.
Qed.

Lemma are_near_point_refl p : point_is_finite p = true -> are_near_point p p = true.
Proof.
  unfold point_is_finite, are_near_point. intros F.
  apply andb_true_iff in F. destruct F as [Fx Fy].
  now rewrite !are_near_refl.
Qed.

(** X10: looking a finite point up again finds the Vertex the first lookup
    returned, and adds nothing. *)
Theorem X10_find_vertex_again vertices p :
  point_is_finite p = true ->
  find_vertex (snd (find_vertex vertices p)) p
  = (fst (find_vertex vertices p), snd (find_vertex vertices p)).
Proof.
  intros F. unfold find_vertex at 2 3 4. simpl.
  destruct (find_vertex_from_spec p vertices 0) as (n & E & K). simpl in E.
  rewrite E. destruct K as [(v & N & K)| ->].
  - assert (n < length vertices) by (apply nth_error_Some; congruence).
    destruct (Nat.eqb_spec n (length vertices)); [lia|].
    unfold find_vertex. rewrite E.
    destruct (Nat.eqb_spec n (length vertices)); [lia|]. reflexivity.
  - rewrite Nat.eqb_refl. unfold find_vertex.
    rewrite find_vertex_from_app by (apply (find_vertex_from_none p vertices 0); exact E).
    simpl. rewrite (are_near_point_refl p F), length_app. simpl.
    destruct (Nat.eqb_spec (length vertices) (length vertices + 1)); [lia|].
    reflexivity.
Qed.

Lemma X10_find_vertex_again_witness :
  let vs := [Vertex_new (pt 0 0); Vertex_new (pt 3 4)] in
  point_is_finite (pt 1 1) = true
  /\ find_vertex vs (pt 1 1) = (2, vs ++ [Vertex_new (pt 1 1)])
  /\ find_vertex (snd (find_vertex vs (pt 1 1))) (pt 1 1)
     = (fst (find_vertex vs (pt 1 1)), snd (find_vertex vs (pt 1 1))).
Proof.
  intros vs. split; [reflexivity|]. split; [reflexivity|].
  apply (X10_find_vertex_again vs (pt 1 1)). reflexivity.
Defined.

(** ** [std::lower_bound] *)

Lemma at_in_range {A} (v : list A) i : i < length v -> exists a, at_ v i = Ok a.
Proof.
  intros L. destruct (nth_error v i) as [a|] eqn:E.
  - exists a. now apply at_Ok.
  - apply nth_error_None in E. lia.
Qed.

Lemma div2_lt n : 0 < n -> Nat.div2 n < n.
Proof. apply Nat.lt_div2. Qed.

Lemma lower_bound_loop_range {A} (comp : A -> result bool) v : forall fuel first len i,
  lower_bound_loop comp v fuel first len = Ok i -> first <= i <= first + len.
Proof.
  induction fuel as [|fuel IH]; intros first len i E; simpl in E.
  - injection E as <-. lia.
  - destruct (Nat.eqb_spec len 0) as [->|N]; [injection E as <-; lia|].
    assert (L : Nat.div2 len < len) by (apply div2_lt; lia).
    unfold bind in E.
    destruct (at_ v (first + Nat.div2 len)) as [m|]; [|discriminate].
    remember (Nat.div2 len) as h.
    destruct (comp m) as [[|]|]; [| |discriminate]; apply IH in E; lia.
Qed.

Lemma lower_bound_loop_partition {A} (comp : A -> result bool) v k :
  (forall j e, nth_error v j = Some e -> comp e = Ok (j <? k)) ->
  forall fuel first len,
  len <= fuel -> first <= k <= first + len -> first + len <= length v ->
  lower_bound_loop comp v fuel first len = Ok k.
Proof.
  intros P. induction fuel as [|fuel IH]; intros first len F K L; simpl.
  - f_equal. lia.
  - destruct (Nat.eqb_spec len 0) as [->|N]; [f_equal; lia|].
    assert (L2 : Nat.div2 len < len) by (apply div2_lt; lia).
    destruct (at_in_range v (first + Nat.div2 len)) as (m & M); [lia|].
    unfold bind. rewrite M. apply at_Ok in M. rewrite (P _ _ M).
    remember (Nat.div2 len) as h.
    destruct (Nat.ltb_spec (first + h) k); apply IH; lia.
Qed.

Lemma lower_bound_range {A} (v : list A) x comp i :
  lower_bound v x comp = Ok i -> i <= length v.
Proof.
  unfold lower_bound. intros E. apply lower_bound_loop_range in E. lia.
Qed.

(** X11: the index [std::lower_bound] returns lies within the vector, so
    that [context.insert(context.begin() + context_ix, *s)] is in range,
    whatever the comparator answers. *)
Theorem X11_lower_bound_in_range {A} (v : list A) x comp i :
  lower_bound v x comp = Ok i -> i <= length v.
Proof. apply lower_bound_range. Qed.

(** X12: on a vector the comparator partitions (true against the value up
    to position [k], false from there on) the binary search returns
    [k]. *)
Theorem X12_lower_bound_partition {A} (v : list A) x comp k :
  k <= length v ->
  (forall j e, nth_error v j = Some e -> comp e x = Ok (j <? k)) ->
  lower_bound v x comp = Ok k.
Proof.
  intros K P. unfold lower_bound.
  apply (lower_bound_loop_partition (fun e => comp e x) v k P); lia.
Qed.

(** ** The winding loop, for any context *)

Lemma update_in_range {A} (g : A -> A) : forall (v : list A) i,
  i < length v -> exists v', update v i g = Ok v'.
Proof.
  induction v as [|a v IH]; intros i L; simpl in L; [lia|].
  destruct i as [|i]; simpl; [eauto|].
  destruct (IH i) as (v' & ->); [lia|]. simpl. eauto.
Qed.

Lemma update_length {A} (g : A -> A) (v : list A) i v' :
  update v i g = Ok v' -> length v' = length v.
Proof. intros E. apply update_Ok in E. destruct E as (a & _ & L & _). exact L. Qed.

Lemma Zsum_app a b : Zsum (a ++ b) = (Zsum a + Zsum b)%Z.
Proof. induction a as [|x a IH]; simpl; [reflexivity|]. rewrite IH. lia. Qed.

Lemma Zsum_repeat n : Zsum (repeat 0%Z n) = 0%Z.
Proof. induction n; simpl; auto. Qed.

Lemma Zsum_update g d : forall v i v',
  (forall z, g z = (z + d)%Z) ->
  update v i g = Ok v' -> Zsum v' = (Zsum v + d)%Z.
Proof.
  induction v as [|a v IH]; intros i v' G E; simpl in E; [discriminate|].
  destruct i as [|i].
  - injection E as <-. simpl. rewrite G. lia.
  - unfold bind in E. destruct (update v i g) as [r|] eqn:U; [|discriminate].
    injection E as <-. simpl. rewrite (IH _ _ G U). lia.
Qed.

Lemma resize_grow w n :
  length w <= n -> length (resize w n) = n /\ Zsum (resize w n) = Zsum w.
Proof.
  intros L. unfold resize. rewrite firstn_all2 by exact L.
  rewrite length_app, repeat_length, Zsum_app, Zsum_repeat. split; lia.
Qed.

Lemma winding_loop_cons cj rest j w :
  winding_loop (cj :: rest) j w =
  (let k := path (curve cj) in
   let w := if length w <=? k then resize w (k + 1) else w in
   if (coord (fp cj) X ==? coord (tp cj) X)%D then winding_loop rest (S j) w
   else
     w <- (if (f cj <? t cj)%D then update w k Z.succ else Ok w) ;;
     w <- (if (f cj >? t cj)%D then update w j Z.pred else Ok w) ;;
     winding_loop rest (S j) w).
Proof. reflexivity. Qed.

Lemma resized w k :
  let w1 := if length w <=? k then resize w (k + 1) else w in
  length w1 = Nat.max (length w) (S k) /\ Zsum w1 = Zsum w /\ k < length w1.
Proof.
  simpl. destruct (Nat.leb_spec (length w) k) as [L|L].
  - destruct (resize_grow w (k + 1)) as (A & B); [lia|]. rewrite A, B. lia.
  - lia.
Qed.

Lemma paths_bound_cons cj rest :
  paths_bound (cj :: rest) = Nat.max (S (path (curve cj))) (paths_bound rest).
Proof. reflexivity. Qed.

Lemma Zsum_net_cons cj rest :
  Zsum (map net (cj :: rest)) = (net cj + Zsum (map net rest))%Z.
Proof. reflexivity. Qed.

Lemma winding_loop_counts : forall below j w w',
  winding_loop below j w = Ok w' ->
  length w' = Nat.max (length w) (paths_bound below)
  /\ Zsum w' = (Zsum w + Zsum (map net below))%Z.
Proof.
  induction below as [|cj rest IH]; intros j w w' E.
  - injection E as <-. simpl. split; lia.
  - rewrite winding_loop_cons in E. cbv zeta in E.
    destruct (resized w (path (curve cj))) as (L1 & S1 & _).
    remember (if length w <=? path (curve cj)
              then resize w (path (curve cj) + 1) else w) as w1 eqn:W1.
    rewrite paths_bound_cons, Zsum_net_cons. unfold net at 1.
    destruct (coord (fp cj) X ==? coord (tp cj) X)%D.
    + apply IH in E. destruct E as (A & B). rewrite A, B, L1, S1. split; lia.
    + unfold bind in E.
      destruct (f cj <? t cj)%D.
      * destruct (update w1 (path (curve cj)) Z.succ) as [w2|] eqn:U2; [|discriminate].
        assert (S2 : Zsum w2 = (Zsum w1 + 1)%Z)
          by (apply (Zsum_update Z.succ 1 _ _ _ ltac:(intros; lia) U2)).
        apply update_length in U2.
        destruct (f cj >? t cj)%D.
        -- destruct (update w2 j Z.pred) as [w3|] eqn:U3; [|discriminate].
           assert (S3 : Zsum w3 = (Zsum w2 + -1)%Z)
             by (apply (Zsum_update Z.pred (-1) _ _ _ ltac:(intros; lia) U3)).
           apply update_length in U3.
           apply IH in E. destruct E as (A & B). rewrite A, B. split; lia.
        -- apply IH in E. destruct E as (A & B). rewrite A, B. split; lia.
      * destruct (f cj >? t cj)%D.
        -- destruct (update w1 j Z.pred) as [w3|] eqn:U3; [|discriminate].
           assert (S3 : Zsum w3 = (Zsum w1 + -1)%Z)
             by (apply (Zsum_update Z.pred (-1) _ _ _ ltac:(intros; lia) U3)).
           apply update_length in U3.
           apply IH in E. destruct E as (A & B). rewrite A, B. split; lia.
        -- apply IH in E. destruct E as (A & B). rewrite A, B. split; lia.
Qed.

Lemma winding_loop_total : forall below j w,
  j + length below <= length w -> exists w', winding_loop below j w = Ok w'.
Proof.
  induction below as [|cj rest IH]; intros j w L; [simpl; eauto|].
  rewrite winding_loop_cons. cbv zeta. simpl in L.
  destruct (resized w (path (curve cj))) as (L1 & _ & K1).
  remember (if length w <=? path (curve cj)
            then resize w (path (curve cj) + 1) else w) as w1 eqn:W1.
  destruct (coord (fp cj) X ==? coord (tp cj) X)%D; [apply IH; lia|].
  unfold bind.
  assert (U : exists w2, (if (f cj <? t cj)%D
                          then update w1 (path (curve cj)) Z.succ else Ok w1) = Ok w2
                         /\ length w2 = length w1).
  { destruct (f cj <? t cj)%D; [|eauto].
    destruct (update_in_range Z.succ w1 (path (curve cj)) K1) as (w2 & U2).
    exists w2. split; [exact U2|]. now apply update_length in U2. }
  destruct U as (w2 & -> & L2).
  assert (U : exists w3, (if (f cj >? t cj)%D then update w2 j Z.pred else Ok w2) = Ok w3
                         /\ length w3 = length w2).
  { destruct (f cj >? t cj)%D; [|eauto].
    destruct (update_in_range Z.pred w2 j) as (w3 & U3); [lia|].
    exists w3. split; [exact U3|]. now apply update_length in U3. }
  destruct U as (w3 & -> & L3). apply IH. lia.
Qed.

(** X13: with a counter for every member below (at least as many counters
    as sections below the finished one, counted from [j]) the winding
    loop stays in range. *)
Theorem X13_winding_loop_in_range below j w :
  j + length below <= length w -> exists w', winding_loop below j w = Ok w'.
Proof. apply winding_loop_total. Qed.

(** X14: the loop never shrinks the vector of counters: it ends with one
    counter for every path index met, and the counters add up to the ups
    minus the downs among the sections below, wherever the decrement
    landed. *)
Theorem X14_winding_loop_counts below j w w' :
  winding_loop below j w = Ok w' ->
  length w' = Nat.max (length w) (paths_bound below)
  /\ Zsum w' = (Zsum w + Zsum (map net below))%Z.
Proof. apply winding_loop_counts. Qed.

Lemma gtb_ltb_excl a b : (a <? b)%D = true -> (a >? b)%D = false.
Proof. intros L. unfold D.gtb. destruct (b <? a)%D eqn:G; auto.
  now rewrite (ltb_asym a b L) in G. Qed.

Lemma winding_by_path_cons cj rest w :
  winding_by_path (cj :: rest) w =
  (let k := path (curve cj) in
   let w := if length w <=? k then resize w (k + 1) else w in
   let bump (g : Z -> Z) (w : list Z) :=
     match update w k g with Ok w' => w' | Err _ => w end in
   if (coord (fp cj) X ==? coord (tp cj) X)%D then winding_by_path rest w
   else if (f cj <? t cj)%D then winding_by_path rest (bump Z.succ w)
   else if (f cj >? t cj)%D then winding_by_path rest (bump Z.pred w)
   else winding_by_path rest w).
Proof. reflexivity. Qed.

(** X15: as long as no counted section below runs against its curve's
    parameter, the loop computes the count per path. *)
Theorem X15_winding_loop_by_path : forall below j w,
  none_reversed below = true ->
  winding_loop below j w = Ok (winding_by_path below w).
Proof.
  induction below as [|cj rest IH]; intros j w N; [reflexivity|].
  rewrite winding_loop_cons, winding_by_path_cons. cbv zeta.
  unfold none_reversed in N. rewrite forallb_forall in N.
  assert (N1 := N cj (or_introl eq_refl)).
  assert (N2 : none_reversed rest = true)
    by (apply forallb_forall; intros x I; apply N; now right).
  destruct (resized w (path (curve cj))) as (_ & _ & K1).
  remember (if length w <=? path (curve cj)
            then resize w (path (curve cj) + 1) else w) as w1 eqn:W1.
  destruct (coord (fp cj) X ==? coord (tp cj) X)%D; [now apply IH|].
  cbn [orb] in N1. apply negb_true_iff in N1. rewrite N1. unfold bind.
  destruct (f cj <? t cj)%D.
  - destruct (update_in_range Z.succ w1 (path (curve cj)) K1) as (w2 & ->).
    now apply IH.
  - now apply IH.
Qed.

(** ** The finishing loop *)

Lemma erase_at_split {A} (l : list A) i a :
  nth_error l i = Some a ->
  exists l1 l2, l = l1 ++ a :: l2 /\ erase_at l i = l1 ++ l2.
Proof.
  intros N. destruct (nth_error_split l i N) as (l1 & l2 & -> & L).
  exists l1, l2. split; [reflexivity|]. unfold erase_at. subst i.
  rewrite firstn_app, Nat.sub_diag, firstn_all, app_nil_r. simpl.
  f_equal. clear N. induction l1 as [|x l1 IH]; simpl; auto.
Qed.

Lemma finish_loop_moves lim : forall n st st',
  finish_loop n lim st = Ok st' ->
  exists out,
    st_sections st' = st_sections st ++ out
    /\ Forall (fun r => finished lim r = true) out
    /\ Permutation (map without_windings (st_context st' ++ out))
                   (map without_windings (st_context st))
    /\ filter (fun c => negb (finished lim c)) (st_context st')
       = filter (fun c => negb (finished lim c)) (st_context st)
    /\ (length (st_vix st) = length (st_context st) ->
        length (st_vix st') = length (st_context st')).
Proof.
  induction n as [|i IH]; intros st st' E.
  - injection E as <-. exists []. rewrite !app_nil_r. repeat split; auto.
  - rewrite finish_loop_S in E. unfold bind in E.
    destruct (at_ (st_context st) i) as [ci|] eqn:C; [|discriminate].
    destruct (finished lim ci) eqn:Fi; [|now apply IH].
    destruct (winding_loop _ _ _) as [w|]; [|discriminate].
    destruct (find_vertex (st_vertices st) (tp ci)) as [vert vs].
    destruct (at_ (st_vix st) i) as [vi|] eqn:V; [|discriminate].
    destruct (vert =? vi); [now apply IH in E|].
    cbv zeta in E.
    destruct (update vs vi _) as [vs1|]; [|discriminate].
    destruct (update vs1 vert _) as [vs2|]; [|discriminate].
    apply IH in E. simpl in E. destruct E as (out & S1 & F1 & P1 & K1 & L1).
    apply at_Ok in C, V.
    destruct (erase_at_split _ _ _ C) as (l1 & l2 & E1 & E2).
    destruct (erase_at_split _ _ _ V) as (x1 & x2 & E3 & E4).
    exists (with_windings ci w :: out).
    split; [now rewrite S1, <- app_assoc|].
    split; [constructor; [exact Fi|exact F1]|].
    split.
    { rewrite E1. rewrite map_app in *. simpl.
      change (without_windings (with_windings ci w)) with (without_windings ci).
      rewrite <- Permutation_middle.
      rewrite map_app. simpl. rewrite <- Permutation_middle.
      apply perm_skip. rewrite P1, E2, map_app. reflexivity. }
    split.
    { rewrite K1, E2, E1, !filter_app. simpl. now rewrite Fi. }
    intros L. apply L1. rewrite E2, E4. rewrite E1, E3 in L.
    rewrite !length_app in *. simpl in L. lia.
Qed.

(** X16: the finishing loop moves sections from the context to the output
    and loses none: the output grows at its end, by finished sections
    only; context and new output together hold the sections the context
    held (up to the winding numbers written into the output); the
    unfinished members keep their order; [vix] stays as long as the
    context; and the pending heap is not touched. *)
Theorem X16_finish_loop_moves lim n st st' :
  finish_loop n lim st = Ok st' ->
  (exists out,
    st_sections st' = st_sections st ++ out
    /\ Forall (fun r => finished lim r = true) out
    /\ Permutation (map without_windings (st_context st' ++ out))
                   (map without_windings (st_context st))
    /\ filter (fun c => negb (finished lim c)) (st_context st')
       = filter (fun c => negb (finished lim c)) (st_context st)
    /\ (length (st_vix st) = length (st_context st) ->
        length (st_vix st') = length (st_context st')))
  /\ st_monos st' = st_monos st /\ st_monos_end st' = st_monos_end st.
Proof.
  intros E. split; [now apply (finish_loop_moves lim n)|].
  apply finish_loop_potential in E. tauto.
Qed.

(** ** Induction over the loops of the sweep *)

Section Induction.

Variable H : heap_algorithms.
Variable mono_intersect : Curve -> Interval -> Curve -> Interval -> list Crossing.
Variable ps : list Path.
Variable d : Dim2.

Lemma finish_loop_ind (Q : sweep_state -> Prop) lim :
  (forall st i ci w vert vs vi,
     Q st -> at_ (st_context st) i = Ok ci -> finished lim ci = true ->
     winding_loop (firstn i (st_context st)) 0 (fill_zero (st_windings st)) = Ok w ->
     find_vertex (st_vertices st) (tp ci) = (vert, vs) ->
     at_ (st_vix st) i = Ok vi -> vert = vi ->
     Q (mkState (st_monos st) (st_monos_end st) (st_context st) (st_vix st)
                vs (st_sections st) w)) ->
  (forall st i ci w vert vs vi vs1 vs2,
     Q st -> at_ (st_context st) i = Ok ci -> finished lim ci = true ->
     winding_loop (firstn i (st_context st)) 0 (fill_zero (st_windings st)) = Ok w ->
     find_vertex (st_vertices st) (tp ci) = (vert, vs) ->
     at_ (st_vix st) i = Ok vi -> vert <> vi ->
     update vs vi (push_exit (mkEdge (length (st_sections st)) vert)) = Ok vs1 ->
     update vs1 vert (push_enter (mkEdge (length (st_sections st)) vi)) = Ok vs2 ->
     Q (mkState (st_monos st) (st_monos_end st)
                (erase_at (st_context st) i) (erase_at (st_vix st) i)
                vs2 (st_sections st ++ [with_windings ci w]) w)) ->
  forall n st st', finish_loop n lim st = Ok st' -> Q st -> Q st'.
Proof.
  intros Keep Move. induction n as [|i IH]; intros st st' E q.
  - now injection E as <-.
  - rewrite finish_loop_S in E. unfold bind in E.
    destruct (at_ (st_context st) i) as [ci|] eqn:C; [|discriminate].
    destruct (finished lim ci) eqn:Fi; [|now apply (IH st)].
    destruct (winding_loop _ _ _) as [w|] eqn:W; [|discriminate].
    destruct (find_vertex (st_vertices st) (tp ci)) as [vert vs] eqn:V.
    destruct (at_ (st_vix st) i) as [vi|] eqn:Vi; [|discriminate].
    destruct (Nat.eqb_spec vert vi) as [Ev|Ev].
    + apply (IH _ _ E). now apply (Keep st i ci w vert vs vi).
    + cbv zeta in E.
      replace (length (st_sections st ++ [with_windings ci w]) - 1)
        with (length (st_sections st)) in E by (rewrite length_app; simpl; lia).
      destruct (update vs vi _) as [vs1|] eqn:U1; [|discriminate].
      destruct (update vs1 vert _) as [vs2|] eqn:U2; [|discriminate].
      apply (IH _ _ E). now apply (Move st i ci w vert vs vi vs1 vs2).
Qed.

Lemma neighbour_loop_ind (Q : sweep_state -> list double -> Prop) s cx si :
  (forall i st ts ci sv cs cc ci' rest ctx m e,
     Q st ts -> i <> cx ->
     at_ (st_context st) i = Ok ci ->
     at_ (st_monos st) s = Ok sv ->
     get (curve sv) ps = Ok cs -> get (curve ci) ps = Ok cc ->
     split_section ci ps
       (map (@tb) (mono_intersect cs (Interval_of (f sv) (t sv))
                                  cc (Interval_of (f ci) (t ci)))) d = Ok (ci', rest) ->
     update (st_context st) i (fun _ => ci') = Ok ctx ->
     push_them H (st_monos st) (st_monos_end st) rest (HeapSorter d) = Ok (m, e) ->
     Q (mkState m e ctx (st_vix st) (st_vertices st) (st_sections st) (st_windings st))
       (ts ++ map (@ta) (mono_intersect cs (Interval_of (f sv) (t sv))
                                        cc (Interval_of (f ci) (t ci))))) ->
  forall k i st ts st' ts',
    neighbour_loop H mono_intersect ps d s cx si k i st ts = Ok (st', ts') ->
    Q st ts -> Q st' ts'.
Proof.
  intros Step. induction k as [|k IH]; intros i st ts st' ts'; simpl.
  - now intros [= <- <-].
  - destruct (Nat.eqb_spec i cx) as [Ei|Ei]; [apply IH|]. unfold bind.
    destruct (at_ (st_context st) i) as [ci|] eqn:Eci; [|discriminate].
    destruct (Interval_intersects _ _); [|apply IH].
    destruct (at_ (st_monos st) s) as [sv|] eqn:Esv; [|discriminate].
    destruct (get (curve sv) ps) as [cs|] eqn:Ecs; [|discriminate].
    destruct (get (curve ci) ps) as [cc|] eqn:Ecc; [|discriminate].
    destruct (split_section ci ps _ d) as [[ci' rest]|] eqn:Es; [|discriminate].
    destruct (update (st_context st) i _) as [ctx|] eqn:Eu; [|discriminate].
    destruct (push_them H _ _ rest _) as [[m e]|] eqn:Ep; [|discriminate].
    intros E q. apply (IH _ _ _ _ _ E).
    now apply (Step i st ts ci sv cs cc ci' rest ctx m e).
Qed.

(** The parts of one iteration. *)
Lemma sweep_step_parts G st r :
  sweep_step H mono_intersect ps d G st = Ok r ->
  exists st0 s lim st1,
    ((st_monos_end st = 0 /\ st0 = st /\ s = 0 /\ lim = Fin (0 / 1))
     \/ (st_monos_end st <> 0 /\ s = st_monos_end st - 1
         /\ st0 = mkState (on_range (st_monos_end st) (std_pop_heap H (HeapSorter d))
                                    (st_monos st))
                          s (st_context st) (st_vix st) (st_vertices st)
                          (st_sections st) (st_windings st)
         /\ exists sv, at_ (st_monos st0) s = Ok sv /\ lim = coord (fp sv) d))
    /\ finish_loop (length (st_context st0)) lim st0 = Ok st1
    /\ ((st_monos_end st1 = 0 /\ r = Break st1)
        \/ (st_monos_end st1 <> 0
            /\ exists sv cix v vs st2 ts cx cx' rest ctx m e,
              at_ (st_monos st1) s = Ok sv
              /\ lower_bound (st_context st1) sv (SectionSorter ps (other_dim d) false)
                 = Ok cix
              /\ find_vertex (st_vertices st1) (fp sv) = (v, vs)
              /\ neighbour_loop H mono_intersect ps d s cix
                   (Interval_of (coord (fp sv) (other_dim d)) (coord (tp sv) (other_dim d)))
                   (length (insert_at (st_context st1) cix sv)) 0
                   (mkState (st_monos st1) (st_monos_end st1)
                            (insert_at (st_context st1) cix sv)
                            (insert_at (st_vix st1) cix v) vs
                            (st_sections st1) (st_windings st1)) []
                 = Ok (st2, ts)
              /\ at_ (st_context st2) cix = Ok cx
              /\ split_section cx ps ts d = Ok (cx', rest)
              /\ update (st_context st2) cix (fun _ => cx') = Ok ctx
              /\ push_them H (st_monos st2) (st_monos_end st2) rest (HeapSorter d)
                 = Ok (m, e)
              /\ r = Continue
                       (mkGlobals (monoss G ++ [std_sort_heap H (HeapSorter d) (firstn e m)])
                                  (chopss G) (contexts G ++ [ctx]))
                       (mkState m e ctx (st_vix st2) (st_vertices st2)
                                (st_sections st2) (st_windings st2)))).
Proof.
  unfold sweep_step, bind. intros E.
  destruct (if st_monos_end st =? 0 then _ else _) as [[[st0 s] lim]|] eqn:Ep;
    [|discriminate].
  exists st0, s, lim.
  destruct (finish_loop _ lim st0) as [st1|] eqn:E1; [|discriminate].
  exists st1. split.
  { destruct (Nat.eqb_spec (st_monos_end st) 0) as [Z|Z].
    - injection Ep as <- <- <-. left. auto.
    - destruct (at_ _ _) as [sv|] eqn:A; [|discriminate].
      injection Ep as <- <- <-. right. repeat split; auto.
      exists sv. split; [exact A|reflexivity]. }
  split; [reflexivity|].
  destruct (Nat.eqb_spec (st_monos_end st1) 0) as [Z|Z];
    [left; split; [exact Z|now injection E as <-]|].
  right. split; [exact Z|].
  destruct (at_ (st_monos st1) s) as [sv|] eqn:Esv; [|discriminate].
  destruct (lower_bound _ _ _) as [cx|] eqn:Elb; [|discriminate].
  destruct (find_vertex (st_vertices st1) (fp sv)) as [v vs] eqn:Ev.
  destruct (neighbour_loop _ _ _ _ _ _ _ _ _ _ _) as [[st2 ts]|] eqn:En;
    [|discriminate].
  destruct (at_ (st_context st2) cx) as [c|] eqn:Ec; [|discriminate].
  destruct (split_section c ps ts d) as [[c' rest]|] eqn:Es; [|discriminate].
  destruct (update (st_context st2) cx _) as [ctx|] eqn:Eu; [|discriminate].
  destruct (push_them _ _ _ _ _) as [[m e]|] eqn:Epu; [|discriminate].
  injection E as <-.
  exists sv, cx, v, vs, st2, ts, c, c', rest, ctx, m, e.
  repeat split; auto.
Qed.

Lemma sweep_loop_ind (Q : sweep_state -> Prop) :
  (forall G st r, sweep_step H mono_intersect ps d G st = Ok r -> Q st -> Q (state_of r)) ->
  forall fuel G st g,
    fst (sweep_loop H mono_intersect ps d fuel G st) = Returned g ->
    Q st ->
    exists st', Q st' /\ g = mkGraph (st_vertices st') (st_sections st').
Proof.
  intros Step. induction fuel as [|fuel IH]; intros G st g; simpl; [discriminate|].
  destruct (sweep_step H mono_intersect ps d G st) as [[st'|G' st']|e] eqn:E;
    simpl; try discriminate.
  - intros [= <-] q. exists st'. split; [|reflexivity]. exact (Step _ _ _ E q).
  - intros R q. apply (IH _ _ _ R). exact (Step _ _ _ E q).
Qed.

End Induction.

(** ** Vertices are pairwise apart *)

Lemma find_vertex_cases vs p i vs' :
  find_vertex vs p = (i, vs') ->
  vs' = vs
  \/ (vs' = vs ++ [Vertex_new p] /\ i = length vs
      /\ Forall (fun v => are_near_point (avg v) p = false) vs).
Proof.
  unfold find_vertex. intros [= Ei Ev]. rewrite Ei in Ev.
  destruct (Nat.eqb_spec i (length vs)) as [L|L]; [|now left].
  right. repeat split; auto. apply (find_vertex_from_none p vs 0). now rewrite Ei.
Qed.

Lemma apart_find vs p i vs' : find_vertex vs p = (i, vs') -> apart vs -> apart vs'.
Proof.
  intros E A. destruct (find_vertex_cases _ _ _ _ E) as [->|(-> & -> & N)]; [exact A|].
  rewrite Forall_forall in N.
  intros a b va vb Lt Na Nb.
  assert (Lb : b < length (vs ++ [Vertex_new p])) by (apply nth_error_Some; congruence).
  rewrite length_app in Lb. simpl in Lb.
  rewrite nth_error_app1 in Na by lia.
  destruct (Nat.eq_dec b (length vs)) as [->|Nb'].
  - rewrite nth_error_app2, Nat.sub_diag in Nb by lia. injection Nb as <-.
    apply N. eapply nth_error_In; eauto.
  - rewrite nth_error_app1 in Nb by lia. exact (A a b va vb Lt Na Nb).
Qed.

Lemma apart_update vs i g vs' :
  (forall v, avg (g v) = avg v) -> update vs i g = Ok vs' -> apart vs -> apart vs'.
Proof.
  intros G U A a b va vb Lt Na Nb.
  apply update_Ok in U. destruct U as (x & Nx & _ & K).
  rewrite K in Na, Nb.
  assert (Ea : exists wa, nth_error vs a = Some wa /\ avg va = avg wa).
  { destruct (Nat.eqb_spec a i) as [->|_]; [|eauto].
    injection Na as <-. exists x. now rewrite G. }
  assert (Eb : exists wb, nth_error vs b = Some wb /\ avg vb = avg wb).
  { destruct (Nat.eqb_spec b i) as [->|_]; [|eauto].
    injection Nb as <-. exists x. now rewrite G. }
  destruct Ea as (wa & Wa & ->). destruct Eb as (wb & Wb & ->).
  exact (A a b wa wb Lt Wa Wb).
Qed.

Lemma finish_loop_apart lim n st st' :
  finish_loop n lim st = Ok st' -> apart (st_vertices st) -> apart (st_vertices st').
Proof.
  apply (finish_loop_ind (fun st => apart (st_vertices st)) lim); simpl.
  - intros s i ci w vert vs vi A _ _ _ V _ _. eapply apart_find; eauto.
  - intros s i ci w vert vs vi vs1 vs2 A _ _ _ V _ _ U1 U2.
    eapply apart_update; [|exact U2|]; [reflexivity|].
    eapply apart_update; [|exact U1|]; [reflexivity|].
    eapply apart_find; eauto.
Qed.

Section GraphShape.

Variable H : heap_algorithms.
Variable mono_intersect : Curve -> Interval -> Curve -> Interval -> list Crossing.
Variable ps : list Path.
Variable d : Dim2.

Lemma sweep_step_apart G st r :
  sweep_step H mono_intersect ps d G st = Ok r ->
  apart (st_vertices st) -> apart (st_vertices (state_of r)).
Proof.
  intros E A. apply sweep_step_parts in E.
  destruct E as (st0 & s & lim & st1 & P0 & F & R).
  assert (A0 : apart (st_vertices st0)).
  { destruct P0 as [(_ & -> & _)|(_ & _ & -> & _)]; exact A. }
  apply finish_loop_apart in F; [|exact A0].
  destruct R as [(_ & ->)|(_ & sv & cix & v & vs & st2 & ts & cx & cx' & rest & ctx & m & e
                            & _ & _ & V & N & _ & _ & _ & _ & ->)]; [exact F|].
  simpl. apply neighbour_loop_frame in N. destruct N as (_ & -> & _). simpl.
  eapply apart_find; eauto.
Qed.

(** X17: no Vertex of the returned Graph lies within the tolerance of a
    Vertex that precedes it. *)
Theorem X17_vertices_apart fuel G tol g :
  fst (sweep_graph H mono_intersect ps d fuel G tol) = Returned g ->
  forall i j vi vj,
    i < j -> nth_error (g_vertices g) i = Some vi -> nth_error (g_vertices g) j = Some vj ->
    are_near_point (avg vi) (avg vj) = false.
Proof.
  unfold sweep_graph. intros R.
  destruct (sweep_loop_ind H mono_intersect ps d (fun st => apart (st_vertices st))
              sweep_step_apart _ _ _ _ R) as (st' & A & ->).
  - intros i j vi vj L. destruct i; discriminate.
  - exact A.
Qed.

(** ** Edges *)

Lemma edges_ok_find vs p i vs' n :
  find_vertex vs p = (i, vs') -> edges_ok vs n -> edges_ok vs' n.
Proof.
  intros E A. destruct (find_vertex_cases _ _ _ _ E) as [->|(-> & -> & N)]; [exact A|].
  intros j v Nj.
  assert (Lj : j < length (vs ++ [Vertex_new p])) by (apply nth_error_Some; congruence).
  rewrite length_app in *. simpl in Lj.
  destruct (Nat.eq_dec j (length vs)) as [->|Nb'].
  - rewrite nth_error_app2, Nat.sub_diag in Nj by lia. injection Nj as <-.
    simpl. constructor.
  - rewrite nth_error_app1 in Nj by lia.
    eapply Forall_impl; [|apply (A j v Nj)]. simpl. intros e (K1 & K2 & K3).
    repeat split; auto. lia.
Qed.

Lemma edges_ok_move vs n a b vs1 vs2 :
  edges_ok vs n -> b <> a ->
  update vs a (push_exit (mkEdge n b)) = Ok vs1 ->
  update vs1 b (push_enter (mkEdge n a)) = Ok vs2 ->
  edges_ok vs2 (S n).
Proof.
  intros A Nab U1 U2 j v2 Nj.
  destruct (two_updates _ _ _ _ _ _ _ U1 U2 j v2 Nj) as (v & Nv & Ex & En).
  pose proof (update_Ok _ _ _ _ U1) as (x1 & N1 & L1 & _).
  pose proof (update_Ok _ _ _ _ U2) as (x2 & N2 & L2 & _).
  assert (La : a < length vs) by (apply nth_error_Some; congruence).
  assert (Lb : b < length vs) by (rewrite <- L1; apply nth_error_Some; congruence).
  rewrite L2, L1, Ex, En.
  assert (Old : Forall (fun e => edge_section e < S n /\ other e < length vs /\ other e <> j)
                       (enters v ++ exits v)).
  { eapply Forall_impl; [|apply (A j v Nv)]. simpl. intros e (K1 & K2 & K3).
    repeat split; auto. }
  apply Forall_app in Old. destruct Old as [O1 O2].
  apply Forall_app; split; apply Forall_app; split; auto.
  - destruct (Nat.eqb_spec j b) as [->|_]; constructor; [|constructor]. simpl.
    repeat split; auto.
  - destruct (Nat.eqb_spec j a) as [->|_]; constructor; [|constructor]. simpl.
    repeat split; auto.
Qed.

Lemma finish_loop_edges lim n st st' :
  finish_loop n lim st = Ok st' ->
  edges_ok (st_vertices st) (length (st_sections st)) ->
  edges_ok (st_vertices st') (length (st_sections st')).
Proof.
  apply (finish_loop_ind
           (fun st => edges_ok (st_vertices st) (length (st_sections st))) lim); simpl.
  - intros s i ci w vert vs vi A _ _ _ V _ _. eapply edges_ok_find; eauto.
  - intros s i ci w vert vs vi vs1 vs2 A _ _ _ V _ Ne U1 U2.
    rewrite length_app. simpl. rewrite Nat.add_1_r.
    eapply edges_ok_move; [|exact Ne|exact U1|exact U2].
    eapply edges_ok_find; eauto.
Qed.

Lemma sweep_step_edges G st r :
  sweep_step H mono_intersect ps d G st = Ok r ->
  edges_ok (st_vertices st) (length (st_sections st)) ->
  edges_ok (st_vertices (state_of r)) (length (st_sections (state_of r))).
Proof.
  intros E A. apply sweep_step_parts in E.
  destruct E as (st0 & s & lim & st1 & P0 & F & R).
  assert (A0 : edges_ok (st_vertices st0) (length (st_sections st0))).
  { destruct P0 as [(_ & -> & _)|(_ & _ & -> & _)]; exact A. }
  apply finish_loop_edges in F; [|exact A0].
  destruct R as [(_ & ->)|(_ & sv & cix & v & vs & st2 & ts & cx & cx' & rest & ctx & m & e
                            & _ & _ & V & N & _ & _ & _ & _ & ->)]; [exact F|].
  simpl. apply neighbour_loop_frame in N. destruct N as (_ & -> & -> & _). simpl.
  eapply edges_ok_find; eauto.
Qed.

(** X18: every Edge of the returned Graph names a Section of the Graph and
    a Vertex of the Graph, and never the Vertex that holds it: the Graph
    has no dangling index and no loop Edge. *)
Theorem X18_edges_well_formed fuel G tol g :
  fst (sweep_graph H mono_intersect ps d fuel G tol) = Returned g ->
  forall j v e,
    nth_error (g_vertices g) j = Some v -> In e (enters v ++ exits v) ->
    edge_section e < length (g_sections g)
    /\ other e < length (g_vertices g)
    /\ other e <> j.
Proof.
  unfold sweep_graph. intros R.
  destruct (sweep_loop_ind H mono_intersect ps d
              (fun st => edges_ok (st_vertices st) (length (st_sections st)))
              sweep_step_edges _ _ _ _ R) as (st' & A & ->).
  - intros j v N. destruct j; discriminate.
  - simpl. intros j v e N I. specialize (A j v N). rewrite Forall_forall in A.
    now apply A.
Qed.

End GraphShape.

(** ** Finished sections run forward on the sweep axis *)

Lemma split_section_oriented s ps cuts d s' rest :
  split_section s ps cuts d = Ok (s', rest) -> oriented d s'.
Proof.
  unfold split_section, bind, set_to, oriented.
  destruct (get (curve s) ps) as [c|]; [|discriminate].
  destruct (at_ _ 1) as [c1|]; [|discriminate].
  destruct (coord (pointAt c c1) d >=? coord (fp s) d)%D eqn:G; [|discriminate].
  intros [= <- _]. exact G.
Qed.

Lemma nth_error_insert_at {A} (v : list A) i x j c :
  i <= length v -> j <> i -> nth_error (insert_at v i x) j = Some c -> In c v.
Proof.
  intros L N E. unfold insert_at in E.
  assert (Lf : length (firstn i v) = i) by (apply firstn_length_le; exact L).
  destruct (Nat.lt_ge_cases j i) as [K|K].
  - rewrite nth_error_app1 in E by lia. apply nth_error_In in E.
    rewrite <- (firstn_skipn i v). apply in_or_app. now left.
  - rewrite nth_error_app2 in E by lia. rewrite Lf in E.
    destruct (j - i) as [|k] eqn:Ek; [lia|]. simpl in E. apply nth_error_In in E.
    rewrite <- (firstn_skipn i v). apply in_or_app. now right.
Qed.

Lemma nth_error_replace {A} (v : list A) i x v' j c :
  update v i (fun _ => x) = Ok v' -> nth_error v' j = Some c ->
  (j = i /\ c = x) \/ (j <> i /\ nth_error v j = Some c).
Proof.
  intros U N. apply update_Ok in U. destruct U as (a & _ & _ & K).
  rewrite K in N. destruct (Nat.eqb_spec j i) as [->|Ne].
  - left. split; congruence.
  - right. auto.
Qed.

Lemma finish_loop_oriented d lim n st st' :
  finish_loop n lim st = Ok st' ->
  Forall (oriented d) (st_context st) /\ Forall (oriented d) (st_sections st) ->
  Forall (oriented d) (st_context st') /\ Forall (oriented d) (st_sections st').
Proof.
  apply (finish_loop_ind
           (fun st => Forall (oriented d) (st_context st)
                      /\ Forall (oriented d) (st_sections st)) lim); simpl.
  - intros s i ci w vert vs vi A _ _ _ _ _ _. exact A.
  - intros s i ci w vert vs vi vs1 vs2 (A & B) C _ _ _ _ _ _ _.
    split; [now apply Forall_erase_at|].
    apply Forall_app. split; [exact B|]. constructor; [|constructor].
    apply at_Ok, nth_error_In in C. rewrite Forall_forall in A. exact (A ci C).
Qed.

Section Oriented.

Variable H : heap_algorithms.
Variable mono_intersect : Curve -> Interval -> Curve -> Interval -> list Crossing.
Variable ps : list Path.
Variable d : Dim2.

Lemma neighbour_loop_oriented s cx si k i st ts st' ts' :
  neighbour_loop H mono_intersect ps d s cx si k i st ts = Ok (st', ts') ->
  (forall j c, j <> cx -> nth_error (st_context st) j = Some c -> oriented d c) ->
  (forall j c, j <> cx -> nth_error (st_context st') j = Some c -> oriented d c).
Proof.
  apply (neighbour_loop_ind H mono_intersect ps d
           (fun st _ => forall j c, j <> cx -> nth_error (st_context st) j = Some c ->
                                    oriented d c)).
  clear. simpl.
  intros i st ts ci sv cs cc ci' rest ctx m e Q Ni _ _ _ _ Sp U _ j c Nj Nc.
  destruct (nth_error_replace _ _ _ _ _ _ U Nc) as [(_ & ->)|(_ & K)].
  - eapply split_section_oriented; eauto.
  - eapply Q; eauto.
Qed.

Lemma sweep_step_oriented G st r :
  sweep_step H mono_intersect ps d G st = Ok r ->
  Forall (oriented d) (st_context st) /\ Forall (oriented d) (st_sections st) ->
  Forall (oriented d) (st_context (state_of r))
  /\ Forall (oriented d) (st_sections (state_of r)).
Proof.
  intros E A. apply sweep_step_parts in E.
  destruct E as (st0 & s & lim & st1 & P0 & F & R).
  assert (A0 : Forall (oriented d) (st_context st0)
               /\ Forall (oriented d) (st_sections st0)).
  { destruct P0 as [(_ & -> & _)|(_ & _ & -> & _)]; exact A. }
  apply (finish_loop_oriented d) in F; [|exact A0].
  destruct R as [(_ & ->)|(_ & sv & cix & v & vs & st2 & ts & cx & cx' & rest & ctx & m & e
                            & _ & Lb & V & N & Cx & Sp & U & _ & ->)]; [exact F|].
  simpl. destruct F as [F1 F2].
  pose proof (neighbour_loop_frame _ _ _ _ _ _ _ _ _ _ _ _ _ N) as (_ & _ & S2 & _).
  simpl in S2. rewrite S2. split; [|exact F2].
  apply lower_bound_range in Lb.
  pose proof (neighbour_loop_oriented _ _ _ _ _ _ _ _ _ N) as O. simpl in O.
  assert (O2 : forall j c, j <> cix -> nth_error (st_context st2) j = Some c ->
                           oriented d c).
  { apply O. intros j c Nj Nc. rewrite Forall_forall in F1. apply F1.
    eapply nth_error_insert_at; eauto. }
  apply Forall_forall. intros c I. apply In_nth_error in I. destruct I as (j & Nj).
  destruct (nth_error_replace _ _ _ _ _ _ U Nj) as [(_ & ->)|(Ne & K)].
  - eapply split_section_oriented; eauto.
  - eapply O2; eauto.
Qed.

(** X19: every Section of the returned Graph runs forward on the sweep
    axis: its trailing point's coordinate on [d] is not below its leading
    point's (and neither is NaN). *)
Theorem X19_sections_run_forward fuel G tol g :
  fst (sweep_graph H mono_intersect ps d fuel G tol) = Returned g ->
  forall r, In r (g_sections g) -> (coord (tp r) d >=? coord (fp r) d)%D = true.
Proof.
  unfold sweep_graph. intros R.
  destruct (sweep_loop_ind H mono_intersect ps d
              (fun st => Forall (oriented d) (st_context st)
                         /\ Forall (oriented d) (st_sections st))
              sweep_step_oriented _ _ _ _ R) as (st' & (_ & A) & ->).
  - simpl. split; constructor.
  - simpl. rewrite Forall_forall in A. exact A.
Qed.

End Oriented.

(** ** Properties of all the sections of a sweep *)

Section SectionInvariant.

Variable H : heap_algorithms.
Variable mono_intersect : Curve -> Interval -> Curve -> Interval -> list Crossing.
Variable ps : list Path.
Variable d : Dim2.

Hypothesis HP : heap_preserves H.

Variable P : section -> Prop.
Variable C : list double -> Prop.

Hypothesis C_nil : C [].
Hypothesis C_crossings : forall a ia b ib ts,
  C ts -> C (ts ++ map (@ta) (mono_intersect a ia b ib))
          /\ C (map (@tb) (mono_intersect a ia b ib)).
Hypothesis P_split : forall s cuts s' rest,
  P s -> C cuts -> split_section s ps cuts d = Ok (s', rest) -> P s' /\ Forall P rest.
Hypothesis P_windings : forall s w, P s -> P (with_windings s w).

Lemma finish_loop_all lim n st st' :
  finish_loop n lim st = Ok st' -> all_sections P st -> all_sections P st'.
Proof.
  apply (finish_loop_ind (all_sections P) lim); unfold all_sections, pending; simpl.
  - intros s i ci w vert vs vi A _ _ _ _ _ _. exact A.
  - intros s i ci w vert vs vi vs1 vs2 (A & B & K & D) E _ _ _ _ _ _ _.
    repeat split; auto.
    + now apply Forall_erase_at.
    + apply Forall_app. split; [exact D|]. constructor; [|constructor].
      apply P_windings. apply at_Ok, nth_error_In in E.
      rewrite Forall_forall in K. exact (K ci E).
Qed.

Lemma split_and_push_all st i ci cuts ci' rest ctx m e vx vs w :
  all_sections P st -> C cuts ->
  at_ (st_context st) i = Ok ci ->
  split_section ci ps cuts d = Ok (ci', rest) ->
  update (st_context st) i (fun _ => ci') = Ok ctx ->
  push_them H (st_monos st) (st_monos_end st) rest (HeapSorter d) = Ok (m, e) ->
  all_sections P (mkState m e ctx vx vs (st_sections st) w).
Proof.
  intros (L & Fp & Fc & Fs) Cc Eci Es Eu Ep.
  apply at_Ok in Eci.
  assert (Pci : P ci) by exact (proj1 (Forall_forall _ _) Fc ci (nth_error_In _ _ Eci)).
  destruct (P_split _ _ _ _ Pci Cc Es) as (Pci' & Prest).
  destruct (push_them_range H HP _ _ _ _ _ _ L Ep) as [L' Pm].
  unfold all_sections, pending in *. simpl.
  repeat split; auto.
  - apply (Permutation_Forall (Permutation_sym Pm)). apply Forall_app. split; auto.
  - eapply Forall_replace; eauto.
Qed.

Lemma neighbour_loop_all s cx si k i st ts st' ts' :
  neighbour_loop H mono_intersect ps d s cx si k i st ts = Ok (st', ts') ->
  all_sections P st /\ C ts -> all_sections P st' /\ C ts'.
Proof.
  apply (neighbour_loop_ind H mono_intersect ps d
           (fun st ts => all_sections P st /\ C ts)).
  intros j s0 ts0 ci sv cs cc ci' rest ctx m e (A & Cts) _ Eci _ _ _ Sp U Pu.
  destruct (C_crossings cs (Interval_of (f sv) (t sv)) cc (Interval_of (f ci) (t ci))
              ts0 Cts) as (Ca & Cb).
  split; [|exact Ca].
  eapply split_and_push_all; eauto.
Qed.

Lemma sweep_step_all G st r :
  sweep_step H mono_intersect ps d G st = Ok r ->
  all_sections P st -> all_sections P (state_of r).
Proof.
  intros E A. apply sweep_step_parts in E.
  destruct E as (st0 & s & lim & st1 & P0 & F & R).
  assert (A0 : all_sections P st0
               /\ (st_monos_end st1 <> 0 ->
                   forall sv, at_ (st_monos st0) s = Ok sv -> P sv)).
  { destruct P0 as [(Z & -> & _)|(Z & Es & E0 & sv & Esv & _)].
    - split; [exact A|]. intros N. apply finish_loop_potential in F.
      destruct F as (_ & F & _). congruence.
    - destruct A as (L & Fp & Fc & Fs). unfold pending in Fp.
      destruct (st_monos_end st) as [|e] eqn:Ee; [congruence|].
      replace (S e - 1) with e in Es by lia. subst s.
      rewrite E0 in Esv. simpl in Esv.
      destruct (pop_range H HP _ _ _ _ L Esv) as [Pm Lm].
      pose proof (Permutation_Forall Pm Fp) as Fp'.
      apply Forall_app in Fp'. destruct Fp' as [Fp0 Fsv].
      inversion Fsv as [|? ? Psv _]; subst.
      split.
      + unfold all_sections, pending. simpl. repeat split; auto. lia.
      + simpl. intros _ sv' E'. congruence. }
  destruct A0 as (A0 & Psv).
  pose proof (finish_loop_all _ _ _ _ F A0) as A1.
  pose proof (finish_loop_potential _ _ _ _ F) as (M1 & M2 & _).
  destruct R as [(_ & ->)|(Z & sv & cix & v & vs & st2 & ts & cx & cx' & rest & ctx & m & e
                            & Esv & Lb & V & N & Cx & Sp & U & Pu & ->)]; [exact A1|].
  simpl. rewrite M1 in Esv. specialize (Psv Z sv Esv).
  apply neighbour_loop_all in N.
  - destruct N as (A2 & C2).
    eapply split_and_push_all; eauto.
  - split; [|exact C_nil]. destruct A1 as (L1 & F1 & F2 & F3).
    unfold all_sections, pending in *. simpl. repeat split; auto.
    now apply Forall_insert_at.
Qed.

Lemma sweep_sections_all fuel G tol g :
  Forall P (mono_sections ps) ->
  fst (sweep_graph H mono_intersect ps d fuel G tol) = Returned g ->
  Forall P (g_sections g).
Proof.
  unfold sweep_graph. intros F R.
  destruct (sweep_loop_ind H mono_intersect ps d (all_sections P)
              sweep_step_all _ _ _ _ R) as (st' & (_ & _ & _ & A) & ->).
  - unfold all_sections, initial_state, pending. simpl.
    rewrite firstn_all. repeat split; auto.
    apply (Permutation_Forall (Permutation_sym (make_heap_perm H HP _ _))). exact F.
  - exact A.
Qed.

End SectionInvariant.

(** ** Sections lie on their curves *)

Lemma Section_new_on_curve ps c d cix a b :
  get cix ps = Ok c -> on_curve ps (Section_new c d cix a b).
Proof.
  intros G. unfold Section_new, on_curve.
  destruct (lexo_point _ _ d); simpl; exists c; auto.
Qed.

Lemma sections_between_on_curve ps c d cix : forall cuts,
  get cix ps = Ok c -> Forall (on_curve ps) (sections_between c d cix cuts).
Proof.
  intros cuts G. induction cuts as [|a [|b r] IH]; try constructor.
  - now apply Section_new_on_curve.
  - exact IH.
Qed.

Lemma split_section_on_curve ps d s cuts s' rest :
  on_curve ps s -> split_section s ps cuts d = Ok (s', rest) ->
  on_curve ps s' /\ Forall (on_curve ps) rest.
Proof.
  intros (c & G & Ef & Et). unfold split_section, bind. rewrite G.
  destruct (at_ _ 1) as [c1|]; [|discriminate].
  unfold set_to. destruct (_ >=? _)%D; [|discriminate].
  intros [= <- <-]. split.
  - exists c. simpl. auto.
  - now apply sections_between_on_curve.
Qed.

Lemma indexed_from {A} (v : list A) : forall k i x,
  In (i, x) (combine (seq k (length v)) v) -> k <= i /\ nth_error v (i - k) = Some x.
Proof.
  induction v as [|a v IH]; intros k i x; simpl; [tauto|].
  intros [[= <- <-]|I].
  - rewrite Nat.sub_diag. auto.
  - apply IH in I. destruct I as [L N]. split; [lia|].
    replace (i - k) with (S (i - S k)) by lia. exact N.
Qed.

Lemma indexed_nth {A} (v : list A) i x : In (i, x) (indexed v) -> nth_error v i = Some x.
Proof.
  intros I. apply indexed_from in I. now rewrite Nat.sub_0_r in I.
Qed.

Lemma in_mono_sections ps s :
  In s (mono_sections ps) ->
  exists i j p c,
    nth_error ps i = Some p /\ nth_error p j = Some c
    /\ In s (sections_between c X (mkCurveIx i j) (mono_splits c)).
Proof.
  unfold mono_sections. intros I.
  apply in_flat_map in I. destruct I as ([i p] & Ip & I).
  apply in_flat_map in I. destruct I as ([j c] & Ic & I). simpl in *.
  exists i, j, p, c. repeat split; auto using indexed_nth.
Qed.

Lemma get_nth (ps : list Path) i j (p : Path) c :
  nth_error ps i = Some p -> nth_error p j = Some c -> get (mkCurveIx i j) ps = Ok c.
Proof.
  intros Np Nc. apply at_Ok in Np, Nc. unfold get, bind.
  cbn [path ix]. rewrite Np. exact Nc.
Qed.

Lemma mono_sections_on_curve ps : Forall (on_curve ps) (mono_sections ps).
Proof.
  apply Forall_forall. intros s I.
  destruct (in_mono_sections ps s I) as (i & j & p & c & Np & Nc & K).
  pose proof (sections_between_on_curve ps c X (mkCurveIx i j) (mono_splits c)
                (get_nth _ _ _ _ _ Np Nc)) as F.
  rewrite Forall_forall in F. exact (F s K).
Qed.

Lemma sections_between_new c d cix : forall cuts s,
  In s (sections_between c d cix cuts) ->
  exists a b, s = Section_new c d cix a b.
Proof.
  induction cuts as [|a [|b r] IH]; intros s; simpl; try tauto.
  intros [<-|I]; eauto.
Qed.

Lemma Section_new_shape c d cix a b :
  let s := Section_new c d cix a b in
  lexo_point (tp s) (fp s) d = false /\ windings s = [] /\ curve s = cix.
Proof.
  unfold Section_new. destruct (lexo_point (pointAt c b) (pointAt c a) d) eqn:L; simpl.
  - repeat split; auto. rewrite lexo_point_lex2 in *. destruct d.
    + apply lex2_asym; exact L.
    + apply lex2_asym; exact L.
  - auto.
Qed.

(** ** Parameters stay in the unit interval *)

Lemma between_inside a b x :
  between (Fin a) (Fin b) x = true ->
  exists q, x = Fin q /\ ((a <= q <= b) \/ (b <= q <= a))%Q.
Proof.
  unfold between, Interval_of, Interval_contains. simpl.
  destruct (Qle_bool a b) eqn:L; simpl; intros B; apply andb_true_iff in B;
    destruct B as [B1 B2]; destruct x as [q| | |]; simpl in *; try discriminate;
    exists q; split; auto; qbool; lra.
Qed.

Lemma between_unit x :
  between (Fin 0) (Fin 1) x = true <-> exists q, x = Fin q /\ (0 <= q <= 1)%Q.
Proof.
  split.
  - intros B. apply between_inside in B. destruct B as (q & -> & K).
    exists q. split; auto. lra.
  - intros (q & -> & K). apply (between_fin true); auto.
Qed.

Lemma within_unit_finite s : within_unit s -> finite_section s = true.
Proof.
  intros (A & B & _). apply between_unit in A, B.
  destruct A as (a & Ea & _), B as (b & Eb & _).
  unfold finite_section. now rewrite Ea, Eb.
Qed.

Lemma piece_within_unit s r : within_unit s -> piece_of s r -> within_unit r.
Proof.
  intros (A & B & _) (_ & Pf & Pt & N).
  apply between_unit in A, B.
  destruct A as (a & Ea & Ka), B as (b & Eb & Kb). rewrite Ea, Eb in *.
  apply between_inside in Pf, Pt.
  destruct Pf as (x & Ex & Kx), Pt as (y & Ey & Ky).
  repeat split; auto; apply between_unit; eexists; split; eauto; lra.
Qed.

Lemma split_section_within_unit ps d s cuts s' rest :
  within_unit s -> all_finite cuts -> split_section s ps cuts d = Ok (s', rest) ->
  within_unit s' /\ Forall within_unit rest.
Proof.
  intros W Fc E.
  destruct (split_section_pieces _ _ _ _ _ _ (within_unit_finite _ W) Fc E)
    as (_ & _ & _ & P1 & P2 & _).
  split; [eapply piece_within_unit; eauto|].
  eapply Forall_impl; [|exact P2]. simpl. intros r (Pr & _).
  eapply piece_within_unit; eauto.
Qed.

Lemma mono_sections_within_unit ps :
  finite_roots ps = true -> Forall within_unit (mono_sections ps).
Proof.
  intros F. unfold finite_roots in F. rewrite forallb_forall in F.
  apply Forall_forall. intros s I.
  destruct (in_mono_sections ps s I) as (i & j & p & c & Np & Nc & K).
  apply nth_error_In in Np, Nc.
  specialize (F p Np). rewrite forallb_forall in F. specialize (F c Nc).
  apply forallb_finite in F.
  destruct (process_splits_chain _ (Fin 0) (Fin 1) F eq_refl eq_refl) as (Fa & Ch & _).
  pose proof (process_splits_between _ (Fin 0) (Fin 1) F eq_refl eq_refl) as B.
  set (unit := mkSection (mkCurveIx i j) (Fin 0) (Fin 1) (pointAt c (Fin 0))
                         (pointAt c (Fin 1)) []).
  pose proof (sections_between_pieces unit true c X (mono_splits c) Fa Ch B) as Pc.
  rewrite Forall_forall in Pc. destruct (Pc s K) as (Ps & _).
  apply (piece_within_unit unit); auto.
  repeat split; reflexivity.
Qed.

(** ** The sections of the returned Graph *)

Lemma on_curve_windings ps s w : on_curve ps s -> on_curve ps (with_windings s w).
Proof. intros (c & A). exists c. exact A. Qed.

Lemma on_curve_path ps s : on_curve ps s -> path (curve s) < length ps.
Proof.
  intros (c & G & _). unfold get, bind in G.
  destruct (at_ ps (path (curve s))) as [p|] eqn:E; [|discriminate].
  apply at_Ok in E. apply nth_error_Some. congruence.
Qed.

Lemma paths_bound_le n l :
  Forall (fun s => path (curve s) < n) l -> paths_bound l <= n.
Proof.
  induction 1 as [|s l L _ IH]; [simpl; lia|].
  rewrite paths_bound_cons. lia.
Qed.

Lemma finish_loop_counters ps lim n st st' :
  finish_loop n lim st = Ok st' ->
  Forall (on_curve ps) (st_context st) /\ counters_per_path ps st ->
  Forall (on_curve ps) (st_context st') /\ counters_per_path ps st'.
Proof.
  assert (K : forall (s : sweep_state) i w,
             Forall (on_curve ps) (st_context s) ->
             length (st_windings s) = length ps ->
             winding_loop (firstn i (st_context s)) 0 (fill_zero (st_windings s)) = Ok w ->
             length w = length ps).
  { intros s i w A B W. apply winding_loop_counts in W. destruct W as (W & _).
    unfold fill_zero in W. rewrite length_map, B in W.
    assert (paths_bound (firstn i (st_context s)) <= length ps); [|lia].
    apply paths_bound_le, Forall_firstn.
    eapply Forall_impl; [|exact A]. apply on_curve_path. }
  apply (finish_loop_ind
           (fun st => Forall (on_curve ps) (st_context st) /\ counters_per_path ps st) lim);
    unfold counters_per_path; simpl.
  - intros s i ci w vert vs vi (A & B & D) _ _ W _ _ _.
    repeat split; auto. eapply K; eauto.
  - intros s i ci w vert vs vi vs1 vs2 (A & B & D) _ _ W _ _ _ _ _.
    pose proof (K s i w A B W) as L.
    repeat split; auto.
    + now apply Forall_erase_at.
    + apply Forall_app. split; auto.
Qed.

Section ReturnedSections.

Variable H : heap_algorithms.
Variable mono_intersect : Curve -> Interval -> Curve -> Interval -> list Crossing.
Variable ps : list Path.
Variable d : Dim2.

Hypothesis HP : heap_preserves H.

Lemma sweep_step_on_curve G st r :
  sweep_step H mono_intersect ps d G st = Ok r ->
  all_sections (on_curve ps) st -> all_sections (on_curve ps) (state_of r).
Proof.
  apply (sweep_step_all H mono_intersect ps d HP (on_curve ps) (fun _ => True)).
  - exact I.
  - intros. split; exact I.
  - intros s cuts s' rest A _. now apply split_section_on_curve.
  - intros s w. apply on_curve_windings.
Qed.

Lemma sweep_sections_on_curve fuel G tol g :
  fst (sweep_graph H mono_intersect ps d fuel G tol) = Returned g ->
  Forall (on_curve ps) (g_sections g).
Proof.
  apply (sweep_sections_all H mono_intersect ps d HP (on_curve ps) (fun _ => True)).
  - exact I.
  - intros. split; exact I.
  - intros s cuts s' rest A _. now apply split_section_on_curve.
  - intros s w. apply on_curve_windings.
  - apply mono_sections_on_curve.
Qed.

Lemma neighbour_loop_windings s cx si k i st ts st' ts' :
  neighbour_loop H mono_intersect ps d s cx si k i st ts = Ok (st', ts') ->
  st_windings st' = st_windings st.
Proof.
  intros E.
  apply (neighbour_loop_ind H mono_intersect ps d
           (fun s' _ => st_windings s' = st_windings st) s cx si) in E; auto.
Qed.

Lemma sweep_step_counters G st r :
  sweep_step H mono_intersect ps d G st = Ok r ->
  all_sections (on_curve ps) st /\ counters_per_path ps st ->
  all_sections (on_curve ps) (state_of r) /\ counters_per_path ps (state_of r).
Proof.
  intros E (A & W). split; [eapply sweep_step_on_curve; eauto|].
  apply sweep_step_parts in E.
  destruct E as (st0 & s & lim & st1 & P0 & F & R).
  assert (A0 : Forall (on_curve ps) (st_context st0) /\ counters_per_path ps st0).
  { destruct A as (_ & _ & A & _).
    destruct P0 as [(_ & -> & _)|(_ & _ & -> & _)]; split; auto. }
  apply (finish_loop_counters ps) in F; [|exact A0]. destruct F as (_ & W1).
  destruct R as [(_ & ->)|(_ & sv & cix & v & vs & st2 & ts & cx & cx' & rest & ctx & m & e
                            & _ & _ & _ & N & _ & _ & _ & _ & ->)]; [exact W1|].
  pose proof (neighbour_loop_frame _ _ _ _ _ _ _ _ _ _ _ _ _ N) as (_ & _ & S2 & _).
  apply neighbour_loop_windings in N. simpl in N, S2.
  unfold counters_per_path. simpl. rewrite N, S2. exact W1.
Qed.

(** X20: when the heap algorithms only permute their range, every Section
    of the returned Graph names a curve of the input, and its two points
    are that curve's points at its two parameters. *)
Theorem X20_sections_on_curve fuel G tol g :
  fst (sweep_graph H mono_intersect ps d fuel G tol) = Returned g ->
  forall r, In r (g_sections g) ->
    exists c, get (curve r) ps = Ok c
              /\ fp r = pointAt c (f r) /\ tp r = pointAt c (t r).
Proof.
  intros R. apply Forall_forall. now apply (sweep_sections_on_curve fuel G tol).
Qed.

(** X21: when the heap algorithms only permute their range, every Section
    of the returned Graph carries one winding counter per path of the
    input: the vector of counters is never resized. *)
Theorem X21_sections_counters_per_path fuel G tol g :
  fst (sweep_graph H mono_intersect ps d fuel G tol) = Returned g ->
  forall r, In r (g_sections g) -> length (windings r) = length ps.
Proof.
  unfold sweep_graph. intros R.
  destruct (sweep_loop_ind H mono_intersect ps d
              (fun st => all_sections (on_curve ps) st /\ counters_per_path ps st)
              sweep_step_counters _ _ _ _ R) as (st' & (_ & _ & A) & ->).
  - split.
    + unfold all_sections, initial_state, pending. simpl.
      rewrite firstn_all. repeat split; auto.
      apply (Permutation_Forall (Permutation_sym (make_heap_perm H HP _ _))).
      apply mono_sections_on_curve.
    + unfold counters_per_path. simpl. rewrite repeat_length. auto.
  - simpl. apply Forall_forall. exact A.
Qed.

Hypothesis HX : finite_crossings mono_intersect.

(** X22: when the heap algorithms only permute their range, the crossings
    [mono_intersect] returns are finite and so are the roots of the
    curves' derivatives, every Section of the returned Graph has its
    parameters in the domain [0,1] of its curve and more than the
    tolerance apart. *)
Theorem X22_sections_within_unit fuel G tol g :
  finite_roots ps = true ->
  fst (sweep_graph H mono_intersect ps d fuel G tol) = Returned g ->
  forall r, In r (g_sections g) ->
    between (Fin 0) (Fin 1) (f r) = true
    /\ between (Fin 0) (Fin 1) (t r) = true
    /\ are_near (f r) (t r) = false.
Proof.
  intros FR R. apply Forall_forall. revert R.
  apply (sweep_sections_all H mono_intersect ps d HP within_unit all_finite).
  - constructor.
  - intros a ia b ib ts Fts.
    destruct (crossings_finite mono_intersect HX a ia b ib) as (Fa & Fb).
    split; auto. apply Forall_app. split; auto.
  - intros s cuts s' rest. apply split_section_within_unit.
  - intros s w A. exact A.
  - now apply mono_sections_within_unit.
Qed.

End ReturnedSections.

(** X23: the sections [mono_sections] starts the sweep with: each names the
    curve it was cut from, has that curve's points at its parameters, is
    ordered along X, and has no winding numbers yet; with finite
    derivative roots its parameters lie in [0,1], more than the tolerance
    apart. *)
Theorem X23_mono_sections_valid ps s :
  In s (mono_sections ps) ->
  (exists c, get (curve s) ps = Ok c
             /\ fp s = pointAt c (f s) /\ tp s = pointAt c (t s))
  /\ lexo_point (tp s) (fp s) X = false
  /\ windings s = []
  /\ (finite_roots ps = true ->
      between (Fin 0) (Fin 1) (f s) = true
      /\ between (Fin 0) (Fin 1) (t s) = true
      /\ are_near (f s) (t s) = false).
Proof.
  intros I. split; [|split; [|split]].
  - exact (proj1 (Forall_forall _ _) (mono_sections_on_curve ps) s I).
  - destruct (in_mono_sections ps s I) as (i & j & p & c & _ & _ & K).
    apply sections_between_new in K. destruct K as (a & b & ->).
    apply Section_new_shape.
  - destruct (in_mono_sections ps s I) as (i & j & p & c & _ & _ & K).
    apply sections_between_new in K. destruct K as (a & b & ->).
    apply Section_new_shape.
  - intros F. exact (proj1 (Forall_forall _ _) (mono_sections_within_unit ps F) s I).
Qed.

(** ** The last pending section *)

Section LastSection.

Variable H : heap_algorithms.
Variable mono_intersect : Curve -> Interval -> Curve -> Interval -> list Crossing.
Variable ps : list Path.
Variable d : Dim2.

Hypothesis HP : heap_preserves H.

Lemma perm_at_most_one {A} (l l' : list A) :
  Permutation l l' -> length l' <= 1 -> l = l'.
Proof.
  intros P L. destruct l' as [|x [|y r]]; simpl in L; try lia.
  - now apply Permutation_nil.
  - now apply Permutation_length_1_inv.
Qed.

(** X24: the section popped last is never swept: the loop leaves right
    after the pop that empties the heap.  So, when the heap algorithms
    only permute their range, an input of at most one monotonic section
    yields the empty Graph and records nothing in the trace buffers. *)
Theorem X24_single_section_is_dropped fuel G tol :
  length (mono_sections ps) <= 1 ->
  sweep_graph H mono_intersect ps d (S fuel) G tol = (Returned (mkGraph [] []), G).
Proof.
  intros L. unfold sweep_graph, initial_state.
  pose proof (perm_at_most_one _ _ (make_heap_perm H HP (HeapSorter d) (mono_sections ps)) L)
    as ->.
  destruct (mono_sections ps) as [|x [|y r]]; simpl in L; try lia.
  - reflexivity.
  - simpl sweep_loop. unfold sweep_step, bind. simpl st_monos_end. simpl (1 =? 0).
    cbv beta iota. unfold on_range. simpl firstn. simpl skipn.
    pose proof (perm_at_most_one _ _ (pop_heap_perm H HP (HeapSorter d) [x])
                  ltac:(simpl; lia)) as ->.
    reflexivity.
Qed.

End LastSection.

(** ** The trace buffers *)

Section Trace.

Variable H : heap_algorithms.
Variable mono_intersect : Curve -> Interval -> Curve -> Interval -> list Crossing.
Variable ps : list Path.
Variable d : Dim2.

Lemma sweep_step_trace G st G' st' :
  sweep_step H mono_intersect ps d G st = Ok (Continue G' st') ->
  chopss G' = chopss G
  /\ monoss G' = monoss G ++ [std_sort_heap H (HeapSorter d) (pending st')]
  /\ contexts G' = contexts G ++ [st_context st']
  /\ st_context st' <> [].
Proof.
  intros E. apply sweep_step_parts in E.
  destruct E as (st0 & s & lim & st1 & _ & _ & R).
  destruct R as [(_ & R)|(_ & sv & cix & v & vs & st2 & ts & cx & cx' & rest & ctx & m & e
                            & _ & _ & _ & _ & _ & _ & U & _ & R)]; [discriminate|].
  injection R as -> ->. simpl. repeat split.
  apply update_Ok in U. destruct U as (a & N & L & _).
  intros ->. simpl in L. destruct (st_context st2); [destruct cix|]; discriminate.
Qed.

Lemma sweep_loop_trace fuel : forall G st,
  let G' := snd (sweep_loop H mono_intersect ps d fuel G st) in
  chopss G' = chopss G
  /\ exists ms cs,
       monoss G' = monoss G ++ ms /\ contexts G' = contexts G ++ cs
       /\ length ms = length cs /\ Forall (fun c => c <> []) cs.
Proof.
  induction fuel as [|fuel IH]; intros G st; simpl.
  - split; auto. exists [], []. rewrite !app_nil_r. auto.
  - destruct (sweep_step H mono_intersect ps d G st) as [[st'|G1 st']|e] eqn:E; simpl.
    + split; auto. exists [], []. rewrite !app_nil_r. auto.
    + destruct (sweep_step_trace _ _ _ _ E) as (A & B & K & N).
      destruct (IH G1 st') as (A' & ms & cs & B' & K' & L & F).
      split; [congruence|].
      exists (std_sort_heap H (HeapSorter d) (pending st') :: ms), (st_context st' :: cs).
      rewrite B', K', B, K, <- !app_assoc. simpl. repeat split; auto.
    + split; auto. exists [], []. rewrite !app_nil_r. auto.
Qed.

(** X25: what the sweep does to the trace buffers: [chopss] is never
    written; [monoss] and [contexts] grow at their ends, by one entry each
    per completed iteration, and no recorded context is empty. *)
Theorem X25_trace_buffers fuel G tol :
  let G' := snd (sweep_graph H mono_intersect ps d fuel G tol) in
  chopss G' = chopss G
  /\ exists ms cs,
       monoss G' = monoss G ++ ms /\ contexts G' = contexts G ++ cs
       /\ length ms = length cs /\ Forall (fun c => c <> []) cs.
Proof. apply sweep_loop_trace. Qed.

End Trace.

(** ** [section_root] and [SectionSorter] *)

Lemma find_first {A} (P : A -> bool) : forall l,
  match find P l with
  | Some r => exists pre post, l = pre ++ r :: post /\ P r = true
                               /\ forallb (fun x => negb (P x)) pre = true
  | None => forallb (fun x => negb (P x)) l = true
  end.
Proof.
  induction l as [|x l IH]; simpl; [reflexivity|].
  destruct (P x) eqn:Px.
  - exists [], l. auto.
  - destruct (find P l) as [r|].
    + destruct IH as (pre & post & -> & K1 & K2).
      exists (x :: pre), post. simpl. rewrite Px. auto.
    + exact IH.
Qed.

(** X26: [section_root] returns the first root of the curve that lies in
    the section's parameter interval, and -1 when there is none; it fails
    only when the section names no curve. *)
Theorem X26_section_root_first s ps v d c :
  get (curve s) ps = Ok c ->
  exists r, section_root s ps v d = Ok r
    /\ ((exists pre post, roots c v d = pre ++ r :: post
           /\ Interval_contains (Interval_of (f s) (t s)) r = true
           /\ forallb (fun x => negb (Interval_contains (Interval_of (f s) (t s)) x)) pre
              = true)
        \/ (r = Fin (-1)
            /\ forallb (fun x => negb (Interval_contains (Interval_of (f s) (t s)) x))
                       (roots c v d) = true)).
Proof.
  intros G. unfold section_root, bind. rewrite G.
  pose proof (find_first (Interval_contains (Interval_of (f s) (t s))) (roots c v d)) as K.
  destruct (find _ (roots c v d)) as [r|].
  - exists r. split; [reflexivity|]. left. exact K.
  - exists (Fin (-1)). split; [reflexivity|]. right. auto.
Qed.

Lemma section_order_total ps dim a ta b tb ca cb :
  get (curve a) ps = Ok ca -> get (curve b) ps = Ok cb ->
  exists r, section_order ps dim a ta b tb = Ok r.
Proof.
  intros Ga Gb. unfold section_order, bind. rewrite Ga, Gb.
  repeat match goal with |- context [if ?c then _ else _] => destruct c end; eauto.
Qed.

(** X27: the comparator of the context fails only when one of the two
    sections names no curve of the input. *)
Theorem X27_SectionSorter_total ps dim same_object a b ca cb :
  get (curve a) ps = Ok ca -> get (curve b) ps = Ok cb ->
  exists r, SectionSorter ps dim same_object a b = Ok r.
Proof.
  intros Ga Gb. unfold SectionSorter.
  destruct same_object; [eauto|]. cbv zeta.
  destruct (_ <=? _)%D; [eauto|].
  destruct (_ <=? _)%D; [eauto|].
  destruct (Interval_intersects _ _); [|eauto].
  destruct (are_near _ _); [eapply section_order_total; eauto|].
  destruct (_ <? _)%D; unfold bind, section_root; rewrite ?Ga, ?Gb; unfold bind;
    eapply section_order_total; eauto.
Qed.

(** X28: two distinct sections whose bounding boxes are flat on the
    ordering axis, at the same finite coordinate, are each ordered before
    the other: the comparator is not asymmetric. *)
Theorem X28_SectionSorter_flat_both_ways ps dim a b v :
  coord (fp a) dim = Fin v -> coord (tp a) dim = Fin v ->
  coord (fp b) dim = Fin v -> coord (tp b) dim = Fin v ->
  SectionSorter ps dim false a b = Ok true /\ SectionSorter ps dim false b a = Ok true.
Proof.
  intros A1 A2 B1 B2. unfold SectionSorter, bbox, Rect_of, rect_dim.
  destruct dim; simpl in *; rewrite A1, A2, B1, B2; unfold Interval_of;
    assert (L : (Fin v <=? Fin v)%D = true) by (simpl; qbool; lra);
    rewrite L; simpl imax; simpl imin; rewrite L; auto.
Qed.

(** ** [key_hit] *)

(** X30: no key leaves the handle's X coordinate below zero, and ['a']
    resets it to zero. *)
Theorem X30_key_hit_not_negative keyval x :
  (key_hit keyval x <? Fin 0)%D = false /\ key_hit 97 x = Fin 0.
Proof.
  split.
  - unfold key_hit. cbv zeta.
    match goal with |- context [if (?y <? Fin 0)%D then _ else _] =>
      destruct (y <? Fin 0)%D eqn:E; [reflexivity|exact E] end.
  - reflexivity.
Qed.

(** ** [push_them] *)

Lemma store_total {A} (m : list A) it x :
  it < length m ->
  exists m1, store m it x = Ok m1
    /\ length m1 = length m
    /\ skipn (S it) m1 = skipn (S it) m.
Proof.
  intros Lt. unfold store.
  destruct (update_in_range (fun _ => x) m it Lt) as (m1 & U).
  exists m1. split; [exact U|].
  apply update_Ok in U. destruct U as (a & _ & Ln & K).
  split; [exact Ln|].
  apply nth_error_ext. intros j. rewrite !nth_error_skipn, K.
  destruct (Nat.eqb_spec (S it + j) it); [lia|reflexivity].
Qed.

Lemma on_range_tail {A} (g : list A -> list A) e m :
  (forall l, length (g l) = length l) -> e <= length m ->
  skipn e (on_range e g m) = skipn e m.
Proof.
  intros G L. unfold on_range.
  assert (K : length (g (firstn e m)) = e) by (rewrite G, length_firstn; lia).
  rewrite skipn_app, K, Nat.sub_diag. simpl.
  rewrite skipn_all2 by lia. reflexivity.
Qed.

Section PushThem.

Variable H : heap_algorithms.
Hypothesis HP : heap_preserves H.

Lemma push_them_loop_total z : forall xs m e,
  e + length xs <= length m ->
  exists m', push_them_loop H m e xs z = Ok (m', e + length xs)
    /\ length m' = length m
    /\ skipn (e + length xs) m' = skipn (e + length xs) m.
Proof.
  induction xs as [|x xs IH]; intros m e L; simpl in *.
  - exists m. rewrite Nat.add_0_r. repeat split; auto.
  - destruct (store_total m e x) as (m1 & -> & L1 & S1); [lia|]. unfold bind.
    assert (G : forall l, length (std_push_heap H z l) = length l)
      by (intros l; apply Permutation_length, (push_heap_perm H HP)).
    destruct (firstn_on_range (std_push_heap H z) (S e) m1 G) as [_ L2]; [lia|].
    pose proof (on_range_tail (std_push_heap H z) (S e) m1 G ltac:(lia)) as S2.
    destruct (IH (on_range (S e) (std_push_heap H z) m1) (S e)) as (m' & E & L' & S');
      [lia|].
    exists m'. replace (e + S (length xs)) with (S e + length xs) by lia.
    split; [exact E|]. split; [lia|].
    rewrite S'. rewrite (Nat.add_comm (S e)), <- !skipn_skipn. now rewrite S2, S1.
Qed.

Lemma push_them_total z xs m e :
  e + length xs <= length m ->
  exists m', push_them H m e xs z = Ok (m', e + length xs)
    /\ length m' = length m
    /\ skipn (e + length xs) m' = skipn (e + length xs) m.
Proof.
  intros L. unfold push_them.
  destruct (Nat.leb_spec (e + length xs) (length m)); [|lia].
  now apply push_them_loop_total.
Qed.

Lemma push_them_overflow z xs m e :
  length m < e + length xs -> push_them H m e xs z = Err OutOfRange.
Proof.
  intros L. unfold push_them.
  destruct (Nat.leb_spec (e + length xs) (length m)); [lia|reflexivity].
Qed.

(** X29: [push_them] never changes the size of the vector, [reserve]
    making room but no element.  When [push_heap] only permutes its
    range and the advanced iterator stays within the vector, it advances
    the iterator by the number of elements pushed, leaves what lies
    beyond the advanced iterator alone, and the range below it holds the
    elements it held below the iterator and the pushed ones: what the
    iterator pointed at before is overwritten.  When the advanced
    iterator would pass the end of the vector, the call is out of
    range. *)
Theorem X29_push_them_advances z xs m e :
  (e + length xs <= length m ->
   exists m', push_them H m e xs z = Ok (m', e + length xs)
     /\ length m' = length m
     /\ skipn (e + length xs) m' = skipn (e + length xs) m
     /\ Permutation (firstn (e + length xs) m') (firstn e m ++ xs))
  /\ (length m < e + length xs -> push_them H m e xs z = Err OutOfRange).
Proof.
  split; [|apply push_them_overflow].
  intros L. destruct (push_them_total z xs m e L) as (m' & E & L' & S').
  exists m'. repeat split; auto.
  exact (proj2 (push_them_range H HP z xs m e m' _ ltac:(lia) E)).
Qed.

End PushThem.

(** ** The properties at concrete inputs *)

Lemma X6_mono_splits_cuts_witness :
  (exists y mid z, mono_splits mid_turn = y :: mid ++ [z]
                   /\ (y ==? Fin 0)%D = true /\ (z ==? Fin 1)%D = true)
  /\ chain (gap true) (mono_splits mid_turn)
  /\ forallb (between (Fin 0) (Fin 1)) (mono_splits mid_turn) = true.
Proof. apply (X6_mono_splits_cuts mid_turn); reflexivity. Defined.

Lemma X7_split_section_pieces_witness :
  exists s' rest,
    split_section diagonal_section [[diagonal]] [Fin (1 # 2)] X = Ok (s', rest)
    /\ t s' = Fin (1 # 2) /\ length rest = 1
    /\ Forall (piece_of diagonal_section) (s' :: rest)
    /\ weight s' + total_weight rest <= weight diagonal_section.
Proof.
  eexists. eexists. split; [vm_compute; reflexivity|].
  split; [reflexivity|]. split; [reflexivity|].
  refine ((fun K => conj (proj1 (proj2 (proj2 (proj2 K))))
                         (proj1 (proj2 (proj2 (proj2 (proj2 K))))))
            (X7_split_section_pieces diagonal_section [[diagonal]] [Fin (1 # 2)] X
               _ _ eq_refl eq_refl _)).
  vm_compute. reflexivity.
Defined.

Lemma X8_split_section_in_bounds_witness :
  exists c1,
    at_ (process_splits [Fin (1 # 2)] (f diagonal_section) (t diagonal_section)) 1 = Ok c1
    /\ if (coord (pointAt diagonal c1) X >=? coord (fp diagonal_section) X)%D
       then exists s' rest,
              split_section diagonal_section [[diagonal]] [Fin (1 # 2)] X = Ok (s', rest)
       else split_section diagonal_section [[diagonal]] [Fin (1 # 2)] X
            = Err AssertionFailed.
Proof.
  apply (X8_split_section_in_bounds diagonal_section [[diagonal]] [Fin (1 # 2)] X diagonal);
    reflexivity.
Defined.

Lemma X11_lower_bound_in_range_witness :
  lower_bound [lower0; lower1] upper2 (SectionSorter [] Y false) = Ok 2
  /\ 2 <= length [lower0; lower1].
Proof.
  split; [reflexivity|].
  apply (X11_lower_bound_in_range [lower0; lower1] upper2 (SectionSorter [] Y false) 2).
  reflexivity.
Defined.

Lemma X12_lower_bound_partition_witness :
  SectionSorter [] Y false lower0 lower1 = Ok true
  /\ SectionSorter [] Y false upper2 lower1 = Ok false
  /\ lower_bound [lower0; upper2] lower1 (SectionSorter [] Y false) = Ok 1.
Proof.
  split; [reflexivity|]. split; [reflexivity|].
  apply (X12_lower_bound_partition [lower0; upper2] lower1 (SectionSorter [] Y false) 1).
  - simpl. lia.
  - intros [|[|j]] e; simpl.
    + intros [= <-]. reflexivity.
    + intros [= <-]. reflexivity.
    + destruct j; discriminate.
Defined.

Lemma X13_winding_loop_in_range_witness :
  0 + length [lower0; lower1] <= length [0%Z; 0%Z]
  /\ exists w', winding_loop [lower0; lower1] 0 [0%Z; 0%Z] = Ok w'.
Proof.
  split; [simpl; lia|].
  apply (X13_winding_loop_in_range [lower0; lower1] 0 [0%Z; 0%Z]). simpl. lia.
Defined.

Lemma X14_winding_loop_counts_witness :
  winding_loop [lower0; lower1] 0 [0%Z; 0%Z] = Ok [1%Z; (-1)%Z]
  /\ length [1%Z; (-1)%Z] = Nat.max (length [0%Z; 0%Z]) (paths_bound [lower0; lower1])
  /\ Zsum [1%Z; (-1)%Z] = (Zsum [0%Z; 0%Z] + Zsum (map net [lower0; lower1]))%Z.
Proof.
  split; [reflexivity|].
  apply (X14_winding_loop_counts [lower0; lower1] 0 [0%Z; 0%Z] [1%Z; (-1)%Z]).
  reflexivity.
Defined.

Lemma X15_winding_loop_by_path_witness :
  none_reversed [lower0; upper2] = true
  /\ winding_loop [lower0; upper2] 0 [0%Z; 0%Z]
     = Ok (winding_by_path [lower0; upper2] [0%Z; 0%Z]).
Proof.
  split; [reflexivity|].
  apply (X15_winding_loop_by_path [lower0; upper2] 0 [0%Z; 0%Z]). reflexivity.
Defined.

Lemma X16_finish_loop_moves_witness :
  exists st',
    finish_loop 3 (Fin 2) three_in_context = Ok st'
    /\ map (@curve) (st_context st') = [mkCurveIx 0 0; mkCurveIx 0 1]
    /\ map (@curve) (st_sections st') = [mkCurveIx 1 0]
    /\ (exists out,
         st_sections st' = st_sections three_in_context ++ out
         /\ Forall (fun r => finished (Fin 2) r = true) out
         /\ Permutation (map without_windings (st_context st' ++ out))
                        (map without_windings (st_context three_in_context))
         /\ filter (fun c => negb (finished (Fin 2) c)) (st_context st')
            = filter (fun c => negb (finished (Fin 2) c)) (st_context three_in_context)
         /\ (length (st_vix three_in_context) = length (st_context three_in_context) ->
             length (st_vix st') = length (st_context st'))).
Proof.
  eexists. split; [vm_compute; reflexivity|].
  split; [reflexivity|]. split; [reflexivity|].
  refine (proj1 (X16_finish_loop_moves (Fin 2) 3 three_in_context _ _)).
  vm_compute. reflexivity.
Defined.

Lemma X17_vertices_apart_witness :
  fst (sweep_graph sorted_heap midpoint_crossing crossing_segments X 20
                   no_globals (Fin 1))
  = Returned crossing_graph
  /\ forall i j vi vj,
       i < j -> nth_error (g_vertices crossing_graph) i = Some vi ->
       nth_error (g_vertices crossing_graph) j = Some vj ->
       are_near_point (avg vi) (avg vj) = false.
Proof.
  split; [reflexivity|].
  apply (X17_vertices_apart sorted_heap midpoint_crossing crossing_segments X 20
           no_globals (Fin 1) crossing_graph).
  reflexivity.
Defined.

Lemma X18_edges_well_formed_witness :
  fst (sweep_graph sorted_heap midpoint_crossing crossing_segments X 20
                   no_globals (Fin 1))
  = Returned crossing_graph
  /\ forall j v e,
       nth_error (g_vertices crossing_graph) j = Some v -> In e (enters v ++ exits v) ->
       edge_section e < length (g_sections crossing_graph)
       /\ other e < length (g_vertices crossing_graph)
       /\ other e <> j.
Proof.
  split; [reflexivity|].
  apply (X18_edges_well_formed sorted_heap midpoint_crossing crossing_segments X 20
           no_globals (Fin 1) crossing_graph).
  reflexivity.
Defined.

Lemma X19_sections_run_forward_witness :
  fst (sweep_graph sorted_heap midpoint_crossing crossing_segments X 20
                   no_globals (Fin 1))
  = Returned crossing_graph
  /\ forall r, In r (g_sections crossing_graph) ->
       (coord (tp r) X >=? coord (fp r) X)%D = true.
Proof.
  split; [reflexivity|].
  apply (X19_sections_run_forward sorted_heap midpoint_crossing crossing_segments X 20
           no_globals (Fin 1) crossing_graph).
  reflexivity.
Defined.

Lemma X20_sections_on_curve_witness :
  fst (sweep_graph sorted_heap midpoint_crossing crossing_segments X 20
                   no_globals (Fin 1))
  = Returned crossing_graph
  /\ forall r, In r (g_sections crossing_graph) ->
       exists c, get (curve r) crossing_segments = Ok c
                 /\ fp r = pointAt c (f r) /\ tp r = pointAt c (t r).
Proof.
  split; [reflexivity|].
  apply (X20_sections_on_curve sorted_heap midpoint_crossing crossing_segments X
           sorted_heap_preserves 20 no_globals (Fin 1) crossing_graph).
  reflexivity.
Defined.

Lemma X21_sections_counters_per_path_witness :
  fst (sweep_graph sorted_heap midpoint_crossing crossing_segments X 20
                   no_globals (Fin 1))
  = Returned crossing_graph
  /\ forall r, In r (g_sections crossing_graph) ->
       length (windings r) = length crossing_segments.
Proof.
  split; [reflexivity|].
  apply (X21_sections_counters_per_path sorted_heap midpoint_crossing crossing_segments X
           sorted_heap_preserves 20 no_globals (Fin 1) crossing_graph).
  reflexivity.
Defined.

Lemma X22_sections_within_unit_witness :
  finite_roots crossing_segments = true
  /\ fst (sweep_graph sorted_heap midpoint_crossing crossing_segments X 20
                      no_globals (Fin 1))
     = Returned crossing_graph
  /\ forall r, In r (g_sections crossing_graph) ->
       between (Fin 0) (Fin 1) (f r) = true
       /\ between (Fin 0) (Fin 1) (t r) = true
       /\ are_near (f r) (t r) = false.
Proof.
  split; [reflexivity|]. split; [reflexivity|].
  apply (X22_sections_within_unit sorted_heap midpoint_crossing crossing_segments X
           sorted_heap_preserves midpoint_crossing_finite 20 no_globals (Fin 1)
           crossing_graph); reflexivity.
Defined.

Lemma X23_mono_sections_valid_witness :
  mono_sections two_steep = [section_a; section_b]
  /\ (exists c, get (curve section_a) two_steep = Ok c
                /\ fp section_a = pointAt c (f section_a)
                /\ tp section_a = pointAt c (t section_a))
  /\ lexo_point (tp section_a) (fp section_a) X = false
  /\ windings section_a = []
  /\ (finite_roots two_steep = true ->
      between (Fin 0) (Fin 1) (f section_a) = true
      /\ between (Fin 0) (Fin 1) (t section_a) = true
      /\ are_near (f section_a) (t section_a) = false).
Proof.
  split; [reflexivity|].
  apply (X23_mono_sections_valid two_steep section_a).
  left. reflexivity.
Defined.

Lemma X24_single_section_is_dropped_witness :
  length (mono_sections [[diagonal]]) = 1
  /\ sweep_graph sorted_heap no_crossings [[diagonal]] X 1 no_globals (Fin 1)
     = (Returned (mkGraph [] []), no_globals).
Proof.
  split; [reflexivity|].
  apply (X24_single_section_is_dropped sorted_heap no_crossings [[diagonal]] X
           sorted_heap_preserves 0 no_globals (Fin 1)).
  apply le_n.
Defined.

Lemma X29_push_them_advances_witness :
  (exists m', push_them sorted_heap [lower0; lower1; upper2] 1 [upper2; lower0]
                        (HeapSorter X)
              = Ok (m', 1 + length [upper2; lower0])
     /\ length m' = length [lower0; lower1; upper2]
     /\ skipn (1 + length [upper2; lower0]) m'
        = skipn (1 + length [upper2; lower0]) [lower0; lower1; upper2]
     /\ Permutation (firstn (1 + length [upper2; lower0]) m')
                    (firstn 1 [lower0; lower1; upper2] ++ [upper2; lower0]))
  /\ push_them sorted_heap [lower0; lower1] 1 [upper2; lower0] (HeapSorter X)
     = Err OutOfRange.
Proof.
  split.
  - apply (X29_push_them_advances sorted_heap sorted_heap_preserves (HeapSorter X)
             [upper2; lower0] [lower0; lower1; upper2] 1).
    simpl. lia.
  - apply (X29_push_them_advances sorted_heap sorted_heap_preserves (HeapSorter X)
             [upper2; lower0] [lower0; lower1] 1).
    simpl. lia.
Defined.

Lemma X26_section_root_first_witness :
  get (curve section_a) two_steep = Ok steep_a
  /\ section_root section_a two_steep (Fin 1) X = Ok (Fin (1 # 3))
  /\ exists r, section_root section_a two_steep (Fin 1) X = Ok r
       /\ ((exists pre post, roots steep_a (Fin 1) X = pre ++ r :: post
              /\ Interval_contains (Interval_of (f section_a) (t section_a)) r = true
              /\ forallb (fun x => negb (Interval_contains
                                           (Interval_of (f section_a) (t section_a)) x))
                         pre = true)
           \/ (r = Fin (-1)
               /\ forallb (fun x => negb (Interval_contains
                                            (Interval_of (f section_a) (t section_a)) x))
                          (roots steep_a (Fin 1) X) = true)).
Proof.
  split; [reflexivity|]. split; [reflexivity|].
  apply (X26_section_root_first section_a two_steep (Fin 1) X steep_a). reflexivity.
Defined.

Lemma X27_SectionSorter_total_witness :
  get (curve section_a) two_steep = Ok steep_a
  /\ get (curve section_b) two_steep = Ok steep_b
  /\ exists r, SectionSorter two_steep Y false section_a section_b = Ok r.
Proof.
  split; [reflexivity|]. split; [reflexivity|].
  apply (X27_SectionSorter_total two_steep Y false section_a section_b steep_a steep_b);
    reflexivity.
Defined.

Lemma X28_SectionSorter_flat_both_ways_witness :
  coord (fp flat_a) Y = Fin 1 /\ coord (tp flat_b) Y = Fin 1
  /\ SectionSorter [] Y false flat_a flat_b = Ok true
  /\ SectionSorter [] Y false flat_b flat_a = Ok true.
Proof.
  split; [reflexivity|]. split; [reflexivity|].
  apply (X28_SectionSorter_flat_both_ways [] Y flat_a flat_b 1); reflexivity.
Defined.
